(** * SignalCrossCutJS: the reactive [Signal] cell of src/Signals/Signal.js

    A shallow embedding of the [Signal] class and of the client closures that
    drive it, followed by the properties of its write pipeline, its
    dependency tracking and its subscription life cycle. *)

From Stdlib Require Import ZArith String List Lia Bool.
From stdpp Require Import base tactics option list.

(** ** JavaScript values

    The fragment of JavaScript values that the pipeline inspects.  Numbers
    are restricted to integers; objects are opaque references. *)

Inductive val : Type :=
| VUndefined
| VNull
| VBool (b : bool)
| VNum (n : Z)
| VStr (s : string)
| VObj (ref : nat).

(** [result !== true]: strict inequality with the literal [true]. *)
Definition not_strictly_true (result : val) : bool :=
  match result with
  | VBool true => false
  | _ => true
  end.

(** ** Parse stages

    A parser "must return the parsed value or throw an error"; the thrown
    [Error] is represented by its [message]. *)

Inductive ParseResult : Type :=
| Parsed (v : val)
| ParseError (message : string).

Abbreviation Parser := (val -> ParseResult) (only parsing).

(** ** Identities *)

Abbreviation CellId := nat (only parsing).
Abbreviation ObsId := nat (only parsing).

(** ** The [Set] of subscriptions

    An ECMAScript [Set] keeps its entries in insertion order in a list in
    which [delete] leaves an empty slot; [add] appends unless a live entry
    already holds the value; an iterator walks the list by index, skips the
    empty slots and sees what is appended while it runs. *)

Abbreviation SetData := (list (option nat)) (only parsing).

Definition slot_holds (o : ObsId) (e : option ObsId) : bool :=
  match e with
  | Some o' => Nat.eqb o' o
  | None => false
  end.

Definition set_has (o : ObsId) (entries : SetData) : bool :=
  existsb (slot_holds o) entries.

Definition set_add (o : ObsId) (entries : SetData) : SetData :=
  if set_has o entries then entries else entries ++ [Some o].

Definition set_delete (o : ObsId) (entries : SetData) : SetData :=
  (fun e => if slot_holds o e then None else e) <$> entries.

(** The live members, in iteration order. *)
Definition members (entries : SetData) : list ObsId := omap id entries.

(** ** Client code

    The functions handed to [createEffect] and [subscribe], and the code
    that calls the cells from outside, are programs over the public methods
    of the cells; a continuation receives what the call returns.

    - [Done] returns, [Throw e] throws [e];
    - [Emit x] is a side effect outside the cells (a counter increment, an
      append to a log);
    - [Read c], [Write c v], [CreateEffect c fn] and [Subscribe c fn] call
      the methods of cell [c]; [CreateEffect] hands the effect object to its
      continuation and [Subscribe] the unsubscribe function;
    - [Unsubscribe h] calls the unsubscribe function [h], and [Execute o]
      the [execute] method of the effect object [o];
    - [TryCatch body handler] is [try { body } catch (e) { handler(e) }]. *)

Inductive Prog : Type :=
| Done
| Throw (e : val)
| Emit (x : nat) (k : Prog)
| Read (c : CellId) (k : val -> Prog)
| Write (c : CellId) (newValue : val) (k : Prog)
| CreateEffect (c : CellId) (fn : Prog) (k : ObsId -> Prog)
| Subscribe (c : CellId) (fn : Prog) (k : ObsId -> Prog)
| Unsubscribe (h : ObsId) (k : Prog)
| Execute (o : ObsId) (k : Prog)
| TryCatch (body : Prog) (handler : val -> Prog) (k : Prog).

(** ** Validators

    A validator "should return true for a valid state or an error message
    string", but it is a function like any other, and [write] calls it
    outside any [try]: it may act on the cells and on the outside before it
    returns, it may throw, and [write] takes whatever it returns.  The body
    of a validator, once it has been given the old and the new value:

    - [Answer result] returns [result];
    - [Act p k] runs the statements [p], and goes on with [k] when they
      return; what they throw leaves the validator;
    - [Peek c k] calls [read()] on cell [c] and goes on with what it
      returns. *)

Inductive Check : Type :=
| Answer (result : val)
| Act (p : Prog) (k : Check)
| Peek (c : CellId) (k : val -> Check).

Abbreviation Validator := (val -> val -> Check) (only parsing).

(** ** The cell *)

Record Signal : Type := mkSignal {
  value : val;
  validators : list Validator;
  parsers : list Parser;
  subscriptions : SetData;
  context : list ObsId
}.

(** [constructor(initialValue, validators = [], parsers = [])] *)
Definition new_Signal (initialValue : val) (vs : list Validator)
    (ps : list Parser) : Signal :=
  {| value := initialValue; validators := vs; parsers := ps;
     subscriptions := []; context := [] |}.

Definition with_value (v : val) (s : Signal) : Signal :=
  {| value := v; validators := validators s; parsers := parsers s;
     subscriptions := subscriptions s; context := context s |}.

Definition with_subscriptions (f : SetData -> SetData) (s : Signal) : Signal :=
  {| value := value s; validators := validators s; parsers := parsers s;
     subscriptions := f (subscriptions s); context := context s |}.

Definition with_context (f : list ObsId -> list ObsId) (s : Signal) : Signal :=
  {| value := value s; validators := validators s; parsers := parsers s;
     subscriptions := subscriptions s; context := f (context s) |}.

(** [read()]: the observer on top of the context stack, if there is one, is
    added to the subscriptions; the current value is returned. *)
Definition read (s : Signal) : val * Signal :=
  let observer := last (context s) in
  let s' := match observer with
            | Some o => with_subscriptions (set_add o) s
            | None => s
            end in
  (value s', s').

(** The parse loop of [write]: each stage receives the output of the one
    before; the first stage that throws ends the loop. *)
Fixpoint parse_all (ps : list Parser) (v : val) : ParseResult :=
  match ps with
  | [] => Parsed v
  | parse :: rest =>
      match parse v with
      | Parsed v' => parse_all rest v'
      | ParseError message => ParseError message
      end
  end.

(** [validationResults.filter(result => result !== true)] *)
Definition validation_errors (validationResults : list val) : list val :=
  List.filter not_strictly_true validationResults.

(** The two kinds of observer objects: [{execute: () => {push; fn(); pop}}]
    made by [createEffect] on cell [c], and [{execute: fn}] made by
    [subscribe] on cell [c]. *)
Inductive Observer : Type :=
| Effect (c : CellId) (fn : Prog)
| Subscription (c : CellId) (fn : Prog).

(** Arguments of one [console.error] call. *)
Inductive ConsoleArg : Type :=
| CVal (v : val)
| CArr (vs : list val).

(** ** The world

    The cells, the observer objects allocated so far (an observer's identity
    is its index, and the unsubscribe function made with a subscription is
    named by it too) and the lines sent to [console.error].  Two more fields
    record what happens: [journal] holds the outside effects of the
    closures, and [trace] every call of an observer's [execute], in order. *)

Record World : Type := mkWorld {
  cells : list Signal;
  heap : list Observer;
  console : list (list ConsoleArg);
  journal : list nat;
  trace : list ObsId
}.

Definition with_cells (f : list Signal -> list Signal) (w : World) : World :=
  {| cells := f (cells w); heap := heap w; console := console w;
     journal := journal w; trace := trace w |}.

Definition alter_cell (f : Signal -> Signal) (c : CellId) (w : World) : World :=
  with_cells (alter f c) w.

Definition console_error (line : list ConsoleArg) (w : World) : World :=
  {| cells := cells w; heap := heap w; console := console w ++ [line];
     journal := journal w; trace := trace w |}.

Definition emit (x : nat) (w : World) : World :=
  {| cells := cells w; heap := heap w; console := console w;
     journal := journal w ++ [x]; trace := trace w |}.

Definition mark (o : ObsId) (w : World) : World :=
  {| cells := cells w; heap := heap w; console := console w;
     journal := journal w; trace := trace w ++ [o] |}.

Definition alloc (ob : Observer) (w : World) : World :=
  {| cells := cells w; heap := heap w ++ [ob]; console := console w;
     journal := journal w; trace := trace w |}.

(** The identity of the next object to be allocated. *)
Definition fresh (w : World) : ObsId := length (heap w).

(** [this.context.push(effect)] and [this.context.pop()]. *)
Definition push_context (c : CellId) (o : ObsId) (w : World) : World :=
  alter_cell (with_context (fun ctx => ctx ++ [o])) c w.

Definition pop_context (c : CellId) (w : World) : World :=
  alter_cell (with_context (fun ctx => removelast ctx)) c w.

(** [this.value = value]. *)
Definition commit (c : CellId) (v : val) (w : World) : World :=
  alter_cell (with_value v) c w.

(** [subscribe(fn)]: allocates the observer, adds it to the subscriptions and
    returns the closure [() => this.subscriptions.delete(effect)], which is
    named by the observer it deletes.  Nothing is executed. *)
Definition subscribe (c : CellId) (fn : Prog) (w : World) : World :=
  alter_cell (with_subscriptions (set_add (fresh w))) c
    (alloc (Subscription c fn) w).

(** The closure returned by [subscribe]. *)
Definition unsubscribe (h : ObsId) (w : World) : World :=
  match heap w !! h with
  | Some (Subscription c _) =>
      alter_cell (with_subscriptions (set_delete h)) c w
  | _ => w
  end.

(** ** Running the code *)

Inductive Outcome : Type :=
| Normal (w : World)
| Thrown (e : val) (w : World).

Definition world_of (out : Outcome) : World :=
  match out with
  | Normal w => w
  | Thrown _ w => w
  end.

(** The exception raised by a call on something that is not there. *)
Definition TypeError : val := VStr "TypeError".

(** How a call that returns something ends. *)
Inductive Result (A : Type) : Type :=
| Returns (a : A) (w : World)
| Throws (e : val) (w : World).

Arguments Returns {A} a w.
Arguments Throws {A} e w.

Definition result_world {A : Type} (r : Result A) : World :=
  match r with
  | Returns _ w => w
  | Throws _ w => w
  end.

(** One call of a validator; [call] runs the statements it contains. *)
Fixpoint check (call : Prog -> World -> option Outcome) (body : Check)
    (w : World) : option (Result val) :=
  match body with
  | Answer result => Some (Returns result w)
  | Act p k =>
      match call p w with
      | Some (Normal w') => check call k w'
      | Some (Thrown e w') => Some (Throws e w')
      | None => None
      end
  | Peek c k =>
      match cells w !! c with
      | Some s =>
          let '(v, s') := read s in
          check call (k v) (alter_cell (fun _ => s') c w)
      | None => Some (Throws TypeError w)
      end
  end.

(** [this.validators.map(validator => validator(this.value, value))] on
    cell [c]: the validators are called in order, each with the value the
    cell holds when it is called; the first one that throws ends the map,
    and the exception leaves it. *)
Fixpoint validationResults (call : Prog -> World -> option Outcome)
    (c : CellId) (vs : list Validator) (v : val) (w : World) :
    option (Result (list val)) :=
  match vs with
  | [] => Some (Returns [] w)
  | validator :: rest =>
      match cells w !! c with
      | None => Some (Throws TypeError w)
      | Some s =>
          match check call (validator (value s) v) w with
          | Some (Returns result w1) =>
              match validationResults call c rest v w1 with
              | Some (Returns results w2) => Some (Returns (result :: results) w2)
              | other => other
              end
          | Some (Throws e w1) => Some (Throws e w1)
          | None => None
          end
      end
  end.

(** Observers may write to the cells that notify them, so the methods and the
    closures are mutually recursive and need not terminate: every call
    consumes one unit of [fuel], and [None] means that the fuel ran out. *)
Fixpoint run (fuel : nat) (p : Prog) (w : World) {struct fuel} : option Outcome :=
  match fuel with
  | 0 => None
  | S fuel' =>
      match p with
      | Done => Some (Normal w)
      | Throw e => Some (Thrown e w)
      | Emit x k => run fuel' k (emit x w)
      | Read c k =>
          match cells w !! c with
          | Some s =>
              let '(v, s') := read s in
              run fuel' (k v) (alter_cell (fun _ => s') c w)
          | None => Some (Thrown TypeError w)
          end
      | Write c newValue k =>
          match write fuel' c newValue w with
          | Some (Normal w') => run fuel' k w'
          | other => other
          end
      | CreateEffect c fn k =>
          match cells w !! c with
          | Some _ =>
              match createEffect fuel' c fn w with
              | Some (Normal w') => run fuel' (k (fresh w)) w'
              | other => other
              end
          | None => Some (Thrown TypeError w)
          end
      | Subscribe c fn k =>
          match cells w !! c with
          | Some _ => run fuel' (k (fresh w)) (subscribe c fn w)
          | None => Some (Thrown TypeError w)
          end
      | Unsubscribe h k =>
          match heap w !! h with
          | Some (Subscription _ _) => run fuel' k (unsubscribe h w)
          | _ => Some (Thrown TypeError w)
          end
      | Execute o k =>
          match heap w !! o with
          | Some (Effect _ _) =>
              match execute fuel' o w with
              | Some (Normal w') => run fuel' k w'
              | other => other
              end
          | _ => Some (Thrown TypeError w)
          end
      | TryCatch body handler k =>
          match run fuel' body w with
          | Some (Normal w') => run fuel' k w'
          | Some (Thrown e w') =>
              match run fuel' (handler e) w' with
              | Some (Normal w'') => run fuel' k w''
              | other => other
              end
          | None => None
          end
      end
  end

(** [write(newValue)] *)
with write (fuel : nat) (c : CellId) (newValue : val) (w : World)
    {struct fuel} : option Outcome :=
  match fuel with
  | 0 => None
  | S fuel' =>
      match cells w !! c with
      | None => Some (Thrown TypeError w)
      | Some s =>
          match parse_all (parsers s) newValue with
          | ParseError message =>
              Some (Normal (console_error [CVal (VStr message)] w))
          | Parsed v =>
              match validationResults (run fuel') c (validators s) v w with
              | Some (Returns results w1) =>
                  let errors := validation_errors results in
                  if 0 <? length errors then
                    Some (Normal (console_error
                      [CVal (VStr "Validation errors:"); CArr errors] w1))
                  else notify fuel' c 0 (commit c v w1)
              | Some (Throws e w1) => Some (Thrown e w1)
              | None => None
              end
          end
      end
  end

(** [for (const observer of this.subscriptions) observer.execute()],
    resumed at entry [i]. *)
with notify (fuel : nat) (c : CellId) (i : nat) (w : World)
    {struct fuel} : option Outcome :=
  match fuel with
  | 0 => None
  | S fuel' =>
      match cells w !! c with
      | None => Some (Thrown TypeError w)
      | Some s =>
          match subscriptions s !! i with
          | None => Some (Normal w)
          | Some None => notify fuel' c (S i) w
          | Some (Some observer) =>
              match execute fuel' observer w with
              | Some (Normal w') => notify fuel' c (S i) w'
              | other => other
              end
          end
      end
  end

(** [observer.execute()] *)
with execute (fuel : nat) (o : ObsId) (w : World)
    {struct fuel} : option Outcome :=
  match fuel with
  | 0 => None
  | S fuel' =>
      match heap w !! o with
      | Some (Effect c fn) =>
          match run fuel' fn (push_context c o (mark o w)) with
          | Some (Normal w') => Some (Normal (pop_context c w'))
          | other => other
          end
      | Some (Subscription _ fn) => run fuel' fn (mark o w)
      | None => Some (Thrown TypeError w)
      end
  end

(** [createEffect(fn)]; the effect it returns is [fresh w]. *)
with createEffect (fuel : nat) (c : CellId) (fn : Prog) (w : World)
    {struct fuel} : option Outcome :=
  match fuel with
  | 0 => None
  | S fuel' => execute fuel' (fresh w) (alloc (Effect c fn) w)
  end.

(** ** Observations on worlds *)

Definition value_at (c : CellId) (w : World) : option val :=
  value <$> cells w !! c.

Definition context_at (c : CellId) (w : World) : option (list ObsId) :=
  context <$> cells w !! c.

Definition subscriptions_at (c : CellId) (w : World) : option SetData :=
  subscriptions <$> cells w !! c.

(** [o] is a live entry of the subscriptions of cell [c]. *)
Definition subscribed (o : ObsId) (c : CellId) (w : World) : Prop :=
  exists s, cells w !! c = Some s /\ Some o ∈ subscriptions s.

(** The [execute] calls made between [w] and a later world [w']. *)
Definition executed_since (w w' : World) : list ObsId :=
  drop (length (trace w)) (trace w').

Definition body (ob : Observer) : Prog :=
  match ob with
  | Effect _ fn => fn
  | Subscription _ fn => fn
  end.

(** Who can be executed: the notification loop executes subscribed
    observers, [createEffect] and the holder of an effect execute effects. *)
Definition invocable (o : ObsId) (w : World) : Prop :=
  (exists c, subscribed o c w) \/ (exists c fn, heap w !! o = Some (Effect c fn)).

(** One entry of a subscription list, now and later: it is kept, or it was
    the entry of a [subscribe] observer and has been deleted. *)
Definition entry_evolves (w' : World) (e e' : option ObsId) : Prop :=
  e' = e \/
  (e' = None /\ exists h c fn, e = Some h /\ heap w' !! h = Some (Subscription c fn)).

(** How a world may change while code runs: objects are only allocated,
    [execute] calls are only added, cells stay, and the entries of their
    subscription lists keep their positions. *)
Record evolves (w w' : World) : Prop := mkEvolves {
  ev_heap : heap w `prefix_of` heap w';
  ev_trace : trace w `prefix_of` trace w';
  ev_cells : forall c s, cells w !! c = Some s ->
    exists s', cells w' !! c = Some s' /\
      forall i e, subscriptions s !! i = Some e ->
        exists e', subscriptions s' !! i = Some e' /\ entry_evolves w' e e'
}.

(** Programs that write none of the cells in [frozen], in any closure they
    create. *)
Fixpoint avoids (frozen : CellId -> Prop) (p : Prog) : Prop :=
  match p with
  | Done => True
  | Throw _ => True
  | Emit _ k => avoids frozen k
  | Read _ k => forall v, avoids frozen (k v)
  | Write c _ k => ~ frozen c /\ avoids frozen k
  | CreateEffect _ fn k => avoids frozen fn /\ forall o, avoids frozen (k o)
  | Subscribe _ fn k => avoids frozen fn /\ forall o, avoids frozen (k o)
  | Unsubscribe _ k => avoids frozen k
  | Execute _ k => avoids frozen k
  | TryCatch b handler k =>
      avoids frozen b /\ (forall e, avoids frozen (handler e)) /\ avoids frozen k
  end.

Fixpoint check_avoids (frozen : CellId -> Prop) (body : Check) : Prop :=
  match body with
  | Answer _ => True
  | Act p k => avoids frozen p /\ check_avoids frozen k
  | Peek _ k => forall v, check_avoids frozen (k v)
  end.

Definition heap_avoids (frozen : CellId -> Prop) (w : World) : Prop :=
  forall o ob, heap w !! o = Some ob -> avoids frozen (body ob).

Definition validators_avoid (frozen : CellId -> Prop) (w : World) : Prop :=
  forall c s validator oldState newState,
    cells w !! c = Some s -> validator ∈ validators s ->
    check_avoids frozen (validator oldState newState).

(** No closure held by the world, observer or validator, writes a cell in
    [frozen]. *)
Definition code_avoids (frozen : CellId -> Prop) (w : World) : Prop :=
  heap_avoids frozen w /\ validators_avoid frozen w.

(** A [subscribe] observer that is registered nowhere and is on no context
    stack. *)
Definition dormant (h : ObsId) (w : World) : Prop :=
  (exists c fn, heap w !! h = Some (Subscription c fn)) /\
  forall c s, cells w !! c = Some s ->
    (Some h ∉ subscriptions s) /\ (h ∉ context s).

(** Every identity stored in a cell names an allocated observer. *)
Definition cell_wf (bound : nat) (s : Signal) : bool :=
  forallb (fun e => match e with Some o => o <? bound | None => true end)
    (subscriptions s)
  && forallb (fun o => o <? bound) (context s).

Definition wf (w : World) : bool :=
  forallb (cell_wf (length (heap w))) (cells w).

(** Closures that do not call back into the cells' mutators: they read
    cells, act outside the cells, throw and catch. *)
Fixpoint passive (p : Prog) : Prop :=
  match p with
  | Done => True
  | Throw _ => True
  | Emit _ k => passive k
  | Read _ k => forall v, passive (k v)
  | TryCatch b handler k =>
      passive b /\ (forall e, passive (handler e)) /\ passive k
  | _ => False
  end.

Definition heap_passive (w : World) : Prop :=
  forall o ob, heap w !! o = Some ob -> passive (body ob).

(** No effect is running and no frame was left behind. *)
Definition clean (w : World) : Prop :=
  forall c s, cells w !! c = Some s -> context s = [].

(** What reads can change of a cell: the observer on top of its stack may
    have been registered. *)
Definition read_only_step (s s' : Signal) : Prop :=
  value s' = value s /\ validators s' = validators s /\
  parsers s' = parsers s /\ context s' = context s /\
  (subscriptions s' = subscriptions s \/
   exists o, last (context s) = Some o /\
     subscriptions s' = set_add o (subscriptions s)).

Definition quiet (w w' : World) : Prop :=
  heap w' = heap w /\ trace w' = trace w /\ console w' = console w /\
  length (cells w') = length (cells w) /\
  forall c s, cells w !! c = Some s ->
    exists s', cells w' !! c = Some s' /\ read_only_step s s'.

(** What an accepted write has done when its observers do not call back:
    the cell holds the parsed value, the subscriptions are as before, and
    the members have been executed in order, once each, all of them or up
    to the first one that threw. *)
Definition notified_in_order (c : CellId) (v : val) (w : World) (s : Signal)
    (out : Outcome) : Prop :=
  value_at c (world_of out) = Some v /\
  subscriptions_at c (world_of out) = Some (subscriptions s) /\
  match out with
  | Normal w' => executed_since w w' = members (subscriptions s)
  | Thrown e w' =>
      exists pre o post,
        members (subscriptions s) = pre ++ o :: post /\
        executed_since w w' = pre ++ [o]
  end.

(** [read()] called [k] times in a row on a cell. *)
Definition reads (k : nat) (s : Signal) : Signal :=
  Nat.iter k (fun t => (read t).2) s.

(** [(oldState, newState) => f(oldState, newState)]: a validator that
    computes what it returns from its two arguments and does nothing else. *)
Definition returns (f : val -> val -> val) : Validator :=
  fun oldState newState => Answer (f oldState newState).

(** Given the value of the cell and [v], the validators of the cell return
    at once, without acting; [results] is what they return, in order. *)
Definition answers (s : Signal) (v : val) (results : list val) : Prop :=
  Forall2 (fun validator result => validator (value s) v = Answer result)
    (validators s) results.

(** Given the value of the cell and [v], every validator of the cell
    returns [true] at once, without acting. *)
Definition accepts (s : Signal) (v : val) : Prop :=
  Forall (fun validator => validator (value s) v = Answer (VBool true))
    (validators s).

(** The parse pipeline in the words of the specification: a left-to-right
    fold of stages that all succeed, each fed the output of the one before. *)
Definition fold_stages (stages : list (val -> val)) (raw : val) : val :=
  fold_left (fun acc stage => stage acc) stages raw.

Definition total_stage (stage : val -> val) : Parser :=
  fun input => Parsed (stage input).

(** The same fold over stages that may throw: each stage is fed the output
    of the one before, and once a stage has thrown the later ones are not
    called. *)
Definition fold_parsers (stages : list Parser) (raw : val) : ParseResult :=
  fold_left (fun acc stage =>
               match acc with
               | Parsed x => stage x
               | ParseError message => ParseError message
               end) stages (Parsed raw).

(** JavaScript's truthiness ([ToBoolean]). *)
Definition truthy (v : val) : bool :=
  match v with
  | VUndefined => false
  | VNull => false
  | VBool b => b
  | VNum n => negb (n =? 0)%Z
  | VStr EmptyString => false
  | VStr _ => true
  | VObj _ => true
  end.

(** The two outcomes of [write] that the specification allows: the value is
    the parsed one and every observer that was subscribed has been executed;
    or [write] returned normally, the value is the old one and no observer
    has been executed. *)
Definition fully_committed (c : CellId) (v : val) (w : World) (out : Outcome) : Prop :=
  value_at c (world_of out) = Some v /\
  forall o, subscribed o c w -> o ∈ executed_since w (world_of out).

Definition fully_rejected (c : CellId) (w : World) (out : Outcome) : Prop :=
  (exists w', out = Normal w') /\
  value_at c (world_of out) = value_at c w /\
  subscriptions_at c (world_of out) = subscriptions_at c w /\
  executed_since w (world_of out) = [].

(** ** Sample cells, stages and closures *)

Definition empty_world (cs : list Signal) : World :=
  {| cells := cs; heap := []; console := []; journal := []; trace := [] |}.

Definition boom : val := VStr "boom".

(** A parse stage that throws on anything but a number. *)
Definition number_stage : Parser :=
  fun input =>
    match input with
    | VNum n => Parsed (VNum n)
    | _ => ParseError "Invalid number"
    end.

Definition successor_stage : val -> val :=
  fun input =>
    match input with
    | VNum n => VNum (n + 1)
    | other => other
    end.

(** Validators that return [true] or an error message. *)
Definition non_negative : Validator :=
  returns (fun _ newState =>
    match newState with
    | VNum n => if (0 <=? n)%Z then VBool true else VStr "Value must not be negative."
    | _ => VBool true
    end).

Definition below_hundred : Validator :=
  returns (fun _ newState =>
    match newState with
    | VNum n => if (n <? 100)%Z then VBool true else VStr "Value must be below 100."
    | _ => VBool true
    end).

Definition increasing : Validator :=
  returns (fun oldState newState =>
    match oldState, newState with
    | VNum a, VNum b => if (a <? b)%Z then VBool true else VStr "Value must increase."
    | _, _ => VBool true
    end).

(** A validator that answers with the truthy number 1 instead of [true]. *)
Definition truthy_validator : Validator := returns (fun _ _ => VNum 1).

(** [(oldState, newState) => { throw new TypeError(); }]: what a validator
    written for object states does on a number, where its ["age" in
    newState] throws. *)
Definition throwing_validator : Validator :=
  fun _ _ => Act (Throw TypeError) (Answer (VBool true)).

(** [(oldState, newState) => { calls++; return true }] *)
Definition counting_validator : Validator :=
  fun _ _ => Act (Emit 7 Done) (Answer (VBool true)).

(** [(oldState, newState) => { if (newState !== 0) cell0.write(0);
    return true }] *)
Definition zeroing_validator : Validator :=
  fun _ newState =>
    match newState with
    | VNum Z0 => Answer (VBool true)
    | _ => Act (Write 0 (VNum 0) Done) (Answer (VBool true))
    end.

(** [(oldState, newState) => oldState === 10 || "Old value must be 10."] *)
Definition old_is_ten : Validator :=
  returns (fun oldState _ =>
    match oldState with
    | VNum 10 => VBool true
    | _ => VStr "Old value must be 10."
    end).

(** One cell holding 10 with no pipeline; two such cells; a cell with a
    parse stage and three validators; a cell with the truthy validator. *)
Definition cell10 : World := empty_world [new_Signal (VNum 10) [] []].

Definition two_cells : World :=
  empty_world [new_Signal (VNum 10) [] []; new_Signal (VNum 20) [] []].

Definition checked_cell : World :=
  empty_world [new_Signal (VNum 10) [non_negative; increasing; below_hundred]
                 [number_stage; total_stage successor_stage]].

Definition truthy_cell : World :=
  empty_world [new_Signal (VNum 10) [truthy_validator] []].

(** A cell whose first validator throws and whose second one counts its
    calls; a cell whose first validator writes the cell and whose second
    one looks at the old value. *)
Definition throwing_validator_cell : World :=
  empty_world [new_Signal (VNum 10) [throwing_validator; counting_validator] []].

Definition zeroing_validator_cell : World :=
  empty_world [new_Signal (VNum 10) [zeroing_validator; old_is_ten] []].

(** [() => { throw "boom" }] *)
Definition thrower : Prog := Throw boom.

(** [() => { cell0.read(); counter++ }] *)
Definition counting : Prog := Read 0 (fun _ => Emit 1 Done).

(** [() => { cell1.read() }], to be run as an effect of cell 0. *)
Definition reads_other : Prog := Read 1 (fun _ => Done).

(** [() => { if (cell0.read() !== 0) cell0.write(0) }] *)
Definition resetter : Prog :=
  Read 0 (fun v => match v with
                   | VNum Z0 => Done
                   | _ => Write 0 (VNum 0) Done
                   end).

(** [() => { if (cell0.read() !== 0) { cell0.write(0); throw "boom" } }] *)
Definition reset_then_throw : Prog :=
  Read 0 (fun v => match v with
                   | VNum Z0 => Done
                   | _ => Write 0 (VNum 0) (Throw boom)
                   end).

(** Cell 0 with a throwing subscription registered before a counting one. *)
Definition thrower_then_counter : World :=
  subscribe 0 (Emit 1 Done) (subscribe 0 thrower cell10).

(** The same on a cell constructed with the value 5. *)
Definition thrower_then_counter5 : World :=
  subscribe 0 (Emit 1 Done)
    (subscribe 0 thrower (empty_world [new_Signal (VNum 5) [] []])).

(** An effect object for [counting] allocated on cell 0, not yet run. *)
Definition effect_allocated : World := alloc (Effect 0 counting) cell10.

(** Scenario B after [createEffect] and a first [write(5)]: the effect has
    run twice. *)
Definition counted_twice : World :=
  {| cells := [{| value := VNum 5; validators := []; parsers := [];
                  subscriptions := [Some 0]; context := [] |}];
     heap := [Effect 0 counting]; console := []; journal := [1; 1];
     trace := [0; 0] |}.

(** Cell 0 with the resetting closure subscribed; cell 0 with the closure
    that resets and then throws subscribed before a second observer. *)
Definition resetter_subscribed : World := subscribe 0 resetter cell10.

Definition reset_then_throw_subscribed : World :=
  subscribe 0 (Emit 2 Done) (subscribe 0 reset_then_throw cell10).

(** Cell 0 with one plain subscription, whose closure counts its calls, and
    the same after its unsubscribe function has been called. *)
Definition counter_subscribed : World := subscribe 0 (Emit 1 Done) cell10.


(** ** Where observers live *)

(** The cell on which an observer was made. *)
Definition home (ob : Observer) : CellId :=
  match ob with
  | Effect c _ => c
  | Subscription c _ => c
  end.

(** Every live entry of a cell's subscriptions is an observer made on that
    cell, and every frame of its context stack is one of its own effects. *)
Definition homed (w : World) : Prop :=
  forall c s, cells w !! c = Some s ->
    (forall o, Some o ∈ subscriptions s ->
       exists ob, heap w !! o = Some ob /\ home ob = c) /\
    (forall o, o ∈ context s -> exists fn, heap w !! o = Some (Effect c fn)).

(** No observer is a member of a subscription set twice. *)
Definition distinct (w : World) : Prop :=
  forall c s, cells w !! c = Some s -> NoDup (members (subscriptions s)).

(** Cells as their constructor leaves them: nothing subscribed, nothing on
    the context stack. *)
Definition pristine (s : Signal) : bool :=
  match subscriptions s, context s with
  | [], [] => true
  | _, _ => false
  end.

(** [() => { throw "boom" }] made an effect of cell 0, and the world it
    leaves behind. *)
Definition failed_effect : World :=
  {| cells := [{| value := VNum 10; validators := []; parsers := [];
                  subscriptions := []; context := [0] |}];
     heap := [Effect 0 thrower]; console := []; journal := [];
     trace := [0] |}.

(** [cell0.createEffect(() => cell1.read()); cell1.subscribe(counting)] *)
Definition effect_and_subscription : Prog :=
  CreateEffect 0 reads_other (fun _ => Subscribe 1 counting (fun _ => Done)).

(** [const e = cell0.createEffect(counting); e.execute(); cell0.write(5)] *)
Definition effect_run_thrice : Prog :=
  CreateEffect 0 counting (fun o => Execute o (Write 0 (VNum 5) Done)).


(** * The advice toolkit of src/AOP/AOPToolkit.js

    The toolkit wraps arbitrary functions, so a function is modelled by what
    a call of it does: given the receiver [this] and the list of arguments,
    it takes the state in which it is called to the state it leaves, and
    either returns a result or throws.  [None] is a call that does not
    come back. *)

Module AOPToolkit.

Inductive Completion (State : Type) : Type :=
| Returned (result : val) (st : State)
| Raised (error : val) (st : State).

Arguments Returned {State} result st.
Arguments Raised {State} error st.

Definition JsFunction (State : Type) : Type :=
  val -> list val -> State -> option (Completion State).

(** The advice of [around] is called with the target function and the
    array of arguments. *)
Definition AroundAdvice (State : Type) : Type :=
  val -> JsFunction State -> list val -> State -> option (Completion State).

Section Wrappers.
Context {State : Type}.

(** [advice.apply(this, args); return targetFunction.apply(this, args);] *)
Definition before (targetFunction advice : JsFunction State) : JsFunction State :=
  fun this args st =>
    match advice this args st with
    | Some (Returned _ st1) => targetFunction this args st1
    | other => other
    end.

(** [const result = targetFunction.apply(this, args);
     advice.apply(this, args); return result;] *)
Definition after (targetFunction advice : JsFunction State) : JsFunction State :=
  fun this args st =>
    match targetFunction this args st with
    | Some (Returned result st1) =>
        match advice this args st1 with
        | Some (Returned _ st2) => Some (Returned result st2)
        | other => other
        end
    | other => other
    end.

(** [return advice.call(this, targetFunction, args);] *)
Definition around (targetFunction : JsFunction State)
    (advice : AroundAdvice State) : JsFunction State :=
  fun this args st => advice this targetFunction args st.

(** [const result = targetFunction.apply(this, args);
     advice.apply(this, [result, ...args]); return result;] *)
Definition afterReturning (targetFunction advice : JsFunction State) :
    JsFunction State :=
  fun this args st =>
    match targetFunction this args st with
    | Some (Returned result st1) =>
        match advice this (result :: args) st1 with
        | Some (Returned _ st2) => Some (Returned result st2)
        | other => other
        end
    | other => other
    end.

(** [try { return targetFunction.apply(this, args); }
     catch (error) { advice.apply(this, [error, ...args]); throw error; }] *)
Definition afterThrowing (targetFunction advice : JsFunction State) :
    JsFunction State :=
  fun this args st =>
    match targetFunction this args st with
    | Some (Raised error st1) =>
        match advice this (error :: args) st1 with
        | Some (Returned _ st2) => Some (Raised error st2)
        | other => other
        end
    | other => other
    end.

End Wrappers.

End AOPToolkit.

(** * Parse stages of src/Parsing/Parsers.js

    A string is the sequence of its code units; the strings at hand hold
    code units below 256 only. *)

(** The code units below 256 that [trim] removes: the white space and line
    terminator characters TAB, LF, VT, FF, CR, SP and NBSP. *)
Definition is_white_space (a : Ascii.ascii) : bool :=
  let n := Ascii.nat_of_ascii a in
  (9 <=? n) && (n <=? 13) || (n =? 32) || (n =? 160).

Fixpoint drop_white_space (l : list Ascii.ascii) : list Ascii.ascii :=
  match l with
  | a :: rest => if is_white_space a then drop_white_space rest else l
  | [] => []
  end.

(** [String.prototype.trim], on the code units and on the string: the
    leading white space is dropped, and then the trailing one. *)
Definition trim_units (l : list Ascii.ascii) : list Ascii.ascii :=
  rev (drop_white_space (rev (drop_white_space l))).

Definition trim (s : string) : string :=
  string_of_list_ascii (trim_units (list_ascii_of_string s)).

(** The lower-case mapping of the code units below 256: the letters A to Z
    and the accented capitals from U+00C0 to U+00DE, the multiplication sign
    U+00D7 excepted, are moved up by 32. *)
Definition lower_case_unit (a : Ascii.ascii) : Ascii.ascii :=
  let n := Ascii.nat_of_ascii a in
  if (65 <=? n) && (n <=? 90) || (192 <=? n) && (n <=? 222) && negb (n =? 215)
  then Ascii.ascii_of_nat (n + 32)
  else a.

(** [String.prototype.toLowerCase] *)
Definition toLowerCase (s : string) : string :=
  string_of_list_ascii (lower_case_unit <$> list_ascii_of_string s).

(** [trimParser] *)
Definition trimParser : Parser :=
  fun input =>
    match input with
    | VStr s => Parsed (VStr (trim s))
    | _ => ParseError "Input must be a string"
    end.

(** [booleanParser] *)
Definition booleanParser : Parser :=
  fun input =>
    match input with
    | VStr s =>
        let normalized := toLowerCase s in
        if (normalized =? "true")%string then Parsed (VBool true)
        else if (normalized =? "false")%string then Parsed (VBool false)
        else ParseError "Invalid boolean"
    | _ => ParseError "Invalid input type for boolean parsing"
    end.

(** A string begins, or ends, with a code unit that [trim] removes. *)
Definition starts_white (l : list Ascii.ascii) : bool :=
  match l with
  | a :: _ => is_white_space a
  | [] => false
  end.

Definition padded (s : string) : bool :=
  starts_white (list_ascii_of_string s)
  || starts_white (rev (list_ascii_of_string s)).

(** The text of a boolean. *)
Definition bool_text (b : bool) : string :=
  if b then "true"%string else "false"%string.

(** [new Signal(false, [], [trimParser, booleanParser])] *)
Definition boolean_cell : World :=
  empty_world [new_Signal (VBool false) [] [trimParser; booleanParser]].

(** Cell 0 with two subscriptions: the closure of the first one calls the
    unsubscribe function of the second one, whose closure counts its
    calls. *)
Definition unsubscribing_first : World :=
  subscribe 0 (Emit 1 Done) (subscribe 0 (Unsubscribe 1 Done) cell10).

(** * Properties *)

(** ** The subscription set *)

Lemma slot_holds_true o e : slot_holds o e = true <-> e = Some o.
Proof.
  destruct e as [o'|]; simpl; [|by split].
  rewrite Nat.eqb_eq. split; intros H; [by subst | by injection H].
Qed.

Lemma set_has_spec o (es : SetData) : set_has o es = true <-> Some o ∈ es.
Proof.
  unfold set_has. rewrite existsb_exists. split.
  - intros (e & Hin & He). apply slot_holds_true in He. subst.
    by apply list_elem_of_In.
  - intros Hin. exists (Some o). split; [by apply list_elem_of_In|].
    by apply slot_holds_true.
Qed.

Lemma set_has_false o (es : SetData) : set_has o es = false <-> Some o ∉ es.
Proof.
  rewrite <- set_has_spec. destruct (set_has o es); split; intros H; done.
Qed.

Lemma set_add_elem o o' (es : SetData) :
  Some o' ∈ set_add o es <-> Some o' ∈ es \/ o' = o.
Proof.
  unfold set_add. destruct (set_has o es) eqn:Hhas.
  - apply set_has_spec in Hhas. split; [by left|].
    intros [H| ->]; done.
  - rewrite elem_of_app, list_elem_of_singleton. split.
    + intros [H|H]; [by left|right; by injection H].
    + intros [H| ->]; [by left|by right].
Qed.

Lemma set_add_lookup_old o (es : SetData) i e :
  es !! i = Some e -> set_add o es !! i = Some e.
Proof.
  intros H. unfold set_add. destruct (set_has o es); [done|].
  by apply lookup_app_l_Some.
Qed.

Lemma set_add_idem o (es : SetData) : set_add o (set_add o es) = set_add o es.
Proof.
  assert (Hin : Some o ∈ set_add o es) by (apply set_add_elem; by right).
  apply set_has_spec in Hin. unfold set_add at 1. by rewrite Hin.
Qed.

Lemma set_add_present o (es : SetData) : Some o ∈ es -> set_add o es = es.
Proof. intros H. apply set_has_spec in H. unfold set_add. by rewrite H. Qed.

Lemma set_add_absent o (es : SetData) :
  Some o ∉ es -> set_add o es = es ++ [Some o].
Proof. intros H. apply set_has_false in H. unfold set_add. by rewrite H. Qed.

Lemma set_delete_lookup o (es : SetData) i :
  set_delete o es !! i = (fun e => if slot_holds o e then None else e) <$> es !! i.
Proof. unfold set_delete. apply list_lookup_fmap. Qed.

Lemma set_delete_elem o o' (es : SetData) :
  Some o' ∈ set_delete o es <-> Some o' ∈ es /\ o' <> o.
Proof.
  unfold set_delete. rewrite list_elem_of_fmap. split.
  - intros (e & He & Hin). destruct (slot_holds o e) eqn:Hs; [done|].
    subst e. split; [done|]. intros ->.
    assert (slot_holds o (Some o) = true) by (by apply slot_holds_true).
    congruence.
  - intros [Hin Hne]. exists (Some o'). split; [|done].
    destruct (slot_holds o (Some o')) eqn:Hs; [|done].
    apply slot_holds_true in Hs. congruence.
Qed.

Lemma set_delete_absent o (es : SetData) : Some o ∉ es -> set_delete o es = es.
Proof.
  intros Hnot. unfold set_delete.
  induction es as [|e es IH]; [done|].
  rewrite not_elem_of_cons in Hnot. destruct Hnot as [Hne Hnot].
  rewrite fmap_cons, IH by done. f_equal.
  destruct (slot_holds o e) eqn:Hs; [|done].
  apply slot_holds_true in Hs. congruence.
Qed.


(** ** Cells of a world *)

Lemma cells_alter_cell f c w d :
  cells (alter_cell f c w) !! d =
  if decide (c = d) then f <$> cells w !! d else cells w !! d.
Proof.
  unfold alter_cell, with_cells. simpl.
  rewrite list_lookup_alter. destruct (decide (c = d)); [by subst|done].
Qed.

Lemma cells_alter_cell_eq f c w s :
  cells w !! c = Some s -> cells (alter_cell f c w) !! c = Some (f s).
Proof. intros H. rewrite cells_alter_cell, decide_True by done. by rewrite H. Qed.

Lemma cells_alter_cell_ne f c w d :
  c <> d -> cells (alter_cell f c w) !! d = cells w !! d.
Proof. intros H. by rewrite cells_alter_cell, decide_False. Qed.

(** ** The pipeline of [write] *)

Lemma validation_errors_nil rs :
  validation_errors rs = [] <-> forall r, r ∈ rs -> r = VBool true.
Proof.
  unfold validation_errors. induction rs as [|r rs IH]; simpl.
  - split; [|done]. intros _ r Hr. by apply elem_of_nil in Hr.
  - destruct (not_strictly_true r) eqn:Hr.
    + split; [done|]. intros H. specialize (H r (list_elem_of_here _ _)).
      rewrite H in Hr. discriminate.
    + rewrite IH. split.
      * intros H r' Hr'. apply elem_of_cons in Hr' as [->|Hr']; [|by apply H].
        destruct r as [| |[|]| | |]; simpl in Hr; congruence.
      * intros H r' Hr'. apply H. by right.
Qed.

Lemma validation_errors_elem rs r :
  r ∈ validation_errors rs <-> r ∈ rs /\ r <> VBool true.
Proof.
  unfold validation_errors. rewrite list_elem_of_In, filter_In, <- list_elem_of_In.
  split; intros [Hin Hr]; (split; [done|]).
  - by intros ->.
  - destruct r as [| |[|]| | |]; done.
Qed.

Lemma validation_errors_replicate n :
  validation_errors (replicate n (VBool true)) = [].
Proof.
  apply validation_errors_nil. intros r Hr.
  by apply elem_of_replicate in Hr as [-> _].
Qed.

(** The map over validators that return at once: each is called with the
    value of the cell, and the world is left alone. *)
Lemma validationResults_answers call c w s v rs :
  cells w !! c = Some s -> answers s v rs ->
  validationResults call c (validators s) v w = Some (Returns rs w).
Proof.
  intros Hc. unfold answers.
  induction 1 as [|validator r vs rs Hr _ IH]; simpl; [done|].
  rewrite Hc, Hr. simpl. by rewrite IH.
Qed.

Lemma accepts_answers s v :
  accepts s v -> answers s v (replicate (length (validators s)) (VBool true)).
Proof.
  unfold accepts, answers.
  induction 1 as [|validator vs Hr _ IH]; simpl; by constructor.
Qed.

Lemma answers_accepts s v rs :
  answers s v rs -> validation_errors rs = [] -> accepts s v.
Proof.
  unfold accepts, answers. intros H Hrs.
  assert (Hall : forall r, r ∈ rs -> r = VBool true)
    by (by apply validation_errors_nil).
  clear Hrs. induction H as [|validator r vs rs Hr _ IH]; constructor.
  - rewrite Hr. f_equal. apply Hall. apply list_elem_of_here.
  - apply IH. intros r' Hr'. apply Hall. by right.
Qed.

Lemma answers_length s v rs : answers s v rs -> length rs = length (validators s).
Proof. intros H. symmetry. by eapply Forall2_length. Qed.

Lemma answers_lookup s v rs i validator :
  answers s v rs -> validators s !! i = Some validator ->
  exists r, rs !! i = Some r /\ validator (value s) v = Answer r.
Proof.
  intros H Hi. destruct (Forall2_lookup_l _ _ _ _ _ H Hi) as (r & Hr & Heq).
  by exists r.
Qed.

Lemma write_unfold fuel c raw w :
  write (S fuel) c raw w =
  match cells w !! c with
  | None => Some (Thrown TypeError w)
  | Some s =>
      match parse_all (parsers s) raw with
      | ParseError message =>
          Some (Normal (console_error [CVal (VStr message)] w))
      | Parsed v =>
          match validationResults (run fuel) c (validators s) v w with
          | Some (Returns results w1) =>
              if 0 <? length (validation_errors results) then
                Some (Normal (console_error
                  [CVal (VStr "Validation errors:");
                   CArr (validation_errors results)] w1))
              else notify fuel c 0 (commit c v w1)
          | Some (Throws e w1) => Some (Thrown e w1)
          | None => None
          end
      end
  end.
Proof. done. Qed.

Lemma write_parse_error fuel c raw w s message :
  cells w !! c = Some s ->
  parse_all (parsers s) raw = ParseError message ->
  write (S fuel) c raw w = Some (Normal (console_error [CVal (VStr message)] w)).
Proof. intros Hc Hp. by rewrite write_unfold, Hc, Hp. Qed.

(** The three ways on after the parse stages: a validator threw, the
    validators returned and something was not [true], and the validators
    all returned [true]. *)
Lemma write_validator_throws fuel c raw w s v e w1 :
  cells w !! c = Some s ->
  parse_all (parsers s) raw = Parsed v ->
  validationResults (run fuel) c (validators s) v w = Some (Throws e w1) ->
  write (S fuel) c raw w = Some (Thrown e w1).
Proof. intros Hc Hp Hv. by rewrite write_unfold, Hc, Hp, Hv. Qed.

Lemma write_validated_errors fuel c raw w s v rs w1 :
  cells w !! c = Some s ->
  parse_all (parsers s) raw = Parsed v ->
  validationResults (run fuel) c (validators s) v w = Some (Returns rs w1) ->
  validation_errors rs <> [] ->
  write (S fuel) c raw w =
  Some (Normal (console_error
    [CVal (VStr "Validation errors:"); CArr (validation_errors rs)] w1)).
Proof.
  intros Hc Hp Hv He. rewrite write_unfold, Hc, Hp, Hv.
  destruct (validation_errors rs); [done|]. done.
Qed.

Lemma write_validated fuel c raw w s v rs w1 :
  cells w !! c = Some s ->
  parse_all (parsers s) raw = Parsed v ->
  validationResults (run fuel) c (validators s) v w = Some (Returns rs w1) ->
  validation_errors rs = [] ->
  write (S fuel) c raw w = notify fuel c 0 (commit c v w1).
Proof. intros Hc Hp Hv He. by rewrite write_unfold, Hc, Hp, Hv, He. Qed.

Lemma write_validation_errors fuel c raw w s v rs :
  cells w !! c = Some s ->
  parse_all (parsers s) raw = Parsed v ->
  answers s v rs ->
  validation_errors rs <> [] ->
  write (S fuel) c raw w =
  Some (Normal (console_error
    [CVal (VStr "Validation errors:"); CArr (validation_errors rs)] w)).
Proof.
  intros Hc Hp Ha He. eapply write_validated_errors; eauto.
  by apply validationResults_answers.
Qed.

Lemma write_accepted fuel c raw w s v :
  cells w !! c = Some s ->
  parse_all (parsers s) raw = Parsed v ->
  accepts s v ->
  write (S fuel) c raw w = notify fuel c 0 (commit c v w).
Proof.
  intros Hc Hp Ha. eapply write_validated; eauto.
  - apply validationResults_answers; [done|]. by apply accepts_answers.
  - apply validation_errors_replicate.
Qed.


(** ** An invariant rule for client code

    A property of worlds that every elementary step of the cells keeps is
    kept by every run of a program, of a method and of an observer.
    [frozen] names cells the programs at hand never write. *)

Lemma heap_avoids_alloc frozen ob w :
  heap_avoids frozen w -> avoids frozen (body ob) ->
  heap_avoids frozen (alloc ob w).
Proof.
  intros Hw Hob o ob' Hl. simpl in Hl.
  apply lookup_app_Some in Hl as [Hl|[_ Hl]]; [by eapply Hw|].
  apply list_lookup_singleton_Some in Hl as [_ <-]. done.
Qed.


Lemma read_keeps_validators s : validators (read s).2 = validators s.
Proof. unfold read. by destruct (last (context s)). Qed.

Lemma validators_avoid_alter_cell frozen f c w :
  (forall s, cells w !! c = Some s -> validators (f s) = validators s) ->
  validators_avoid frozen w -> validators_avoid frozen (alter_cell f c w).
Proof.
  intros Hf Hw d s validator o n Hd Hin. rewrite cells_alter_cell in Hd.
  destruct (decide (c = d)) as [<-|]; [|by eapply Hw].
  destruct (cells w !! c) as [s0|] eqn:Hc; [|done]. simpl in Hd.
  injection Hd as <-. rewrite Hf in Hin by done. by eapply Hw.
Qed.

Lemma code_avoids_alter_cell frozen f c w :
  (forall s, cells w !! c = Some s -> validators (f s) = validators s) ->
  code_avoids frozen w -> code_avoids frozen (alter_cell f c w).
Proof.
  intros Hf [Hh Hv]. split; [done|]. by apply validators_avoid_alter_cell.
Qed.

Lemma code_avoids_read frozen c s w :
  cells w !! c = Some s -> code_avoids frozen w ->
  code_avoids frozen (alter_cell (fun _ => (read s).2) c w).
Proof.
  intros Hc. apply code_avoids_alter_cell. intros s0 Hs0.
  assert (s0 = s) as -> by congruence. apply read_keeps_validators.
Qed.

Lemma code_avoids_alloc frozen ob w :
  code_avoids frozen w -> avoids frozen (body ob) ->
  code_avoids frozen (alloc ob w).
Proof. intros [Hh Hv] Hob. split; [by apply heap_avoids_alloc|done]. Qed.

Lemma code_avoids_unsubscribe frozen h w :
  code_avoids frozen w -> code_avoids frozen (unsubscribe h w).
Proof.
  intros H. unfold unsubscribe. destruct (heap w !! h) as [[c fn|c fn]|]; try done.
  by apply code_avoids_alter_cell.
Qed.

Section Invariant.
Variable frozen : nat -> Prop.
Variable P : World -> Prop.
Hypothesis P_emit : forall x w, P w -> P (emit x w).
Hypothesis P_read : forall c s w,
  P w -> cells w !! c = Some s -> P (alter_cell (fun _ => (read s).2) c w).
Hypothesis P_console : forall line w, P w -> P (console_error line w).
Hypothesis P_commit : forall c v w, ~ frozen c -> P w -> P (commit c v w).
Hypothesis P_mark : forall o w, P w -> invocable o w -> P (mark o w).
Hypothesis P_push : forall c o fn w,
  P w -> heap w !! o = Some (Effect c fn) -> P (push_context c o w).
Hypothesis P_pop : forall c w, P w -> P (pop_context c w).
Hypothesis P_alloc : forall c fn w, P w -> P (alloc (Effect c fn) w).
Hypothesis P_subscribe : forall c fn w,
  P w -> is_Some (cells w !! c) -> P (subscribe c fn w).
Hypothesis P_unsubscribe : forall h c fn w,
  P w -> heap w !! h = Some (Subscription c fn) -> P (unsubscribe h w).

Local Notation "'Inv' w" := (P w /\ code_avoids frozen w) (at level 10, w at level 9, only parsing).

(** What holds of the statements a validator runs holds of the validator,
    and of the map over the validators. *)
Lemma check_invariant call :
  (forall p w out, avoids frozen p -> Inv w ->
     call p w = Some out -> Inv (world_of out)) ->
  forall ch w res, check_avoids frozen ch -> Inv w ->
    check call ch w = Some res -> Inv (result_world res).
Proof.
  intros Hcall. induction ch as [r|p k IH|c k IH]; intros w res Hb Hw Hr;
    simpl in Hr, Hb.
  - by simplify_eq.
  - destruct Hb as [Hp Hk].
    destruct (call p w) as [[w'|e w']|] eqn:Hc; [| |done].
    + eapply IH; [exact Hk| |exact Hr]. exact (Hcall _ _ _ Hp Hw Hc).
    + simplify_eq. exact (Hcall _ _ _ Hp Hw Hc).
  - destruct (cells w !! c) as [s|] eqn:Hc; [|by simplify_eq].
    destruct (read s) as [v s'] eqn:Hrd.
    eapply IH; [apply Hb| |exact Hr]. destruct Hw as [HP Hcode]. split.
    + replace s' with (read s).2 by (by rewrite Hrd). by apply P_read.
    + replace s' with (read s).2 by (by rewrite Hrd).
      by apply code_avoids_read.
Qed.

Lemma validationResults_invariant call c v :
  (forall p w out, avoids frozen p -> Inv w ->
     call p w = Some out -> Inv (world_of out)) ->
  forall vs w res,
    (forall validator oldState newState, validator ∈ vs ->
       check_avoids frozen (validator oldState newState)) ->
    Inv w -> validationResults call c vs v w = Some res ->
    Inv (result_world res).
Proof.
  intros Hcall. induction vs as [|validator vs IH]; intros w res Hvs Hw Hr;
    simpl in Hr.
  - by simplify_eq.
  - destruct (cells w !! c) as [s|] eqn:Hc; [|by simplify_eq].
    destruct (check call (validator (value s) v) w) as [[r w1|e w1]|] eqn:Hch;
      [| |done].
    + assert (Hw1 : Inv w1).
      { eapply (check_invariant call Hcall _ w (Returns r w1)); [|done|done].
        apply Hvs. apply list_elem_of_here. }
      destruct (validationResults call c vs v w1) as [[rs w2|e w2]|] eqn:Hrest;
        [| |done]; simplify_eq.
      * eapply (IH w1 (Returns rs w2)); [|done|done].
        intros f o n Hf. apply Hvs. by right.
      * eapply (IH w1 (Throws e w2)); [|done|done].
        intros f o n Hf. apply Hvs. by right.
    + simplify_eq.
      eapply (check_invariant call Hcall _ w (Throws e w1)); [|done|done].
      apply Hvs. apply list_elem_of_here.
Qed.

Lemma invariant_all fuel :
  (forall p w out, avoids frozen p -> Inv w ->
     run fuel p w = Some out -> Inv (world_of out)) /\
  (forall c v w out, ~ frozen c -> Inv w ->
     write fuel c v w = Some out -> Inv (world_of out)) /\
  (forall c i w out, Inv w ->
     notify fuel c i w = Some out -> Inv (world_of out)) /\
  (forall o w out, invocable o w -> Inv w ->
     execute fuel o w = Some out -> Inv (world_of out)) /\
  (forall c fn w out, avoids frozen fn -> Inv w ->
     createEffect fuel c fn w = Some out -> Inv (world_of out)).
Proof.
  induction fuel as [|fuel (IHrun & IHwrite & IHnotify & IHexecute & IHcreate)].
  { repeat split; intros; discriminate. }
  assert (Hrun : forall p w out, avoids frozen p -> Inv w ->
     run (S fuel) p w = Some out -> Inv (world_of out)).
  { intros p w out Hp [HP Hh] Hrun. destruct p; simpl in Hrun, Hp.
    - by simplify_eq.
    - by simplify_eq.
    - eapply IHrun; [exact Hp| |exact Hrun]. split; [by apply P_emit|done].
    - destruct (cells w !! c) as [s|] eqn:Hc; [|by simplify_eq].
      destruct (read s) as [v s'] eqn:Hr.
      replace s' with (read s).2 in Hrun by (by rewrite Hr).
      eapply IHrun; [apply Hp| |exact Hrun]. split; [by apply P_read|].
      by apply code_avoids_read.
    - destruct Hp as [Hc Hk].
      destruct (write fuel c newValue w) as [[w'|e w']|] eqn:Hw; [| |done].
      + eapply IHrun; [exact Hk| |exact Hrun].
        by apply (IHwrite _ _ _ _ Hc (conj HP Hh) Hw).
      + simplify_eq. by apply (IHwrite _ _ _ _ Hc (conj HP Hh) Hw).
    - destruct Hp as [Hfn Hk].
      destruct (cells w !! c) as [s|] eqn:Hc; [|by simplify_eq].
      destruct (createEffect fuel c p w) as [[w'|e w']|] eqn:Hw; [| |done].
      + eapply IHrun; [apply Hk| |exact Hrun].
        by apply (IHcreate _ _ _ _ Hfn (conj HP Hh) Hw).
      + simplify_eq. by apply (IHcreate _ _ _ _ Hfn (conj HP Hh) Hw).
    - destruct Hp as [Hfn Hk].
      destruct (cells w !! c) as [s|] eqn:Hc; [|by simplify_eq].
      eapply IHrun; [apply Hk| |exact Hrun]. split; [by apply P_subscribe|].
      unfold subscribe. apply code_avoids_alter_cell; [done|].
      by apply (code_avoids_alloc frozen (Subscription c p) w).
    - destruct (heap w !! h) as [[c fn|c fn]|] eqn:Hl; try by simplify_eq.
      eapply IHrun; [exact Hp| |exact Hrun]. split; [by eapply P_unsubscribe|].
      by apply code_avoids_unsubscribe.
    - destruct (heap w !! o) as [[c fn|c fn]|] eqn:Hl; try by simplify_eq.
      assert (Hinv : invocable o w) by (right; eauto).
      destruct (execute fuel o w) as [[w'|e w']|] eqn:Hw; [| |done].
      + eapply IHrun; [exact Hp| |exact Hrun].
        by apply (IHexecute _ _ _ Hinv (conj HP Hh) Hw).
      + simplify_eq. by apply (IHexecute _ _ _ Hinv (conj HP Hh) Hw).
    - destruct Hp as (Hb & Hhandler & Hk).
      destruct (run fuel p1 w) as [[w'|e w']|] eqn:Hw; [| |done].
      + eapply IHrun; [exact Hk| |exact Hrun].
        by apply (IHrun _ _ _ Hb (conj HP Hh) Hw).
      + pose proof (IHrun _ _ _ Hb (conj HP Hh) Hw) as Hinv'. simpl in Hinv'.
        destruct (run fuel (handler e) w') as [[w''|e' w'']|] eqn:Hw'; [| |done].
        * eapply IHrun; [exact Hk| |exact Hrun].
          by apply (IHrun _ _ _ (Hhandler e) Hinv' Hw').
        * simplify_eq. by apply (IHrun _ _ _ (Hhandler e) Hinv' Hw'). }
  assert (Hexecute : forall o w out, invocable o w -> Inv w ->
     execute (S fuel) o w = Some out -> Inv (world_of out)).
  { intros o w out Hinv [HP Hh] Hex. simpl in Hex.
    destruct (heap w !! o) as [[c fn|c fn]|] eqn:Hl; [| |by simplify_eq].
    - assert (Inv (push_context c o (mark o w))) as Hstart.
      { split; [apply (P_push c o fn); [by apply P_mark|done]|].
        unfold push_context. apply code_avoids_alter_cell; [done|].
        exact Hh. }
      assert (Hfn : avoids frozen fn) by apply (proj1 Hh _ _ Hl).
      destruct (run fuel fn (push_context c o (mark o w))) as [[w'|e w']|] eqn:Hw;
        [| |done]; simplify_eq; pose proof (IHrun _ _ _ Hfn Hstart Hw) as [HP' Hh'].
      + split; [by apply P_pop|]. unfold pop_context.
        by apply code_avoids_alter_cell.
      + done.
    - eapply IHrun; [apply (proj1 Hh _ _ Hl)| |exact Hex].
      split; [by apply P_mark|exact Hh]. }
  assert (Hwrite : forall c v w out, ~ frozen c -> Inv w ->
     write (S fuel) c v w = Some out -> Inv (world_of out)).
  { intros c v w out Hc [HP Hh] Hw. simpl in Hw.
    destruct (cells w !! c) as [s|] eqn:Hs; [|by simplify_eq].
    destruct (parse_all (parsers s) v) as [v'|message]; [|simplify_eq; eauto].
    destruct (validationResults (run fuel) c (validators s) v' w)
      as [[rs w1|e w1]|] eqn:Hval; [| |done].
    + assert (Hw1 : Inv w1).
      { eapply (validationResults_invariant (run fuel) c v' IHrun _ w
                  (Returns rs w1)); [|done|exact Hval].
        intros validator o n Hin. by eapply (proj2 Hh). }
      destruct Hw1 as [HP1 Hh1].
      destruct (0 <? length (validation_errors rs)); [simplify_eq; eauto|].
      eapply IHnotify; [|exact Hw]. split; [by apply P_commit|].
      unfold commit. by apply code_avoids_alter_cell.
    + simplify_eq.
      eapply (validationResults_invariant (run fuel) c v' IHrun _ w
                (Throws e w1)); [|done|exact Hval].
      intros validator o n Hin. by eapply (proj2 Hh). }
  assert (Hnotify : forall c i w out, Inv w ->
     notify (S fuel) c i w = Some out -> Inv (world_of out)).
  { intros c i w out [HP Hh] Hn. simpl in Hn.
    destruct (cells w !! c) as [s|] eqn:Hs; [|by simplify_eq].
    destruct (subscriptions s !! i) as [[o|]|] eqn:Hi; [| |by simplify_eq].
    - assert (Hinv : invocable o w).
      { left. exists c, s. split; [done|]. by eapply list_elem_of_lookup_2. }
      destruct (execute fuel o w) as [[w'|e w']|] eqn:Hw; [| |done].
      + eapply IHnotify; [|exact Hn].
        by apply (IHexecute _ _ _ Hinv (conj HP Hh) Hw).
      + simplify_eq. by apply (IHexecute _ _ _ Hinv (conj HP Hh) Hw).
    - by eapply IHnotify; [|exact Hn]. }
  assert (Hcreate : forall c fn w out, avoids frozen fn -> Inv w ->
     createEffect (S fuel) c fn w = Some out -> Inv (world_of out)).
  { intros c fn w out Hfn [HP Hh] Hc. simpl in Hc.
    eapply IHexecute; [| |exact Hc].
    - right. exists c, fn. simpl. unfold fresh.
      by rewrite lookup_app_r, Nat.sub_diag by lia.
    - split; [by apply P_alloc|]. by apply code_avoids_alloc. }
  exact (conj Hrun (conj Hwrite (conj Hnotify (conj Hexecute Hcreate)))).
Qed.

End Invariant.

(** ** Worlds only evolve *)

Lemma entry_evolves_refl w e : entry_evolves w e e.
Proof. by left. Qed.

Lemma evolves_refl w : evolves w w.
Proof.
  split; [done|done|]. intros c s Hc. exists s. split; [done|].
  intros i e Hi. exists e. split; [done|apply entry_evolves_refl].
Qed.

Lemma evolves_trans w1 w2 w3 : evolves w1 w2 -> evolves w2 w3 -> evolves w1 w3.
Proof.
  intros [Hh12 Ht12 Hc12] [Hh23 Ht23 Hc23]. split.
  - by etrans.
  - by etrans.
  - intros c s1 Hs1. destruct (Hc12 c s1 Hs1) as (s2 & Hs2 & He12).
    destruct (Hc23 c s2 Hs2) as (s3 & Hs3 & He23).
    exists s3. split; [done|]. intros i e Hi.
    destruct (He12 i e Hi) as (e2 & Hi2 & Hev2).
    destruct (He23 i e2 Hi2) as (e3 & Hi3 & Hev3).
    exists e3. split; [done|].
    destruct Hev2 as [->|(-> & h & c' & fn & -> & Hl)]; [done|].
    right. destruct Hev3 as [->|(-> & h' & ? & ? & ? & _)]; [|done].
    split; [done|]. exists h, c', fn. split; [done|].
    by eapply prefix_lookup_Some.
Qed.

Lemma evolves_same_cells w w' :
  cells w' = cells w -> heap w `prefix_of` heap w' ->
  trace w `prefix_of` trace w' -> evolves w w'.
Proof.
  intros Hc Hh Ht. split; [done|done|]. intros c s Hs. exists s.
  rewrite Hc. split; [done|]. intros i e Hi. exists e. split; [done|by left].
Qed.

Lemma evolves_alter_cell f c w :
  (forall s i e, cells w !! c = Some s -> subscriptions s !! i = Some e ->
     exists e', subscriptions (f s) !! i = Some e' /\
       entry_evolves (alter_cell f c w) e e') ->
  evolves w (alter_cell f c w).
Proof.
  intros Hf. split; [done|done|]. intros d s Hs.
  rewrite cells_alter_cell. destruct (decide (c = d)) as [->|Hne].
  - rewrite Hs. exists (f s). split; [done|]. intros i e Hi. by eapply Hf.
  - exists s. split; [done|]. intros i e Hi. exists e. split; [done|by left].
Qed.

Lemma evolves_emit x w : evolves w (emit x w).
Proof. by apply evolves_same_cells. Qed.

Lemma evolves_console_error line w : evolves w (console_error line w).
Proof. by apply evolves_same_cells. Qed.

Lemma evolves_mark o w : evolves w (mark o w).
Proof. apply evolves_same_cells; [done|done|]. by apply prefix_app_r. Qed.

Lemma evolves_alloc ob w : evolves w (alloc ob w).
Proof. apply evolves_same_cells; [done| |done]. by apply prefix_app_r. Qed.

Lemma evolves_commit c v w : evolves w (commit c v w).
Proof.
  apply evolves_alter_cell. intros s i e _ Hi. exists e. split; [done|by left].
Qed.

Lemma evolves_push_context c o w : evolves w (push_context c o w).
Proof.
  apply evolves_alter_cell. intros s i e _ Hi. exists e. split; [done|by left].
Qed.

Lemma evolves_pop_context c w : evolves w (pop_context c w).
Proof.
  apply evolves_alter_cell. intros s i e _ Hi. exists e. split; [done|by left].
Qed.

Lemma evolves_read c s w :
  cells w !! c = Some s -> evolves w (alter_cell (fun _ => (read s).2) c w).
Proof.
  intros Hc. apply evolves_alter_cell. intros s' i e Hs' Hi.
  assert (s' = s) as -> by congruence.
  exists e. split; [|by left]. unfold read. simpl.
  destruct (last (context s)); [|done]. simpl. by apply set_add_lookup_old.
Qed.

Lemma evolves_subscribe c fn w : evolves w (subscribe c fn w).
Proof.
  unfold subscribe. eapply evolves_trans; [apply (evolves_alloc (Subscription c fn))|].
  apply evolves_alter_cell. intros s i e _ Hi. exists e.
  split; [by apply set_add_lookup_old|by left].
Qed.

Lemma evolves_unsubscribe h c fn w :
  heap w !! h = Some (Subscription c fn) -> evolves w (unsubscribe h w).
Proof.
  intros Hl. unfold unsubscribe. rewrite Hl.
  apply evolves_alter_cell. intros s i e _ Hi. simpl.
  rewrite set_delete_lookup, Hi. simpl.
  destruct (slot_holds h e) eqn:Hs; [|exists e; split; [done|by left]].
  apply slot_holds_true in Hs. subst e. exists None. split; [done|].
  right. split; [done|]. by exists h, c, fn.
Qed.

Lemma avoids_nothing p : avoids (fun _ => False) p.
Proof. induction p; simpl; auto. Qed.

Lemma heap_avoids_nothing w : heap_avoids (fun _ => False) w.
Proof. intros o ob _. apply avoids_nothing. Qed.

Lemma check_avoids_nothing ch : check_avoids (fun _ => False) ch.
Proof. induction ch; simpl; auto using avoids_nothing. Qed.

Lemma code_avoids_nothing w : code_avoids (fun _ => False) w.
Proof.
  split; [apply heap_avoids_nothing|]. intros c s validator o n _ _.
  apply check_avoids_nothing.
Qed.

Lemma evolves_all fuel w0 :
  (forall p w out, evolves w0 w -> run fuel p w = Some out ->
     evolves w0 (world_of out)) /\
  (forall c v w out, evolves w0 w -> write fuel c v w = Some out ->
     evolves w0 (world_of out)) /\
  (forall c i w out, evolves w0 w -> notify fuel c i w = Some out ->
     evolves w0 (world_of out)) /\
  (forall o w out, invocable o w -> evolves w0 w ->
     execute fuel o w = Some out -> evolves w0 (world_of out)) /\
  (forall c fn w out, evolves w0 w -> createEffect fuel c fn w = Some out ->
     evolves w0 (world_of out)).
Proof.
  destruct (invariant_all (fun _ => False) (evolves w0)) with (fuel := fuel)
    as (Hrun & Hwrite & Hnotify & Hexecute & Hcreate).
  - intros x w H. eapply evolves_trans; [exact H|apply evolves_emit].
  - intros c s w H Hc. eapply evolves_trans; [exact H|by apply evolves_read].
  - intros l w H. eapply evolves_trans; [exact H|apply evolves_console_error].
  - intros c v w _ H. eapply evolves_trans; [exact H|apply evolves_commit].
  - intros o w H _. eapply evolves_trans; [exact H|apply evolves_mark].
  - intros c o fn w H _. eapply evolves_trans; [exact H|apply evolves_push_context].
  - intros c w H. eapply evolves_trans; [exact H|apply evolves_pop_context].
  - intros c fn w H. eapply evolves_trans; [exact H|apply evolves_alloc].
  - intros c fn w H _. eapply evolves_trans; [exact H|apply evolves_subscribe].
  - intros h c fn w H Hl. eapply evolves_trans; [exact H|by eapply evolves_unsubscribe].
  - pose proof code_avoids_nothing as Hh. pose proof avoids_nothing as Hp.
    split; [|split; [|split; [|split]]].
    + intros p w out H Hr. exact (proj1 (Hrun p w out (Hp p) (conj H (Hh w)) Hr)).
    + intros c v w out H Hr.
      exact (proj1 (Hwrite c v w out (fun F => F) (conj H (Hh w)) Hr)).
    + intros c i w out H Hr. exact (proj1 (Hnotify c i w out (conj H (Hh w)) Hr)).
    + intros o w out Hi H Hr. exact (proj1 (Hexecute o w out Hi (conj H (Hh w)) Hr)).
    + intros c fn w out H Hr.
      exact (proj1 (Hcreate c fn w out (Hp fn) (conj H (Hh w)) Hr)).
Qed.


(** ** Corollaries of the invariant rule *)

Lemma run_evolves fuel p w out :
  run fuel p w = Some out -> evolves w (world_of out).
Proof.
  destruct (evolves_all fuel w) as (H & _). intros Hr.
  by apply (H p w out (evolves_refl w)).
Qed.

Lemma notify_evolves fuel c i w out :
  notify fuel c i w = Some out -> evolves w (world_of out).
Proof.
  destruct (evolves_all fuel w) as (_ & _ & H & _). intros Hr.
  by apply (H c i w out (evolves_refl w)).
Qed.

Lemma execute_evolves fuel o w out :
  invocable o w -> execute fuel o w = Some out -> evolves w (world_of out).
Proof.
  destruct (evolves_all fuel w) as (_ & _ & _ & H & _). intros Hi Hr.
  by apply (H o w out Hi (evolves_refl w)).
Qed.

(** ** [read] *)

Lemma read_value s : (read s).1 = value s.
Proof. unfold read. by destruct (last (context s)). Qed.

Lemma read_keeps_value s : value (read s).2 = value s.
Proof. unfold read. by destruct (last (context s)). Qed.

Lemma read_keeps_context s : context (read s).2 = context s.
Proof. unfold read. by destruct (last (context s)). Qed.

Lemma read_subscriptions s :
  subscriptions (read s).2 =
  match last (context s) with
  | Some o => set_add o (subscriptions s)
  | None => subscriptions s
  end.
Proof. unfold read. by destruct (last (context s)). Qed.

Lemma read_twice s : (read (read s).2).2 = (read s).2.
Proof.
  unfold read. destruct (last (context s)) as [o|] eqn:Hl; simpl; rewrite Hl; [|done].
  unfold with_subscriptions. simpl. by rewrite set_add_idem.
Qed.

Lemma reads_succ k s : reads (S k) s = reads 1 s.
Proof.
  induction k as [|k IH]; [done|].
  change (reads (S (S k)) s) with ((read (reads (S k) s)).2).
  rewrite IH. apply read_twice.
Qed.

Lemma members_app (es1 es2 : list (option nat)) :
  members (es1 ++ es2) = members es1 ++ members es2.
Proof. unfold members. apply omap_app. Qed.

Lemma elem_of_members o (es : list (option nat)) : o ∈ members es <-> Some o ∈ es.
Proof.
  unfold members. rewrite list_elem_of_omap. split.
  - intros (e & He & Hid). destruct e; simpl in Hid; by simplify_eq.
  - intros H. by exists (Some o).
Qed.

Lemma set_add_NoDup o (es : list (option nat)) :
  NoDup (members es) -> NoDup (members (set_add o es)).
Proof.
  intros Hnd. unfold set_add. destruct (set_has o es) eqn:Hhas; [done|].
  apply set_has_false in Hhas. rewrite members_app. simpl.
  apply NoDup_app. split; [done|]. split; [|apply NoDup_singleton].
  intros x Hx Hx'. apply list_elem_of_singleton in Hx'. subst x.
  by apply elem_of_members in Hx.
Qed.

(** ** The notification loop *)

Lemma executed_since_mono w w1 w' x :
  trace w `prefix_of` trace w1 -> trace w1 `prefix_of` trace w' ->
  x ∈ executed_since w1 w' -> x ∈ executed_since w w'.
Proof.
  intros [k1 H1] [k2 H2]. unfold executed_since. rewrite H2, H1.
  rewrite drop_app_length. rewrite <- app_assoc, drop_app_length.
  intros Hx. apply elem_of_app. by right.
Qed.

Lemma executed_since_marked o w w' :
  trace (mark o w) `prefix_of` trace w' -> o ∈ executed_since w w'.
Proof.
  intros [k Hk]. unfold executed_since. rewrite Hk. simpl.
  rewrite <- app_assoc, drop_app_length. by left.
Qed.

Lemma execute_marks fuel o w out :
  is_Some (heap w !! o) -> execute fuel o w = Some out ->
  trace (mark o w) `prefix_of` trace (world_of out).
Proof.
  intros [ob Hob] Hex. destruct fuel as [|fuel]; [done|]. simpl in Hex.
  rewrite Hob in Hex. destruct ob as [c fn|c fn].
  - destruct (run fuel fn (push_context c o (mark o w))) as [[w1|e w1]|] eqn:Hr;
      [| |done]; simplify_eq; by apply run_evolves, ev_trace in Hr.
  - by apply run_evolves, ev_trace in Hex.
Qed.

Lemma subscribed_invocable o c w : subscribed o c w -> invocable o w.
Proof. intros H. left. by exists c. Qed.

Lemma entry_subscribed c w s i o :
  cells w !! c = Some s -> subscriptions s !! i = Some (Some o) -> subscribed o c w.
Proof. intros Hc Hi. exists s. split; [done|]. by eapply list_elem_of_lookup_2. Qed.

(** An entry that holds an observer at the end held it all along. *)
Lemma evolves_entry_back w w' c s s' i o :
  evolves w w' -> cells w !! c = Some s -> cells w' !! c = Some s' ->
  i < length (subscriptions s) -> subscriptions s' !! i = Some (Some o) ->
  subscriptions s !! i = Some (Some o).
Proof.
  intros Hev Hc Hc' Hlt Hi'.
  destruct (lookup_lt_is_Some_2 _ _ Hlt) as [e He].
  destruct (ev_cells _ _ Hev c s Hc) as (s'' & Hs'' & Hent).
  assert (s'' = s') as -> by congruence.
  destruct (Hent i e He) as (e' & He' & Hevo).
  assert (e' = Some o) as -> by congruence.
  destruct Hevo as [<-|[? _]]; done.
Qed.

(** When the loop completes, every observer that is subscribed at the end,
    from entry [i] on, has been executed by it. *)
Lemma notify_normal_executes fuel : forall c i w w',
  notify fuel c i w = Some (Normal w') ->
  forall j o s', i <= j -> cells w' !! c = Some s' ->
    subscriptions s' !! j = Some (Some o) -> o ∈ executed_since w w'.
Proof.
  induction fuel as [|fuel IH]; [done|].
  intros c i w w' Hn j o s' Hij Hc' Hj. simpl in Hn.
  destruct (cells w !! c) as [s|] eqn:Hc; [|done].
  destruct (subscriptions s !! i) as [[o'|]|] eqn:Hi.
  - destruct (execute fuel o' w) as [[w1|e w1]|] eqn:Hex; [|done|done].
    assert (Hinv : invocable o' w)
      by (eapply subscribed_invocable, entry_subscribed; eauto).
    pose proof (execute_evolves _ _ _ _ Hinv Hex) as Hev1. simpl in Hev1.
    pose proof (notify_evolves _ _ _ _ _ Hn) as Hev2. simpl in Hev2.
    assert (Hheap : is_Some (heap w !! o')).
    { destruct fuel as [|fuel']; [done|]. simpl in Hex.
      destruct (heap w !! o'); [eauto|done]. }
    pose proof (execute_marks _ _ _ _ Hheap Hex) as Hmark. simpl in Hmark.
    destruct (decide (j = i)) as [->|Hne].
    + assert (subscriptions s !! i = Some (Some o)) as Hio.
      { eapply (evolves_entry_back w w'); eauto using evolves_trans.
        by eapply lookup_lt_Some. }
      assert (o' = o) as -> by congruence.
      apply executed_since_marked. etrans; [exact Hmark|apply (ev_trace _ _ Hev2)].
    + eapply executed_since_mono;
        [apply (ev_trace _ _ Hev1)|apply (ev_trace _ _ Hev2)|].
      eapply (IH c (S i) w1 w' Hn j o s'); [lia|done|done].
  - pose proof (notify_evolves _ _ _ _ _ Hn) as Hev. simpl in Hev.
    destruct (decide (j = i)) as [->|Hne].
    + assert (subscriptions s !! i = Some (Some o)) as Hio.
      { eapply (evolves_entry_back w w'); eauto. by eapply lookup_lt_Some. }
      congruence.
    + eapply (IH c (S i) w w' Hn j o s'); [lia|done|done].
  - simplify_eq. apply lookup_ge_None in Hi.
    assert (subscriptions s !! j = None) by (apply lookup_ge_None; lia).
    congruence.
Qed.

(** With no live entry left, the loop returns at once. *)
Lemma notify_unfold fuel c i w :
  notify (S fuel) c i w =
  match cells w !! c with
  | None => Some (Thrown TypeError w)
  | Some s =>
      match subscriptions s !! i with
      | None => Some (Normal w)
      | Some None => notify fuel c (S i) w
      | Some (Some observer) =>
          match execute fuel observer w with
          | Some (Normal w') => notify fuel c (S i) w'
          | other => other
          end
      end
  end.
Proof. done. Qed.

Lemma run_Read fuel c k w :
  run (S fuel) (Read c k) w =
  match cells w !! c with
  | Some s =>
      let '(v, s') := read s in
      run fuel (k v) (alter_cell (fun _ => s') c w)
  | None => Some (Thrown TypeError w)
  end.
Proof. done. Qed.

Lemma execute_unfold fuel o w :
  execute (S fuel) o w =
  match heap w !! o with
  | Some (Effect c fn) =>
      match run fuel fn (push_context c o (mark o w)) with
      | Some (Normal w') => Some (Normal (pop_context c w'))
      | other => other
      end
  | Some (Subscription _ fn) => run fuel fn (mark o w)
  | None => Some (Thrown TypeError w)
  end.
Proof. done. Qed.

Lemma notify_no_members k : forall c i w s,
  cells w !! c = Some s -> members (subscriptions s) = [] ->
  length (subscriptions s) <= i + k ->
  notify (S k) c i w = Some (Normal w).
Proof.
  induction k as [|k IH]; intros c i w s Hc Hm Hlen;
    rewrite notify_unfold, Hc.
  - by rewrite (proj2 (lookup_ge_None _ _)) by lia.
  - destruct (subscriptions s !! i) as [[o|]|] eqn:Hi; [| |done].
    + assert (o ∈ members (subscriptions s)) as Ho.
      { apply elem_of_members. by eapply list_elem_of_lookup_2. }
      rewrite Hm in Ho. by apply elem_of_nil in Ho.
    + apply (IH c (S i) w s Hc Hm). lia.
Qed.

(** ** Parse stages and validators *)

Lemma parse_all_app ps1 ps2 raw :
  parse_all (ps1 ++ ps2) raw =
  match parse_all ps1 raw with
  | Parsed v => parse_all ps2 v
  | ParseError message => ParseError message
  end.
Proof.
  revert raw. induction ps1 as [|p ps1 IH]; intros raw; simpl; [done|].
  destruct (p raw); [apply IH|done].
Qed.

Lemma parse_all_stage_throws pre stage post raw v message :
  parse_all pre raw = Parsed v -> stage v = ParseError message ->
  parse_all (pre ++ stage :: post) raw = ParseError message.
Proof. intros Hpre Hst. rewrite parse_all_app, Hpre. simpl. by rewrite Hst. Qed.

Lemma parse_all_total stages raw :
  parse_all (total_stage <$> stages) raw = Parsed (fold_stages stages raw).
Proof.
  unfold fold_stages. revert raw.
  induction stages as [|f fs IH]; intros raw; simpl; [done|apply IH].
Qed.

Lemma rejecting_result rs r :
  r ∈ rs -> r <> VBool true -> validation_errors rs <> [].
Proof.
  intros Hin Hne Hnil.
  assert (H : r ∈ validation_errors rs) by (by apply validation_errors_elem).
  rewrite Hnil in H. by apply elem_of_nil in H.
Qed.

Lemma console_error_rejected c line w :
  fully_rejected c w (Normal (console_error line w)).
Proof.
  split; [by eexists|]. split; [done|]. split; [done|].
  unfold executed_since. simpl. apply drop_all.
Qed.

Lemma value_at_commit c v w s :
  cells w !! c = Some s -> value_at c (commit c v w) = Some v.
Proof.
  intros Hc. unfold value_at, commit. by rewrite (cells_alter_cell_eq _ _ _ s).
Qed.

Lemma commit_same_value c w s :
  cells w !! c = Some s -> commit c (value s) w = w.
Proof.
  intros Hc. unfold commit, alter_cell, with_cells. destruct w as [cs hp co jo tr].
  simpl in *. f_equal. apply list_eq. intros d.
  rewrite list_lookup_alter. destruct (decide (c = d)) as [<-|]; [|done].
  rewrite Hc. simpl. by destruct s.
Qed.

Lemma write_normal_executes fuel c raw w s v w' :
  cells w !! c = Some s -> parse_all (parsers s) raw = Parsed v ->
  accepts s v ->
  write (S fuel) c raw w = Some (Normal w') ->
  forall o, subscribed o c w' -> o ∈ executed_since w w'.
Proof.
  intros Hc Hp Hv Hw o (s' & Hs' & Ho).
  rewrite (write_accepted _ _ _ _ _ _ Hc Hp Hv) in Hw.
  apply list_elem_of_lookup in Ho as [j Hj].
  change (executed_since w w') with (executed_since (commit c v w) w').
  apply (notify_normal_executes fuel c 0 (commit c v w) w' Hw j o s');
    [lia|done|done].
Qed.

(** ** Effects and the context stack *)

Lemma context_at_push c o w s :
  cells w !! c = Some s -> context_at c (push_context c o w) = Some (context s ++ [o]).
Proof.
  intros Hc. unfold context_at, push_context.
  by rewrite (cells_alter_cell_eq _ _ _ s).
Qed.

Lemma effect_stays_subscribed w w' o c fn d :
  heap w !! o = Some (Effect c fn) -> evolves w w' ->
  subscribed o d w -> subscribed o d w'.
Proof.
  intros Ho Hev (s & Hs & Hin). apply list_elem_of_lookup in Hin as [i Hi].
  destruct (ev_cells _ _ Hev d s Hs) as (s' & Hs' & Hent).
  destruct (Hent i _ Hi) as (e' & He' & Hevo).
  exists s'. split; [done|]. apply (list_elem_of_lookup_2 _ i).
  destruct Hevo as [->|(_ & h & c' & fn' & Heq & Hh)]; [done|].
  injection Heq as <-.
  pose proof (prefix_lookup_Some _ _ _ _ Ho (ev_heap _ _ Hev)). congruence.
Qed.

(** ** Cells that no closure writes keep their value *)

Lemma value_at_alter_cell c d f w :
  (forall s, cells w !! d = Some s -> value (f s) = value s) ->
  value_at c (alter_cell f d w) = value_at c w.
Proof.
  intros Hf. unfold value_at. rewrite cells_alter_cell.
  destruct (decide (d = c)) as [->|]; [|done].
  destruct (cells w !! c) as [s|] eqn:Hs; [|done]. simpl. by rewrite Hf.
Qed.

Lemma unwritten_value_kept fuel c v :
  (forall p w out, avoids (eq c) p -> code_avoids (eq c) w ->
     value_at c w = Some v -> run fuel p w = Some out ->
     value_at c (world_of out) = Some v) /\
  (forall d i w out, code_avoids (eq c) w ->
     value_at c w = Some v -> notify fuel d i w = Some out ->
     value_at c (world_of out) = Some v).
Proof.
  destruct (invariant_all (eq c) (fun w => value_at c w = Some v))
    with (fuel := fuel) as (Hrun & _ & Hnotify & _).
  - done.
  - intros d s w H Hd. rewrite value_at_alter_cell; [done|].
    intros s' Hs'. assert (s' = s) as -> by congruence. apply read_keeps_value.
  - done.
  - intros d v' w Hne H. unfold commit. unfold value_at in *.
    rewrite cells_alter_cell_ne; [done|]. by intros ->.
  - done.
  - intros d o fn w H _. unfold push_context. by rewrite value_at_alter_cell.
  - intros d w H. unfold pop_context. by rewrite value_at_alter_cell.
  - done.
  - intros d fn w H _. unfold subscribe. by rewrite value_at_alter_cell.
  - intros h d fn w H Hh. unfold unsubscribe. rewrite Hh.
    by rewrite value_at_alter_cell.
  - split.
    + intros p w out Hp Hh Hv Hr. exact (proj1 (Hrun p w out Hp (conj Hv Hh) Hr)).
    + intros d i w out Hh Hv Hr. exact (proj1 (Hnotify d i w out (conj Hv Hh) Hr)).
Qed.

Lemma accepted_write_keeps_value fuel c raw w s v out :
  cells w !! c = Some s -> parse_all (parsers s) raw = Parsed v ->
  accepts s v -> code_avoids (eq c) w ->
  write (S fuel) c raw w = Some out ->
  value_at c (world_of out) = Some v.
Proof.
  intros Hc Hp Hv Hh Hw. rewrite (write_accepted _ _ _ _ _ _ Hc Hp Hv) in Hw.
  destruct (unwritten_value_kept fuel c v) as [_ H].
  eapply H; [|by eapply value_at_commit|exact Hw].
  unfold commit. by apply code_avoids_alter_cell.
Qed.

(** A loop that throws stopped at an observer whose [execute] threw; the
    subscribed observers before it had been executed. *)
Lemma notify_thrown fuel : forall c i w e w',
  notify fuel c i w = Some (Thrown e w') -> is_Some (cells w !! c) ->
  exists j o wj sj,
    i <= j /\ evolves w wj /\ cells wj !! c = Some sj /\
    subscriptions sj !! j = Some (Some o) /\
    execute (pred (fuel - (j - i))) o wj = Some (Thrown e w') /\
    (forall k o', i <= k < j -> subscriptions sj !! k = Some (Some o') ->
       o' ∈ executed_since w wj).
Proof.
  induction fuel as [|fuel IH]; [done|].
  intros c i w e w' Hn [s Hc]. rewrite notify_unfold, Hc in Hn.
  destruct (subscriptions s !! i) as [[o|]|] eqn:Hi; [| |done].
  - assert (Hinv : invocable o w)
      by (eapply subscribed_invocable, entry_subscribed; eauto).
    destruct (execute fuel o w) as [[w1|e1 w1]|] eqn:Hex; [| |done].
    + pose proof (execute_evolves _ _ _ _ Hinv Hex) as Hev1. simpl in Hev1.
      destruct (ev_cells _ _ Hev1 c s Hc) as (s1 & Hs1 & _).
      destruct (IH c (S i) w1 e w' Hn (mk_is_Some _ _ Hs1))
        as (j & o' & wj & sj & Hij & Hevj & Hsj & Hj & Hexj & Hbefore).
      exists j, o', wj, sj. split; [lia|]. split; [by eapply evolves_trans|].
      split; [done|]. split; [done|]. split.
      { replace (S fuel - (j - i)) with (fuel - (j - S i)) by lia. exact Hexj. }
      intros k ok Hk Hsk.
      assert (Hheap : is_Some (heap w !! o)).
      { destruct fuel as [|fuel']; [done|]. rewrite execute_unfold in Hex.
        destruct (heap w !! o); [eauto|done]. }
      pose proof (execute_marks _ _ _ _ Hheap Hex) as Hmark. simpl in Hmark.
      destruct (decide (k = i)) as [->|Hne].
      * assert (subscriptions s !! i = Some (Some ok)) as Hio.
        { eapply (evolves_entry_back w wj); eauto using evolves_trans.
          by eapply lookup_lt_Some. }
        assert (ok = o) as -> by congruence.
        apply executed_since_marked. etrans; [exact Hmark|apply (ev_trace _ _ Hevj)].
      * eapply executed_since_mono;
          [apply (ev_trace _ _ Hev1)|apply (ev_trace _ _ Hevj)|].
        apply (Hbefore k ok); [lia|done].
    + simplify_eq. exists i, o, w, s. split; [lia|]. split; [apply evolves_refl|].
      split; [done|]. split; [done|]. split.
      { replace (S fuel - (i - i)) with (S fuel) by lia. exact Hex. }
      intros k ok Hk. lia.
  - destruct (IH c (S i) w e w' Hn (mk_is_Some _ _ Hc))
      as (j & o' & wj & sj & Hij & Hevj & Hsj & Hj & Hexj & Hbefore).
    exists j, o', wj, sj. split; [lia|]. split; [done|].
    split; [done|]. split; [done|]. split.
    { replace (S fuel - (j - i)) with (fuel - (j - S i)) by lia. exact Hexj. }
    intros k ok Hk Hsk. destruct (decide (k = i)) as [->|Hne].
    + assert (subscriptions s !! i = Some (Some ok)) as Hio.
      { eapply (evolves_entry_back w wj); eauto. by eapply lookup_lt_Some. }
      congruence.
    + apply (Hbefore k ok); [lia|done].
Qed.

(** ** Well-formed worlds *)

Lemma wf_cell w c s :
  wf w = true -> cells w !! c = Some s ->
  (forall o, Some o ∈ subscriptions s -> o < length (heap w)) /\
  (forall o, o ∈ context s -> o < length (heap w)).
Proof.
  intros Hwf Hc. unfold wf in Hwf. rewrite forallb_forall in Hwf.
  assert (Hs : cell_wf (length (heap w)) s = true).
  { apply Hwf. apply list_elem_of_In. by eapply list_elem_of_lookup_2. }
  unfold cell_wf in Hs. apply andb_true_iff in Hs as [Hsub Hctx].
  rewrite forallb_forall in Hsub, Hctx. split.
  - intros o Ho. apply list_elem_of_In in Ho. specialize (Hsub _ Ho).
    simpl in Hsub. by apply Nat.ltb_lt.
  - intros o Ho. apply list_elem_of_In in Ho. specialize (Hctx _ Ho).
    by apply Nat.ltb_lt.
Qed.

Lemma removelast_subset (l : list nat) x : x ∈ removelast l -> x ∈ l.
Proof.
  destruct (decide (l = [])) as [->|Hne]; [done|].
  destruct (exists_last Hne) as (l' & y & ->).
  rewrite removelast_last. intros H. apply elem_of_app. by left.
Qed.

(** ** Observers that have been unsubscribed *)

Lemma dormant_same h w w' :
  cells w' = cells w -> heap w' = heap w -> dormant h w -> dormant h w'.
Proof. intros Hc Hh [Hheap Hcells]. unfold dormant. by rewrite Hc, Hh. Qed.

Lemma dormant_alter_cell h f c w :
  dormant h w ->
  (forall s, cells w !! c = Some s ->
     Some h ∉ subscriptions s -> h ∉ context s ->
     (Some h ∉ subscriptions (f s)) /\ (h ∉ context (f s))) ->
  dormant h (alter_cell f c w).
Proof.
  intros [Hheap Hcells] Hf. split; [done|]. intros d s Hd.
  rewrite cells_alter_cell in Hd. destruct (decide (c = d)) as [->|]; [|by eapply Hcells].
  destruct (cells w !! d) as [s0|] eqn:Hs0; [|done]. simpl in Hd.
  injection Hd as <-. destruct (Hcells d s0 Hs0). by apply Hf.
Qed.

Lemma dormant_alloc h ob w : dormant h w -> dormant h (alloc ob w).
Proof.
  intros [(c & fn & Hheap) Hcells]. split; [|done].
  exists c, fn. simpl. by apply lookup_app_l_Some.
Qed.

Lemma dormant_not_invocable h o w : dormant h w -> invocable o w -> o <> h.
Proof.
  intros [(c & fn & Hheap) Hcells] [(d & s & Hd & Hin)|(d & fn' & Ho)] ->.
  - by destruct (Hcells d s Hd).
  - congruence.
Qed.


(** ** [subscribe] and its unsubscribe function *)

Lemma heap_subscribe c fn w :
  heap (subscribe c fn w) !! fresh w = Some (Subscription c fn).
Proof. unfold subscribe, fresh. simpl. apply list_lookup_middle. done. Qed.



Lemma run_Subscribe fuel c fn k w :
  run (S fuel) (Subscribe c fn k) w =
  match cells w !! c with
  | Some _ => run fuel (k (fresh w)) (subscribe c fn w)
  | None => Some (Thrown TypeError w)
  end.
Proof. done. Qed.



(** ** More fuel changes no result *)

Lemma check_call_le (call call' : Prog -> World -> option Outcome) :
  (forall p w out, call p w = Some out -> call' p w = Some out) ->
  forall ch w res, check call ch w = Some res -> check call' ch w = Some res.
Proof.
  intros Hle. induction ch as [r|p k IH|c k IH]; intros w res Hr; simpl in *.
  - done.
  - destruct (call p w) as [[w'|e w']|] eqn:Hc; [| |done];
      rewrite (Hle _ _ _ Hc); [by apply IH|done].
  - destruct (cells w !! c); [|done]. destruct (read s). by apply IH.
Qed.

Lemma validationResults_call_le (call call' : Prog -> World -> option Outcome)
    c v :
  (forall p w out, call p w = Some out -> call' p w = Some out) ->
  forall vs w res, validationResults call c vs v w = Some res ->
    validationResults call' c vs v w = Some res.
Proof.
  intros Hle. induction vs as [|validator vs IH]; intros w res Hr;
    simpl in *; [done|].
  destruct (cells w !! c) as [s|]; [|done].
  destruct (check call (validator (value s) v) w) as [[r w1|e w1]|] eqn:Hch;
    [| |done]; rewrite (check_call_le call call' Hle _ _ _ Hch); [|done].
  destruct (validationResults call c vs v w1) as [[rs w2|e w2]|] eqn:Hrest;
    [| |done]; by rewrite (IH _ _ Hrest).
Qed.

Lemma fuel_monotone n :
  (forall p w out, run n p w = Some out ->
     forall m, n <= m -> run m p w = Some out) /\
  (forall c v w out, write n c v w = Some out ->
     forall m, n <= m -> write m c v w = Some out) /\
  (forall c i w out, notify n c i w = Some out ->
     forall m, n <= m -> notify m c i w = Some out) /\
  (forall o w out, execute n o w = Some out ->
     forall m, n <= m -> execute m o w = Some out) /\
  (forall c fn w out, createEffect n c fn w = Some out ->
     forall m, n <= m -> createEffect m c fn w = Some out).
Proof.
  induction n as [|n (IHrun & IHwrite & IHnotify & IHexecute & IHcreate)].
  { repeat split; intros; discriminate. }
  split; [|split; [|split; [|split]]].
  - intros p w out Hr [|m] Hm; [lia|]. assert (Hnm : n <= m) by lia.
    destruct p; simpl in Hr |- *.
    + done.
    + done.
    + by apply IHrun.
    + destruct (cells w !! c); [|done]. destruct (read s). by apply IHrun.
    + destruct (write n c newValue w) as [[w'|e w']|] eqn:Hw; [| |done];
        rewrite (IHwrite _ _ _ _ Hw m Hnm); [by apply IHrun|done].
    + destruct (cells w !! c); [|done].
      destruct (createEffect n c p w) as [[w'|e w']|] eqn:Hw; [| |done];
        rewrite (IHcreate _ _ _ _ Hw m Hnm); [by apply IHrun|done].
    + destruct (cells w !! c); [|done]. by apply IHrun.
    + destruct (heap w !! h) as [[]|]; [done| |done]. by apply IHrun.
    + destruct (heap w !! o) as [[]|]; [|done|done].
      destruct (execute n o w) as [[w'|e w']|] eqn:Hw; [| |done];
        rewrite (IHexecute _ _ _ Hw m Hnm); [by apply IHrun|done].
    + destruct (run n p1 w) as [[w'|e w']|] eqn:Hw; [| |done];
        rewrite (IHrun _ _ _ Hw m Hnm); [by apply IHrun|].
      destruct (run n (handler e) w') as [[w''|e' w'']|] eqn:Hw'; [| |done];
        rewrite (IHrun _ _ _ Hw' m Hnm); [by apply IHrun|done].
  - intros c v w out Hr [|m] Hm; [lia|]. assert (Hnm : n <= m) by lia.
    rewrite write_unfold in Hr |- *. destruct (cells w !! c) as [s|]; [|done].
    destruct (parse_all (parsers s) v) as [v0|]; [|done].
    destruct (validationResults (run n) c (validators s) v0 w)
      as [[rs w1|e w1]|] eqn:Hval; [| |done];
      rewrite (validationResults_call_le (run n) (run m) c v0
                 (fun p w out H => IHrun p w out H m Hnm) _ _ _ Hval); [|done].
    destruct (0 <? length (validation_errors rs)); [done|]. by apply IHnotify.
  - intros c i w out Hr [|m] Hm; [lia|]. assert (Hnm : n <= m) by lia.
    rewrite notify_unfold in Hr |- *. destruct (cells w !! c) as [s|]; [|done].
    destruct (subscriptions s !! i) as [[o|]|]; [| |done].
    + destruct (execute n o w) as [[w'|e w']|] eqn:Hw; [| |done];
        rewrite (IHexecute _ _ _ Hw m Hnm); [by apply IHnotify|done].
    + by apply IHnotify.
  - intros o w out Hr [|m] Hm; [lia|]. assert (Hnm : n <= m) by lia.
    rewrite execute_unfold in Hr |- *.
    destruct (heap w !! o) as [[c fn|c fn]|]; [| |done].
    + destruct (run n fn (push_context c o (mark o w))) as [[w'|e w']|] eqn:Hw;
        [| |done]; by rewrite (IHrun _ _ _ Hw m Hnm).
    + by apply IHrun.
  - intros c fn w out Hr [|m] Hm; [lia|]. assert (Hnm : n <= m) by lia.
    simpl in Hr |- *. by apply IHexecute.
Qed.



(** ** Observers that do not call back into the cells *)

Lemma run_fuel_le n m p w out :
  run n p w = Some out -> n <= m -> run m p w = Some out.
Proof. intros H Hle. destruct (fuel_monotone n) as (Hr & _). by eapply Hr. Qed.

Lemma notify_fuel_le n m c i w out :
  notify n c i w = Some out -> n <= m -> notify m c i w = Some out.
Proof. intros H Hle. destruct (fuel_monotone n) as (_ & _ & Hr & _). by eapply Hr. Qed.

Lemma execute_fuel_le n m o w out :
  execute n o w = Some out -> n <= m -> execute m o w = Some out.
Proof.
  intros H Hle. destruct (fuel_monotone n) as (_ & _ & _ & Hr & _). by eapply Hr.
Qed.

Lemma read_only_step_refl s : read_only_step s s.
Proof. repeat split; auto. Qed.

Lemma read_only_step_trans s1 s2 s3 :
  read_only_step s1 s2 -> read_only_step s2 s3 -> read_only_step s1 s3.
Proof.
  intros (Hv & Hva & Hp & Hc & Hs) (Hv' & Hva' & Hp' & Hc' & Hs').
  split; [congruence|]. split; [congruence|]. split; [congruence|].
  split; [congruence|].
  destruct Hs' as [Hs'|(o' & Ho' & Hs')]; rewrite Hs'.
  - done.
  - rewrite Hc in Ho'. destruct Hs as [->|(o & Ho & ->)]; [right; eauto|].
    assert (o' = o) as -> by congruence. right. exists o.
    by rewrite set_add_idem.
Qed.

Lemma quiet_refl w : quiet w w.
Proof.
  repeat split; auto. intros c s Hc. exists s.
  split; [done|apply read_only_step_refl].
Qed.

Lemma quiet_trans w1 w2 w3 : quiet w1 w2 -> quiet w2 w3 -> quiet w1 w3.
Proof.
  intros (Hh & Ht & Hco & Hl & Hc) (Hh' & Ht' & Hco' & Hl' & Hc').
  split; [congruence|]. split; [congruence|]. split; [congruence|].
  split; [congruence|].
  intros c s1 Hs1. destruct (Hc c s1 Hs1) as (s2 & Hs2 & H12).
  destruct (Hc' c s2 Hs2) as (s3 & Hs3 & H23). exists s3.
  split; [done|by eapply read_only_step_trans].
Qed.

Lemma quiet_emit x w : quiet w (emit x w).
Proof.
  repeat split; auto. intros c s Hc. exists s.
  split; [done|apply read_only_step_refl].
Qed.

Lemma length_cells_alter_cell f c w :
  length (cells (alter_cell f c w)) = length (cells w).
Proof. unfold alter_cell, with_cells. simpl. apply length_alter. Qed.

Lemma quiet_read c s w :
  cells w !! c = Some s -> quiet w (alter_cell (fun _ => (read s).2) c w).
Proof.
  intros Hc. split; [done|]. split; [done|]. split; [done|].
  split; [apply length_cells_alter_cell|]. intros d sd Hd.
  rewrite cells_alter_cell. destruct (decide (c = d)) as [<-|].
  - rewrite Hc. simpl. exists (read s).2. split; [done|].
    assert (sd = s) as -> by congruence.
    split; [apply read_keeps_value|]. split; [unfold read; by destruct (last _)|].
    split; [unfold read; by destruct (last _)|].
    split; [apply read_keeps_context|]. rewrite read_subscriptions.
    destruct (last (context s)) as [o|]; [right; eauto|by left].
  - exists sd. split; [done|apply read_only_step_refl].
Qed.

(** A closure that does not call back terminates, and changes nothing but
    the registrations that its reads make. *)
Lemma passive_run p :
  passive p -> forall w, exists fuel out,
    run fuel p w = Some out /\ quiet w (world_of out).
Proof.
  induction p as [|e|x k IHk|c k IHk| | | | | |b IHb handler IHh k IHk];
    simpl; intros Hp w; try done.
  - exists 1, (Normal w). split; [done|apply quiet_refl].
  - exists 1, (Thrown e w). split; [done|apply quiet_refl].
  - destruct (IHk Hp (emit x w)) as (fuel & out & Hr & Hq).
    exists (S fuel), out. split; [done|].
    eapply quiet_trans; [apply quiet_emit|done].
  - destruct (cells w !! c) as [s|] eqn:Hc.
    + destruct (IHk (read s).1 (Hp _) (alter_cell (fun _ => (read s).2) c w))
        as (fuel & out & Hr & Hq).
      exists (S fuel), out. split.
      * rewrite run_Read, Hc. by destruct (read s).
      * eapply quiet_trans; [by apply quiet_read|done].
    + exists 1, (Thrown TypeError w). split; [|apply quiet_refl].
      by rewrite run_Read, Hc.
  - destruct Hp as (Hb & Hh & Hk).
    destruct (IHb Hb w) as (f1 & [w1|e w1] & Hr1 & Hq1); simpl in Hq1.
    + destruct (IHk Hk w1) as (f2 & out & Hr2 & Hq2).
      exists (S (f1 `max` f2)), out. split; [|by eapply quiet_trans].
      simpl. rewrite (run_fuel_le f1 _ _ _ _ Hr1) by lia.
      apply (run_fuel_le f2); [done|lia].
    + destruct (IHh e (Hh e) w1) as (f2 & [w2|e2 w2] & Hr2 & Hq2); simpl in Hq2.
      * destruct (IHk Hk w2) as (f3 & out & Hr3 & Hq3).
        exists (S (f1 `max` (f2 `max` f3))), out.
        split; [|eauto using quiet_trans].
        simpl. rewrite (run_fuel_le f1 _ _ _ _ Hr1) by lia.
        rewrite (run_fuel_le f2 _ _ _ _ Hr2) by lia.
        apply (run_fuel_le f3); [done|lia].
      * exists (S (f1 `max` f2)), (Thrown e2 w2).
        split; [|eauto using quiet_trans].
        simpl. rewrite (run_fuel_le f1 _ _ _ _ Hr1) by lia.
        by rewrite (run_fuel_le f2 _ _ _ _ Hr2) by lia.
Qed.

Lemma read_only_step_top s s' o :
  read_only_step s s' -> last (context s) = Some o ->
  subscriptions s' = subscriptions s \/ subscriptions s' = set_add o (subscriptions s).
Proof.
  intros (_ & _ & _ & _ & [H|(o' & Ho' & H)]) Ho; [by left|].
  right. congruence.
Qed.

Lemma read_only_step_no_top s s' :
  read_only_step s s' -> context s = [] -> subscriptions s' = subscriptions s.
Proof.
  intros (_ & _ & _ & _ & [H|(o' & Ho' & H)]) Hctx; [done|].
  rewrite Hctx in Ho'. done.
Qed.

(** One call of [execute] on a passive observer in a clean world: it
    terminates; it is recorded; of the cells it can only change the
    subscriptions, by registering the observer itself; when it returns, the
    stacks are empty again. *)
Lemma execute_passive o ob w :
  heap w !! o = Some ob -> passive (body ob) -> clean w ->
  exists fuel out, execute fuel o w = Some out /\
    heap (world_of out) = heap w /\ trace (world_of out) = trace w ++ [o] /\
    length (cells (world_of out)) = length (cells w) /\
    forall c s, cells w !! c = Some s ->
      exists s', cells (world_of out) !! c = Some s' /\
        value s' = value s /\ validators s' = validators s /\
        parsers s' = parsers s /\
        (subscriptions s' = subscriptions s \/
         subscriptions s' = set_add o (subscriptions s)) /\
        (forall w', out = Normal w' -> context s' = []).
Proof.
  intros Ho Hp Hclean. destruct ob as [c' fn|c' fn]; simpl in Hp.
  - destruct (passive_run fn Hp (push_context c' o (mark o w)))
      as (fuel & out1 & Hr & Hh & Ht & _ & Hlen & Hcells).
    unfold push_context in Hlen. rewrite length_cells_alter_cell in Hlen.
    assert (Hentered : forall c s, cells w !! c = Some s ->
      exists s1, cells (world_of out1) !! c = Some s1 /\
        value s1 = value s /\ validators s1 = validators s /\
        parsers s1 = parsers s /\
        (subscriptions s1 = subscriptions s \/
         subscriptions s1 = set_add o (subscriptions s)) /\
        context s1 = (if decide (c' = c) then [o] else [])).
    { intros c s Hc. specialize (Hclean c s Hc).
      destruct (decide (c' = c)) as [->|Hne].
      - destruct (Hcells c (with_context (fun ctx => ctx ++ [o]) s))
          as (s1 & Hs1 & Hstep).
        { unfold push_context. by apply cells_alter_cell_eq. }
        exists s1. split; [done|].
        assert (Htop : last (context (with_context (fun ctx => ctx ++ [o]) s))
                       = Some o) by apply last_snoc.
        pose proof (read_only_step_top _ _ o Hstep Htop) as Hsub.
        destruct Hstep as (Hv & Hva & Hpa & Hctx & _). simpl in *.
        rewrite Hclean in Hctx. repeat (split; [done|]). done.
      - destruct (Hcells c s) as (s1 & Hs1 & Hstep).
        { unfold push_context. by rewrite cells_alter_cell_ne. }
        exists s1. split; [done|].
        pose proof (read_only_step_no_top _ _ Hstep Hclean) as Hsub.
        destruct Hstep as (Hv & Hva & Hpa & Hctx & _).
        repeat (split; [done|]). split; [by left|congruence]. }
    destruct out1 as [w1|e w1]; cbn [world_of] in *.
    + exists (S fuel), (Normal (pop_context c' w1)).
      split; [by rewrite execute_unfold, Ho, Hr|]. cbn [world_of].
      split; [done|]. split; [done|].
      split; [unfold pop_context; by rewrite length_cells_alter_cell|].
      intros c s Hc.
      destruct (Hentered c s Hc) as (s1 & Hs1 & Hv & Hva & Hpa & Hsub & Hctx).
      unfold pop_context. rewrite cells_alter_cell.
      destruct (decide (c' = c)) as [->|Hne]; rewrite Hs1.
      * eexists. split; [done|]. simpl. repeat (split; [done|]).
        intros _ _. by rewrite Hctx.
      * exists s1. split; [done|]. repeat (split; [done|]). by intros _ _.
    + exists (S fuel), (Thrown e w1).
      split; [by rewrite execute_unfold, Ho, Hr|]. cbn [world_of].
      split; [done|]. split; [done|]. split; [done|].
      intros c s Hc.
      destruct (Hentered c s Hc) as (s1 & Hs1 & Hv & Hva & Hpa & Hsub & Hctx).
      exists s1. split; [done|]. repeat (split; [done|]). by intros w'.
  - destruct (passive_run fn Hp (mark o w))
      as (fuel & out & Hr & Hh & Ht & _ & Hlen & Hcells).
    exists (S fuel), out. split; [by rewrite execute_unfold, Ho|].
    split; [done|]. split; [done|]. split; [done|]. intros c s Hc.
    destruct (Hcells c s Hc) as (s1 & Hs1 & Hstep). exists s1. split; [done|].
    pose proof (read_only_step_no_top _ _ Hstep (Hclean c s Hc)) as Hsub.
    destruct Hstep as (Hv & Hva & Hpa & Hctx & _).
    repeat (split; [done|]). split; [by left|].
    intros _ _. rewrite Hctx. by apply (Hclean c).
Qed.

Lemma signal_eq s s' :
  value s' = value s -> validators s' = validators s -> parsers s' = parsers s ->
  subscriptions s' = subscriptions s -> context s' = context s -> s' = s.
Proof. destruct s, s'. simpl. by intros -> -> -> -> ->. Qed.

Lemma executed_since_app w w1 w' l :
  trace w1 = trace w ++ l -> trace w1 `prefix_of` trace w' ->
  executed_since w w' = l ++ executed_since w1 w'.
Proof.
  intros H1 [k Hk]. unfold executed_since. rewrite Hk, H1.
  rewrite drop_app_length. by rewrite <- app_assoc, drop_app_length.
Qed.

(** The notification loop over passive observers in a clean world: it
    terminates, leaves the value and the subscriptions of the cell as they
    are, and has executed the members from entry [i] on, once each and in
    order, up to the first one that throws. *)
Lemma notify_passive c s : forall k i w,
  length (subscriptions s) <= i + k ->
  cells w !! c = Some s ->
  (forall o, Some o ∈ subscriptions s -> is_Some (heap w !! o)) ->
  clean w -> heap_passive w ->
  exists fuel out, notify fuel c i w = Some out /\
    value_at c (world_of out) = Some (value s) /\
    subscriptions_at c (world_of out) = Some (subscriptions s) /\
    match out with
    | Normal w' =>
        executed_since w w' = members (drop i (subscriptions s)) /\ clean w'
    | Thrown e w' =>
        exists pre o post,
          members (drop i (subscriptions s)) = pre ++ o :: post /\
          executed_since w w' = pre ++ [o]
    end.
Proof.
  assert (Hdone : forall i w, cells w !! c = Some s -> clean w ->
    length (subscriptions s) <= i ->
    exists fuel out, notify fuel c i w = Some out /\
      value_at c (world_of out) = Some (value s) /\
      subscriptions_at c (world_of out) = Some (subscriptions s) /\
      match out with
      | Normal w' =>
          executed_since w w' = members (drop i (subscriptions s)) /\ clean w'
      | Thrown e w' =>
          exists pre o post,
            members (drop i (subscriptions s)) = pre ++ o :: post /\
            executed_since w w' = pre ++ [o]
      end).
  { intros i w Hc Hclean Hlen. exists 1, (Normal w).
    rewrite notify_unfold, Hc. rewrite (proj2 (lookup_ge_None _ _)) by lia.
    split; [done|]. unfold value_at, subscriptions_at. cbn [world_of].
    rewrite Hc. split; [done|]. split; [done|]. split; [|done].
    rewrite drop_ge by lia. unfold executed_since. by rewrite drop_all. }
  induction k as [|k IH]; intros i w Hlen Hc Halloc Hclean Hpassive.
  { apply Hdone; [done|done|lia]. }
  destruct (subscriptions s !! i) as [[o|]|] eqn:Hi.
  - assert (Hin : Some o ∈ subscriptions s) by (by eapply list_elem_of_lookup_2).
    destruct (Halloc o Hin) as [ob Hob].
    destruct (execute_passive o ob w Hob (Hpassive _ _ Hob) Hclean)
      as (f1 & out1 & Hex & Hheap & Htrace & Hlencells & Hcells).
    destruct (Hcells c s Hc) as (s1 & Hs1 & Hv & Hva & Hpa & Hsub & Hctx).
    assert (Hsub' : subscriptions s1 = subscriptions s).
    { destruct Hsub as [->| ->]; [done|by apply set_add_present]. }
    rewrite (drop_S _ _ _ Hi). change (members (Some o :: ?l)) with (o :: members l).
    destruct out1 as [w1|e w1]; cbn [world_of] in *.
    + assert (s1 = s) as ->.
      { apply signal_eq; try done. rewrite (Hclean c s Hc). by eapply Hctx. }
      assert (Hclean1 : clean w1).
      { intros d sd Hd. destruct (cells w !! d) as [sd0|] eqn:Hd0.
        - destruct (Hcells d sd0 Hd0) as (sd' & Hsd' & _ & _ & _ & _ & Hc').
          assert (sd' = sd) as -> by congruence. by eapply Hc'.
        - apply lookup_lt_Some in Hd. apply lookup_ge_None in Hd0. lia. }
      destruct (IH (S i) w1) as (f2 & out & Hn & Hval & Hsubs & Hout);
        [lia|done|by rewrite Hheap|done| |].
      { intros o' ob' Hl. rewrite Hheap in Hl. by eapply Hpassive. }
      exists (S (f1 `max` f2)), out. split.
      { rewrite notify_unfold, Hc, Hi.
        rewrite (execute_fuel_le f1 _ _ _ _ Hex) by lia.
        apply (notify_fuel_le f2); [done|lia]. }
      split; [done|]. split; [done|].
      pose proof (notify_evolves _ _ _ _ _ Hn) as Hev.
      destruct out as [w'|e w']; cbn [world_of] in *.
      * destruct Hout as [Hexec Hclean']. split; [|done].
        rewrite (executed_since_app w w1 w' [o]); [|done|apply (ev_trace _ _ Hev)].
        by rewrite Hexec.
      * destruct Hout as (pre & o' & post & Hm & Hexec).
        exists (o :: pre), o', post. split; [by rewrite Hm|].
        rewrite (executed_since_app w w1 w' [o]); [|done|apply (ev_trace _ _ Hev)].
        by rewrite Hexec.
    + exists (S f1), (Thrown e w1). split.
      { by rewrite notify_unfold, Hc, Hi, Hex. }
      unfold value_at, subscriptions_at. cbn [world_of]. rewrite Hs1. simpl.
      split; [by rewrite Hv|]. split; [by rewrite Hsub'|].
      exists [], o, (members (drop (S i) (subscriptions s))). split; [done|].
      unfold executed_since. by rewrite Htrace, drop_app_length.
  - rewrite (drop_S _ _ _ Hi). change (members (None :: ?l)) with (members l).
    destruct (IH (S i) w) as (f2 & out & Hn & Hout); [lia|done..|].
    exists (S f2), out. split; [|done]. by rewrite notify_unfold, Hc, Hi.
  - apply Hdone; [done|done|]. by apply lookup_ge_None in Hi.
Qed.

Lemma write_fuel_le n m c v w out :
  write n c v w = Some out -> n <= m -> write m c v w = Some out.
Proof. intros H Hle. destruct (fuel_monotone n) as (_ & Hr & _). by eapply Hr. Qed.

(** An accepted write on a clean, well-formed world whose observers do not
    call back terminates, and has notified the members in order. *)
Lemma write_passive_terminates c raw w s v :
  cells w !! c = Some s -> parse_all (parsers s) raw = Parsed v ->
  accepts s v ->
  wf w = true -> clean w -> heap_passive w ->
  exists fuel out, write fuel c raw w = Some out /\ notified_in_order c v w s out.
Proof.
  intros Hc Hp Hv Hwf Hclean Hpassive.
  destruct (notify_passive c (with_value v s) (length (subscriptions s)) 0
              (commit c v w)) as (fuel & out & Hn & Hval & Hsubs & Hout).
  - simpl. lia.
  - unfold commit. by apply cells_alter_cell_eq.
  - intros o Ho. simpl in *. destruct (wf_cell w c s Hwf Hc) as [Hlt _].
    apply lookup_lt_is_Some_2. by apply Hlt.
  - intros d sd Hd. unfold commit in Hd. rewrite cells_alter_cell in Hd.
    destruct (decide (c = d)) as [<-|]; [|by eapply Hclean].
    rewrite Hc in Hd. injection Hd as <-. simpl. by eapply Hclean.
  - done.
  - exists (S fuel), out. split; [by rewrite (write_accepted _ _ _ _ _ _ Hc Hp Hv)|].
    split; [done|]. split; [done|].
    destruct out as [w'|e w']; simpl in *; [by destruct Hout|done].
Qed.

Lemma write_passive c raw w s v fuel out :
  cells w !! c = Some s -> parse_all (parsers s) raw = Parsed v ->
  accepts s v ->
  wf w = true -> clean w -> heap_passive w ->
  write fuel c raw w = Some out -> notified_in_order c v w s out.
Proof.
  intros Hc Hp Hv Hwf Hclean Hpassive Hw.
  destruct (write_passive_terminates c raw w s v Hc Hp Hv Hwf Hclean Hpassive)
    as (fuel' & out' & Hw' & Hout).
  apply (write_fuel_le _ (fuel `max` fuel')) in Hw; [|lia].
  apply (write_fuel_le _ (fuel `max` fuel')) in Hw'; [|lia].
  assert (out = out') as -> by congruence. done.
Qed.


(** ** Well-formedness is an invariant *)

Lemma wf_intro w :
  (forall c s, cells w !! c = Some s ->
     (forall o, Some o ∈ subscriptions s -> o < length (heap w)) /\
     (forall o, o ∈ context s -> o < length (heap w))) ->
  wf w = true.
Proof.
  intros H. unfold wf. apply forallb_forall. intros s Hs.
  apply list_elem_of_In, list_elem_of_lookup in Hs as [c Hc].
  destruct (H c s Hc) as [Hsub Hctx]. unfold cell_wf.
  apply andb_true_iff. split; apply forallb_forall.
  - intros [o|] Ho; [|done]. apply Nat.ltb_lt, Hsub. by apply list_elem_of_In.
  - intros o Ho. apply Nat.ltb_lt, Hctx. by apply list_elem_of_In.
Qed.

Lemma wf_alter_cell f c w :
  wf w = true ->
  (forall s, cells w !! c = Some s ->
     (forall o, Some o ∈ subscriptions (f s) ->
        Some o ∈ subscriptions s \/ o < length (heap w)) /\
     (forall o, o ∈ context (f s) -> o ∈ context s \/ o < length (heap w))) ->
  wf (alter_cell f c w) = true.
Proof.
  intros Hwf Hf. apply wf_intro. intros d s Hd.
  rewrite cells_alter_cell in Hd. simpl.
  destruct (decide (c = d)) as [->|]; [|by eapply wf_cell].
  destruct (cells w !! d) as [s0|] eqn:Hs0; [|done]. injection Hd as <-.
  destruct (wf_cell w d s0 Hwf Hs0) as [Hsub Hctx].
  destruct (Hf s0 eq_refl) as [Hsub' Hctx']. split.
  - intros o Ho. destruct (Hsub' o Ho); auto.
  - intros o Ho. destruct (Hctx' o Ho); auto.
Qed.

Lemma wf_alloc ob w : wf w = true -> wf (alloc ob w) = true.
Proof.
  intros Hwf. apply wf_intro. intros c s Hc. simpl in *.
  destruct (wf_cell w c s Hwf Hc) as [Hsub Hctx]. rewrite length_app. simpl.
  split; intros o Ho; [apply Hsub in Ho|apply Hctx in Ho]; lia.
Qed.

Lemma wf_same w w' :
  cells w' = cells w -> heap w' = heap w -> wf w = true -> wf w' = true.
Proof. intros Hc Hh. unfold wf. by rewrite Hc, Hh. Qed.

(** Every world that code reaches from a well-formed world is well-formed:
    the cells only ever store observers that have been allocated. *)
Lemma wf_preserved fuel : forall p w out,
  wf w = true -> run fuel p w = Some out -> wf (world_of out) = true.
Proof.
  destruct (invariant_all (fun _ => False) (fun w => wf w = true))
    with (fuel := fuel) as (Hrun & _).
  - intros x w. by apply wf_same.
  - intros c s w Hwf Hc. apply wf_alter_cell; [done|]. intros s' Hs'.
    assert (s' = s) as -> by congruence.
    rewrite read_subscriptions, read_keeps_context. split; [|by left].
    intros o Ho. destruct (last (context s)) as [o'|] eqn:Hl; [|by left].
    apply set_add_elem in Ho as [Ho| ->]; [by left|]. right.
    destruct (wf_cell w c s Hwf Hc) as [_ Hctx].
    apply Hctx. by eapply last_Some_elem_of.
  - intros l w. by apply wf_same.
  - intros c v w _ Hwf. apply wf_alter_cell; [done|]. intros s _.
    split; intros o Ho; by left.
  - intros o w Hwf _. eapply wf_same; [..|exact Hwf]; done.
  - intros c o fn w Hwf Ho. apply wf_alter_cell; [done|]. intros s _. simpl.
    split; [by left|]. intros o' Ho'.
    apply elem_of_app in Ho' as [Ho'|Ho']; [by left|]. right.
    apply list_elem_of_singleton in Ho' as ->. by eapply lookup_lt_Some.
  - intros c w Hwf. apply wf_alter_cell; [done|]. intros s _. simpl.
    split; [by left|]. intros o Ho. left. by apply removelast_subset.
  - intros c fn w. apply wf_alloc.
  - intros c fn w Hwf _. unfold subscribe.
    apply wf_alter_cell; [by apply wf_alloc|]. intros s _. simpl.
    split; [|by left]. intros o Ho.
    apply set_add_elem in Ho as [Ho| ->]; [by left|]. right.
    rewrite length_app. unfold fresh. simpl. lia.
  - intros h c fn w Hwf Hh. unfold unsubscribe. rewrite Hh.
    apply wf_alter_cell; [done|]. intros s _. simpl. split; [|by left].
    intros o Ho. apply set_delete_elem in Ho as [Ho _]. by left.
  - intros p w out Hwf Hr.
    exact (proj1 (Hrun p w out (avoids_nothing p)
                    (conj Hwf (code_avoids_nothing w)) Hr)).
Qed.


(** ** The map over the validators *)

Lemma validationResults_app call c v pre : forall post w,
  validationResults call c (pre ++ post) v w =
  match validationResults call c pre v w with
  | Some (Returns rs1 w1) =>
      match validationResults call c post v w1 with
      | Some (Returns rs2 w2) => Some (Returns (rs1 ++ rs2) w2)
      | other => other
      end
  | other => other
  end.
Proof.
  induction pre as [|validator pre IH]; intros post w; simpl.
  - by destruct (validationResults call c post v w) as [[rs w1|e w1]|].
  - destruct (cells w !! c) as [s|]; [|done].
    destruct (check call (validator (value s) v) w) as [[r w1|e w1]|]; [| |done];
      [|done].
    rewrite IH.
    destruct (validationResults call c pre v w1) as [[rs1 w2|e w2]|]; [| |done];
      [|done].
    by destruct (validationResults call c post v w2) as [[rs2 w3|e w3]|].
Qed.

Lemma validationResults_length call c v : forall vs w rs w1,
  validationResults call c vs v w = Some (Returns rs w1) ->
  length rs = length vs.
Proof.
  induction vs as [|validator vs IH]; intros w rs w1 Hr; simpl in Hr.
  - by simplify_eq.
  - destruct (cells w !! c) as [s|]; [|done].
    destruct (check call (validator (value s) v) w) as [[r w2|e w2]|]; [| |done];
      [|done].
    destruct (validationResults call c vs v w2) as [[rs' w3|e w3]|] eqn:Hrest;
      [| |done]; [|done].
    simplify_eq. simpl. f_equal. by eapply IH.
Qed.

Lemma validationResults_evolves fuel c vs v w res :
  validationResults (run fuel) c vs v w = Some res ->
  evolves w (result_world res).
Proof.
  intros Hr.
  refine (proj1 (validationResults_invariant (fun _ => False) (evolves w) _
                   (run fuel) c v _ vs w res _
                   (conj (evolves_refl w) (code_avoids_nothing w)) Hr)).
  - intros d s w0 H Hd. eapply evolves_trans; [exact H|by apply evolves_read].
  - intros p w0 out _ [H _] Hrun. split; [|apply code_avoids_nothing].
    destruct (evolves_all fuel w) as (Hr' & _). by eapply Hr'.
  - intros validator o n _. apply check_avoids_nothing.
Qed.

Lemma evolves_cell w w' c s :
  evolves w w' -> cells w !! c = Some s -> is_Some (cells w' !! c).
Proof. intros Hev Hc. destruct (ev_cells _ _ Hev c s Hc) as (s' & Hs' & _). eauto. Qed.

Lemma answers_elem s v rs validator r :
  answers s v rs -> validator ∈ validators s ->
  validator (value s) v = Answer r -> r ∈ rs.
Proof.
  intros Ha Hin Hr. apply list_elem_of_lookup in Hin as [i Hi].
  destruct (answers_lookup s v rs i validator Ha Hi) as (r' & Hr' & Heq).
  rewrite Hr in Heq. injection Heq as ->. by eapply list_elem_of_lookup_2.
Qed.

Lemma accepts_no_validators s v : validators s = [] -> accepts s v.
Proof. unfold accepts. intros ->. constructor. Qed.

Lemma accepts_elem s v validator :
  accepts s v -> validator ∈ validators s ->
  validator (value s) v = Answer (VBool true).
Proof. unfold accepts. rewrite Forall_forall. auto. Qed.

(** ** The parse pipeline as a fold *)

Lemma fold_parsers_error stages message :
  fold_left (fun acc stage =>
               match acc with
               | Parsed x => stage x
               | ParseError m => ParseError m
               end) stages (ParseError message) = ParseError message.
Proof. induction stages as [|stage stages IH]; simpl; [done|apply IH]. Qed.

Lemma parse_all_fold stages raw : parse_all stages raw = fold_parsers stages raw.
Proof.
  unfold fold_parsers. revert raw.
  induction stages as [|stage stages IH]; intros raw; simpl; [done|].
  destruct (stage raw) as [v|message]; [apply IH|].
  by rewrite fold_parsers_error.
Qed.

(** * The claims *)

(** C1, as stated, fails: [createEffect] of a function that throws leaves
    the effect on the context stack of the cell, which was empty before. *)
Lemma createEffect_throw_leaves_frame :
  exists w', createEffect 3 0 thrower cell10 = Some (Thrown boom w') /\
    context_at 0 cell10 = Some [] /\
    context_at 0 w' = Some [0].
Proof. eexists. split; [vm_compute; reflexivity|]. done. Qed.

(** C1, amended. [createEffect(fn)] allocates the effect and calls its
    [execute], which pushes the effect on the context stack of its cell and
    runs [fn]; when [fn] returns, the top frame is popped, so that a stack
    that [fn] left as it found it is back to its state before the call;
    when [fn] throws, the exception leaves [execute] at once and nothing is
    popped: the world is the one [fn] left, with the frame still on the
    stack.  A function that does not call back into the cells terminates
    and leaves the stack as it found it, so that the stack is restored when
    it returns and keeps the frame when it throws. *)
Theorem execute_effect_bracket (fuel : nat) (o : ObsId) (c : CellId)
    (fn : Prog) (w : World) (s : Signal) :
  heap w !! o = Some (Effect c fn) ->
  cells w !! c = Some s ->
  let entered := push_context c o (mark o w) in
  (forall c' fn' w0,
     createEffect (S fuel) c' fn' w0
       = execute fuel (fresh w0) (alloc (Effect c' fn') w0) /\
     heap (alloc (Effect c' fn') w0) !! fresh w0 = Some (Effect c' fn')) /\
  context_at c entered = Some (context s ++ [o]) /\
  (forall w1, run fuel fn entered = Some (Normal w1) ->
     execute (S fuel) o w = Some (Normal (pop_context c w1)) /\
     (context_at c w1 = context_at c entered ->
      context_at c (pop_context c w1) = context_at c w)) /\
  (forall e w1, run fuel fn entered = Some (Thrown e w1) ->
     execute (S fuel) o w = Some (Thrown e w1) /\
     (context_at c w1 = context_at c entered ->
      context_at c w1 = Some (context s ++ [o]))) /\
  (passive fn ->
     exists fuel' out, execute fuel' o w = Some out /\
       match out with
       | Normal w' => context_at c w' = context_at c w
       | Thrown _ w' => context_at c w' = Some (context s ++ [o])
       end).
Proof.
  intros Ho Hc. cbv zeta.
  assert (Hent : context_at c (push_context c o (mark o w))
                 = Some (context s ++ [o])).
  { by apply context_at_push. }
  split.
  { intros c' fn' w0. split; [done|]. unfold fresh. simpl.
    by apply list_lookup_middle. }
  assert (Hpop : forall w1, context_at c w1 = Some (context s ++ [o]) ->
            context_at c (pop_context c w1) = context_at c w).
  { intros w1. unfold context_at, pop_context. rewrite cells_alter_cell.
    rewrite decide_True by done. intros H1.
    destruct (cells w1 !! c) as [s1|]; [|done]. simpl in *.
    rewrite Hc. simpl. injection H1 as ->. by rewrite removelast_last. }
  split; [done|]. split; [|split].
  - intros w1 Hr. split; [by rewrite execute_unfold, Ho, Hr|].
    rewrite Hent. apply Hpop.
  - intros e w1 Hr. split; [by rewrite execute_unfold, Ho, Hr|].
    by rewrite Hent.
  - intros Hp.
    destruct (passive_run fn Hp (push_context c o (mark o w)))
      as (fuel' & out1 & Hr & _ & _ & _ & _ & Hcells).
    destruct (Hcells c (with_context (fun ctx => ctx ++ [o]) s))
      as (s1 & Hs1 & _ & _ & _ & Hctx & _).
    { unfold push_context. by apply cells_alter_cell_eq. }
    assert (Hleft : context_at c (world_of out1) = Some (context s ++ [o])).
    { unfold context_at. rewrite Hs1. simpl. by rewrite Hctx. }
    destruct out1 as [w1|e w1]; cbn [world_of] in *.
    + exists (S fuel'), (Normal (pop_context c w1)).
      split; [by rewrite execute_unfold, Ho, Hr|]. by apply Hpop.
    + exists (S fuel'), (Thrown e w1).
      split; [by rewrite execute_unfold, Ho, Hr|]. done.
Qed.

Lemma execute_effect_bracket_witness :
  exists w', execute 4 0 effect_allocated = Some (Normal w') /\
    context_at 0 w' = context_at 0 effect_allocated.
Proof.
  destruct (execute_effect_bracket 3 0 0 counting effect_allocated _
              eq_refl eq_refl) as (_ & _ & H & _).
  eexists. destruct (H _ eq_refl) as [Hex Hctx].
  split; [exact Hex|]. apply Hctx. reflexivity.
Defined.

(** C2, as stated, fails: an effect created on cell 0 whose function reads
    cell 1 runs, and is not subscribed to cell 1. *)
Lemma effect_not_subscribed_to_other_cell :
  exists w', createEffect 5 0 reads_other two_cells = Some (Normal w') /\
    trace w' = [0] /\
    subscriptions_at 0 w' = Some [] /\
    subscriptions_at 1 w' = Some [].
Proof. eexists. split; [vm_compute; reflexivity|]. done. Qed.

(** C2, amended. While its function runs, an effect created on cell [c] is
    on the context stack of [c] only: a [read()] of [c] made while it is on
    top of that stack subscribes it to [c]; a [read()] of another cell looks
    at that cell's own stack and subscribes the effect only if it is on top
    there.  An effect that is subscribed to a cell stays subscribed whatever
    code runs afterwards: no method of the cell removes it. *)
Theorem effect_subscribes_on_own_cell (w : World) (o : ObsId) (c : CellId)
    (fn : Prog) (s : Signal) :
  heap w !! o = Some (Effect c fn) ->
  cells w !! c = Some s ->
  let entered := push_context c o (mark o w) in
  (exists s1, cells entered !! c = Some s1 /\ last (context s1) = Some o) /\
  (forall w1 s1, cells w1 !! c = Some s1 -> last (context s1) = Some o ->
     let w2 := alter_cell (fun _ => (read s1).2) c w1 in
     subscribed o c w2 /\
     forall fuel k, run (S fuel) (Read c k) w1 = run fuel (k (value s1)) w2) /\
  (forall d sd, d <> c -> cells w !! d = Some sd ->
     cells entered !! d = Some sd /\
     (last (context sd) <> Some o ->
      (Some o ∈ subscriptions (read sd).2 <-> Some o ∈ subscriptions sd))) /\
  (forall d, subscribed o d w ->
     forall fuel p out, run fuel p w = Some out -> subscribed o d (world_of out)).
Proof.
  intros Ho Hc. cbv zeta. split; [|split; [|split]].
  - exists (with_context (fun ctx => ctx ++ [o]) s).
    split; [unfold push_context; by apply cells_alter_cell_eq|apply last_snoc].
  - intros w1 s1 Hc1 Htop. split.
    + exists (read s1).2.
      split; [by rewrite (cells_alter_cell_eq _ _ _ s1)|].
      rewrite read_subscriptions, Htop. apply set_add_elem. by right.
    + intros fuel k. rewrite run_Read, Hc1.
      pose proof (read_value s1) as Hv. destruct (read s1) as [v s'].
      simpl in *. by subst.
  - intros d sd Hne Hd. split.
    + unfold push_context. by rewrite cells_alter_cell_ne.
    + intros Htop. rewrite read_subscriptions.
      destruct (last (context sd)) as [o'|]; [|done].
      rewrite set_add_elem. split; [|by left]. intros [H| ->]; done.
  - intros d Hsub fuel p out Hr.
    eapply effect_stays_subscribed; eauto using run_evolves.
Qed.

Lemma effect_subscribes_on_own_cell_witness :
  exists w', createEffect 5 0 counting cell10 = Some (Normal w') /\
    subscribed 0 0 w' /\
    forall out, run 9 (Write 0 (VNum 5) Done) w' = Some out ->
      subscribed 0 0 (world_of out).
Proof.
  eexists. split; [vm_compute; reflexivity|].
  match goal with |- subscribed 0 0 ?w' /\ _ =>
    destruct (effect_subscribes_on_own_cell w' 0 0 counting _ eq_refl eq_refl)
      as (_ & _ & _ & H) end.
  assert (Hsub : subscribed 0 0
    {| cells := [{| value := VNum 10; validators := []; parsers := [];
                    subscriptions := [Some 0]; context := [] |}];
       heap := [Effect 0 counting]; console := []; journal := [1];
       trace := [0] |}).
  { eexists. split; [reflexivity|]. apply list_elem_of_here. }
  split; [exact Hsub|]. intros out Hr. exact (H 0 Hsub 9 _ out Hr).
Defined.

(** C3, as stated, fails: with a throwing observer subscribed before a
    second one, an accepted [write(5)] updates the value from 10 to 5, runs
    the first observer and throws; the second observer is never executed.
    The write has neither fully committed nor fully rejected. *)
Lemma write_partial_commit :
  exists w', write 5 0 (VNum 5) thrower_then_counter = Some (Thrown boom w') /\
    value_at 0 thrower_then_counter = Some (VNum 10) /\
    value_at 0 w' = Some (VNum 5) /\
    subscribed 1 0 thrower_then_counter /\
    executed_since thrower_then_counter w' = [0] /\
    ~ fully_committed 0 (VNum 5) thrower_then_counter (Thrown boom w') /\
    ~ fully_rejected 0 thrower_then_counter (Thrown boom w').
Proof.
  eexists. split; [vm_compute; reflexivity|].
  assert (Hsub : subscribed 1 0 thrower_then_counter).
  { eexists. split; [reflexivity|]. simpl. apply list_elem_of_further, list_elem_of_here. }
  repeat (split; [done|]). split.
  - intros [_ H]. specialize (H 1 Hsub). vm_compute in H.
    apply list_elem_of_singleton in H. discriminate.
  - intros [[w'' H] _]. discriminate.
Qed.

(** C3, amended. A write in which a parse stage throws returns normally,
    after one [console.error], with the cell untouched and nothing
    executed.  After the parse stages the validators are called.  When one
    of them throws, the exception leaves [write], which has reported,
    committed and notified nothing.  When they return and something they
    returned is not [true], [write] returns normally after one
    [console.error] and has itself committed nothing and executed no
    observer: it leaves the state the validators left, which is the state
    before the call when the validators return at once, without acting.
    When they all return [true], [write] sets the value to the parsed value
    and then runs the notification loop; when the loop completes without an
    observer throwing, every observer subscribed at that point has been
    executed.  In a world whose cells store allocated observers only and
    whose context stacks are empty (no effect is running and none has left
    a frame behind), with validators that return [true] at once and
    observers that do not call back into the cells, the write terminates
    with the parsed value in the cell and the subscribed observers
    executed in registration order, once each: all of them, or those up to
    the first one that throws. *)
Theorem write_rejects_or_commits (fuel : nat) (c : CellId) (raw : val)
    (w : World) (s : Signal) :
  cells w !! c = Some s ->
  (forall pre stage post v message,
     parsers s = pre ++ stage :: post ->
     parse_all pre raw = Parsed v -> stage v = ParseError message ->
     let line := [CVal (VStr message)] in
     write (S fuel) c raw w = Some (Normal (console_error line w)) /\
     fully_rejected c w (Normal (console_error line w))) /\
  (forall v e w1,
     parse_all (parsers s) raw = Parsed v ->
     validationResults (run fuel) c (validators s) v w = Some (Throws e w1) ->
     write (S fuel) c raw w = Some (Thrown e w1)) /\
  (forall v rs w1 r,
     parse_all (parsers s) raw = Parsed v ->
     validationResults (run fuel) c (validators s) v w = Some (Returns rs w1) ->
     r ∈ rs -> r <> VBool true ->
     let line := [CVal (VStr "Validation errors:"); CArr (validation_errors rs)] in
     write (S fuel) c raw w = Some (Normal (console_error line w1)) /\
     fully_rejected c w1 (Normal (console_error line w1))) /\
  (forall v rs validator r,
     parse_all (parsers s) raw = Parsed v ->
     answers s v rs ->
     validator ∈ validators s -> validator (value s) v = Answer r ->
     r <> VBool true ->
     let line := [CVal (VStr "Validation errors:"); CArr (validation_errors rs)] in
     write (S fuel) c raw w = Some (Normal (console_error line w)) /\
     fully_rejected c w (Normal (console_error line w))) /\
  (forall v rs w1,
     parse_all (parsers s) raw = Parsed v ->
     validationResults (run fuel) c (validators s) v w = Some (Returns rs w1) ->
     (forall r, r ∈ rs -> r = VBool true) ->
     write (S fuel) c raw w = notify fuel c 0 (commit c v w1) /\
     value_at c (commit c v w1) = Some v /\
     (forall w', write (S fuel) c raw w = Some (Normal w') ->
        forall o, subscribed o c w' -> o ∈ executed_since w1 w')) /\
  (forall v,
     parse_all (parsers s) raw = Parsed v ->
     accepts s v ->
     write (S fuel) c raw w = notify fuel c 0 (commit c v w) /\
     value_at c (commit c v w) = Some v /\
     (forall w', write (S fuel) c raw w = Some (Normal w') ->
        forall o, subscribed o c w' -> o ∈ executed_since w w') /\
     (wf w = true -> clean w -> heap_passive w ->
        (exists fuel' out, write fuel' c raw w = Some out) /\
        (forall fuel' out, write fuel' c raw w = Some out ->
           notified_in_order c v w s out))).
Proof.
  intros Hc. split; [|split; [|split; [|split; [|split]]]].
  - intros pre stage post v message Hps Hpre Hst.
    split; [|apply console_error_rejected].
    eapply write_parse_error; [done|]. rewrite Hps.
    by eapply parse_all_stage_throws.
  - intros v e w1 Hp Hval. by eapply write_validator_throws.
  - intros v rs w1 r Hp Hval Hin Hne. split; [|apply console_error_rejected].
    eapply write_validated_errors; eauto using rejecting_result.
  - intros v rs validator r Hp Ha Hin Hr Hne.
    split; [|apply console_error_rejected].
    eapply write_validation_errors; eauto.
    eapply rejecting_result; [|exact Hne]. by eapply answers_elem.
  - intros v rs w1 Hp Hval Hall. apply validation_errors_nil in Hall.
    pose proof (write_validated _ _ _ _ _ _ _ _ Hc Hp Hval Hall) as Hw.
    destruct (evolves_cell w w1 c s) as [s1 Hs1]; [|done|].
    { exact (validationResults_evolves _ _ _ _ _ _ Hval). }
    split; [done|]. split; [by eapply value_at_commit|].
    intros w' Hw' o (s' & Hs' & Ho). rewrite Hw in Hw'.
    apply list_elem_of_lookup in Ho as [j Hj].
    change (executed_since w1 w') with (executed_since (commit c v w1) w').
    apply (notify_normal_executes fuel c 0 (commit c v w1) w' Hw' j o s');
      [lia|done|done].
  - intros v Hp Hall.
    split; [by eapply write_accepted|]. split; [by eapply value_at_commit|].
    split; [intros w' Hw; by eapply write_normal_executes|].
    intros Hwf Hclean Hpassive. split.
    + destruct (write_passive_terminates c raw w s v) as (f & out & Hw & _);
        eauto.
    + intros fuel' out Hw. by eapply write_passive.
Qed.

Lemma write_rejects_or_commits_witness :
  write 1 0 (VStr "ten") checked_cell =
    Some (Normal (console_error [CVal (VStr "Invalid number")] checked_cell)) /\
  write 1 0 (VNum 200) checked_cell =
    Some (Normal (console_error
      [CVal (VStr "Validation errors:"); CArr [VStr "Value must be below 100."]]
      checked_cell)) /\
  write 2 0 (VNum 41) checked_cell = Some (Normal (commit 0 (VNum 42) checked_cell)) /\
  write 2 0 (VNum 5) throwing_validator_cell
    = Some (Thrown TypeError throwing_validator_cell).
Proof.
  split; [|split; [|split]].
  - destruct (write_rejects_or_commits 0 0 (VStr "ten") checked_cell _ eq_refl)
      as (H & _).
    apply (H [] number_stage [total_stage successor_stage] (VStr "ten")
             "Invalid number"%string); reflexivity.
  - destruct (write_rejects_or_commits 0 0 (VNum 200) checked_cell _ eq_refl)
      as (_ & _ & _ & H & _).
    apply (H (VNum 201) [VBool true; VBool true; VStr "Value must be below 100."]
             below_hundred (VStr "Value must be below 100."));
      [reflexivity|by repeat constructor| |reflexivity|discriminate].
    do 2 apply list_elem_of_further. apply list_elem_of_here.
  - destruct (write_rejects_or_commits 1 0 (VNum 41) checked_cell _ eq_refl)
      as (_ & _ & _ & _ & _ & H).
    destruct (H (VNum 42) eq_refl) as (Hw & _); [by repeat constructor|].
    rewrite Hw. reflexivity.
  - destruct (write_rejects_or_commits 1 0 (VNum 5) throwing_validator_cell _
                eq_refl) as (_ & H & _).
    apply (H (VNum 5)); reflexivity.
Defined.

(** C4, as stated, fails: the first subscribed observer, when it reads a
    value other than 0, writes 0 back and then throws; a second observer is
    subscribed after it.  An accepted [write(5)] throws out of the first
    observer, and the cell holds 0, not the parsed value 5; the second
    observer, which comes after the failing one, has been executed, by the
    write that the first observer made. *)
Lemma write_observer_failure_value_lost :
  exists w', write 14 0 (VNum 5) reset_then_throw_subscribed = Some (Thrown boom w') /\
    parse_all [] (VNum 5) = Parsed (VNum 5) /\
    validators <$> cells reset_then_throw_subscribed = [[]] /\
    subscriptions_at 0 reset_then_throw_subscribed = Some [Some 0; Some 1] /\
    value_at 0 w' = Some (VNum 0) /\
    executed_since reset_then_throw_subscribed w' = [0; 0; 1] /\
    journal w' = [2].
Proof. eexists. split; [vm_compute; reflexivity|]. done. Qed.

(** C4, amended. In a write that the parse stages accept and whose
    validators all return [true] at once, an observer whose [execute]
    throws ends the notification loop at once: the exception leaves
    [write], whose final state is the state that observer left, so nothing
    is rolled back and the loop executes no further observer; the observers
    subscribed at the entries before it have been executed.  The cell holds
    the parsed value provided no closure, observer or validator, writes
    this cell.  In a world whose cells store allocated observers only and
    whose context stacks are empty (no effect is running and none has left
    a frame behind), when the observers do not call back into the cells,
    the cell holds the parsed value and the observers executed are exactly
    those registered before the failing one, in order, and the failing
    one. *)
Theorem write_observer_failure (fuel : nat) (c : CellId) (raw : val)
    (w : World) (s : Signal) (v : val) :
  cells w !! c = Some s ->
  parse_all (parsers s) raw = Parsed v ->
  accepts s v ->
  (forall i o wi si e wt,
     cells wi !! c = Some si -> subscriptions si !! i = Some (Some o) ->
     execute fuel o wi = Some (Thrown e wt) ->
     notify (S fuel) c i wi = Some (Thrown e wt)) /\
  (forall e w', write (S fuel) c raw w = Some (Thrown e w') ->
     (exists j o wj sj,
        evolves (commit c v w) wj /\ cells wj !! c = Some sj /\
        subscriptions sj !! j = Some (Some o) /\
        execute (pred (fuel - j)) o wj = Some (Thrown e w') /\
        (forall k o', k < j -> subscriptions sj !! k = Some (Some o') ->
           o' ∈ executed_since w wj)) /\
     (code_avoids (eq c) w -> value_at c w' = Some v) /\
     (wf w = true -> clean w -> heap_passive w ->
        value_at c w' = Some v /\
        exists pre o post,
          members (subscriptions s) = pre ++ o :: post /\
          executed_since w w' = pre ++ [o])).
Proof.
  intros Hc Hp Hall. split.
  - intros i o wi si e wt Hci Hi Hex. by rewrite notify_unfold, Hci, Hi, Hex.
  - intros e w' Hw. split.
    + rewrite (write_accepted _ _ _ _ _ _ Hc Hp Hall) in Hw.
      assert (Hcell : is_Some (cells (commit c v w) !! c)).
      { unfold commit. rewrite (cells_alter_cell_eq _ _ _ s) by done. eauto. }
      destruct (notify_thrown fuel c 0 (commit c v w) e w' Hw Hcell)
        as (j & o & wj & sj & _ & Hev & Hsj & Hj & Hex & Hbefore).
      exists j, o, wj, sj. rewrite Nat.sub_0_r in Hex.
      repeat (split; [done|]). intros k o' Hk Hsk.
      apply (Hbefore k o'); [lia|done].
    + split.
      * intros Hh.
        apply (accepted_write_keeps_value fuel c raw w s v (Thrown e w')); done.
      * intros Hwf Hclean Hpassive.
        destruct (write_passive c raw w s v (S fuel) (Thrown e w'))
          as (Hval & _ & Hexec); done.
Qed.

Lemma write_observer_failure_witness :
  exists w', write 5 0 (VNum 5) thrower_then_counter = Some (Thrown boom w') /\
    value_at 0 w' = Some (VNum 5) /\
    exists pre o post,
      [0; 1] = pre ++ o :: post /\
      executed_since thrower_then_counter w' = pre ++ [o].
Proof.
  eexists. split; [vm_compute; reflexivity|].
  destruct (write_observer_failure 4 0 (VNum 5) thrower_then_counter _ (VNum 5)
              eq_refl eq_refl (Forall_nil_2 _)) as (_ & H).
  destruct (H boom _ eq_refl) as (_ & _ & Hp). apply Hp.
  - reflexivity.
  - intros [|c] s Hc; vm_compute in Hc; simplify_eq; done.
  - intros [|[|o]] ob Hl; vm_compute in Hl; simplify_eq; done.
Defined.

(** C5, as stated, fails: with an observer subscribed that writes 0 back
    whenever it sees another value, an accepted [write(5)] returns normally
    and the [read()] that follows returns 0. *)
Lemma write_then_read_overwritten :
  exists w' s', write 12 0 (VNum 5) resetter_subscribed = Some (Normal w') /\
    parse_all [] (VNum 5) = Parsed (VNum 5) /\
    validators <$> cells resetter_subscribed = [[]] /\
    cells w' !! 0 = Some s' /\
    (read s').1 = VNum 0.
Proof. do 2 eexists. split; [vm_compute; reflexivity|]. done. Qed.

(** C5, amended. For a raw input that every parse stage accepts and for
    which every validator returns [true] at once, [write] commits the fully
    parsed value, which is the left-to-right fold of the stages over the
    input, each stage fed the output of the one before (the input itself
    when there is no stage), before it notifies; a cell without validators
    accepts every parsed input.  A [read()] that follows the write returns
    that value provided no closure, observer or validator, writes this
    cell.  With no observer subscribed the write returns at once; in a
    world whose cells store allocated observers only and whose context
    stacks are empty (no effect is running and none has left a frame
    behind), with observers that do not call back into the cells, the write
    terminates and the [read()] returns the parsed value. *)
Theorem write_then_read (fuel : nat) (c : CellId) (raw : val)
    (w : World) (s : Signal) (v : val) :
  cells w !! c = Some s ->
  parse_all (parsers s) raw = Parsed v ->
  accepts s v ->
  fold_parsers (parsers s) raw = Parsed v /\
  (forall raw', parse_all (parsers s) raw' = fold_parsers (parsers s) raw') /\
  (forall stages, parsers s = total_stage <$> stages ->
     v = fold_stages stages raw) /\
  (parsers s = [] -> v = raw) /\
  (validators s = [] -> forall raw' v',
     parse_all (parsers s) raw' = Parsed v' ->
     write (S fuel) c raw' w = notify fuel c 0 (commit c v' w)) /\
  write (S fuel) c raw w = notify fuel c 0 (commit c v w) /\
  (exists s1, cells (commit c v w) !! c = Some s1 /\ (read s1).1 = v) /\
  (forall out, code_avoids (eq c) w ->
     write (S fuel) c raw w = Some out ->
     exists s', cells (world_of out) !! c = Some s' /\ (read s').1 = v) /\
  (members (subscriptions s) = [] -> length (subscriptions s) <= fuel ->
     write (S (S fuel)) c raw w = Some (Normal (commit c v w))) /\
  (wf w = true -> clean w -> heap_passive w ->
     exists fuel' out s', write fuel' c raw w = Some out /\
       cells (world_of out) !! c = Some s' /\ (read s').1 = v).
Proof.
  intros Hc Hp Hall.
  split; [by rewrite <- parse_all_fold|].
  split; [intros raw'; apply parse_all_fold|].
  split; [|split; [|split; [|split; [|split; [|split; [|split]]]]]].
  - intros stages Hst. rewrite Hst, parse_all_total in Hp. by injection Hp.
  - intros Hnil. rewrite Hnil in Hp. simpl in Hp. by injection Hp.
  - intros Hnil raw' v' Hp'. eapply write_accepted; [done|done|].
    by apply accepts_no_validators.
  - by eapply write_accepted.
  - exists (with_value v s). split; [by apply cells_alter_cell_eq|].
    by rewrite read_value.
  - intros out Hh Hw.
    pose proof (accepted_write_keeps_value _ _ _ _ _ _ _ Hc Hp Hall Hh Hw) as Hv.
    unfold value_at in Hv. destruct (cells (world_of out) !! c) as [s'|]; [|done].
    exists s'. split; [done|]. rewrite read_value. by injection Hv.
  - intros Hm Hlen. rewrite (write_accepted _ _ _ _ _ _ Hc Hp Hall).
    apply (notify_no_members fuel c 0 (commit c v w) (with_value v s)).
    + by apply cells_alter_cell_eq.
    + done.
    + simpl. lia.
  - intros Hwf Hclean Hpassive.
    destruct (write_passive_terminates c raw w s v)
      as (f & out & Hw & Hval & _); [done..|].
    unfold value_at in Hval.
    destruct (cells (world_of out) !! c) as [s'|] eqn:Hs'; [|done].
    exists f, out, s'. split; [done|]. split; [done|].
    rewrite read_value. by injection Hval.
Qed.

Lemma write_then_read_witness :
  exists w' s', write 2 0 (VNum 41) checked_cell = Some (Normal w') /\
    cells w' !! 0 = Some s' /\ (read s').1 = VNum 42.
Proof.
  destruct (write_then_read 0 0 (VNum 41) checked_cell _ (VNum 42)
              eq_refl eq_refl) as (_ & _ & _ & _ & _ & _ & _ & _ & H & _).
  { by repeat constructor. }
  do 2 eexists. split; [apply H; [reflexivity|simpl; lia]|].
  split; reflexivity.
Defined.

(** C6, as stated, fails: the validators are called outside any [try], each
    with the value the cell holds at that moment.  When the first validator
    throws, as a validator of the repository does on a new state that is
    not an object, [write] throws: the second validator, which counts its
    calls, is never called, no rejection is collected and nothing is
    reported.  And when the first validator writes the cell, the second one
    is called with the value that write left, 0, and not with the value 10
    that the first one was given: it rejects, although it accepts the pair
    of 10 and 5. *)
Lemma validator_throw_skips_the_rest :
  write 2 0 (VNum 5) throwing_validator_cell
    = Some (Thrown TypeError throwing_validator_cell) /\
  journal throwing_validator_cell = [] /\
  console throwing_validator_cell = [] /\
  (journal <$> (world_of <$>
     write 3 0 (VNum 5)
       (empty_world [new_Signal (VNum 10) [counting_validator] []])))
    = Some [7] /\
  old_is_ten (VNum 10) (VNum 5) = Answer (VBool true) /\
  exists w', write 4 0 (VNum 5) zeroing_validator_cell = Some (Normal w') /\
    console w' = [[CVal (VStr "Validation errors:");
                   CArr [VStr "Old value must be 10."]]] /\
    value_at 0 w' = Some (VNum 0).
Proof.
  split; [vm_compute; reflexivity|]. split; [reflexivity|].
  split; [reflexivity|]. split; [vm_compute; reflexivity|].
  split; [reflexivity|].
  eexists. split; [vm_compute; reflexivity|]. split; reflexivity.
Qed.

(** C6, amended. Once the parse stages have succeeded, the validators are
    called in order, each with the value the cell holds when it is called
    and with the parsed value.  A validator that throws ends the write at
    once: the exception leaves [write], the validators after it are not
    called, and nothing is collected, reported or committed.  When all of
    them return, they have been called once each, and what they returned
    other than [true] is all collected; the write goes on to the commit
    exactly when nothing was collected, and otherwise one call of
    [console.error] carries all that was collected and [write] commits
    nothing.  Validators that return at once, without acting, are all given
    the same pair, the value the cell held before the write and the parsed
    value, and leave the cell alone. *)
Theorem validation_collects_all (fuel : nat) (c : CellId) (raw : val)
    (w : World) (s : Signal) (v : val) :
  cells w !! c = Some s ->
  parse_all (parsers s) raw = Parsed v ->
  (forall pre validator post rs1 w1 s1,
     validators s = pre ++ validator :: post ->
     validationResults (run fuel) c pre v w = Some (Returns rs1 w1) ->
     cells w1 !! c = Some s1 ->
     (forall e w2,
        check (run fuel) (validator (value s1) v) w1 = Some (Throws e w2) ->
        validationResults (run fuel) c (validators s) v w = Some (Throws e w2) /\
        write (S fuel) c raw w = Some (Thrown e w2)) /\
     (forall r w2,
        check (run fuel) (validator (value s1) v) w1 = Some (Returns r w2) ->
        validationResults (run fuel) c (validators s) v w =
        match validationResults (run fuel) c post v w2 with
        | Some (Returns rs2 w3) => Some (Returns (rs1 ++ r :: rs2) w3)
        | other => other
        end)) /\
  (forall rs w1,
     validationResults (run fuel) c (validators s) v w = Some (Returns rs w1) ->
     length rs = length (validators s) /\
     (forall r, r ∈ validation_errors rs <-> r ∈ rs /\ r <> VBool true) /\
     (validation_errors rs = [] ->
        write (S fuel) c raw w = notify fuel c 0 (commit c v w1) /\
        value_at c (commit c v w1) = Some v) /\
     (validation_errors rs <> [] ->
        let line := [CVal (VStr "Validation errors:");
                     CArr (validation_errors rs)] in
        write (S fuel) c raw w = Some (Normal (console_error line w1)) /\
        console (console_error line w1) = console w1 ++ [line] /\
        fully_rejected c w1 (Normal (console_error line w1)))) /\
  (forall rs, answers s v rs ->
     validationResults (run fuel) c (validators s) v w = Some (Returns rs w) /\
     length rs = length (validators s) /\
     (forall i validator, validators s !! i = Some validator ->
        exists r, rs !! i = Some r /\ validator (value s) v = Answer r) /\
     (validation_errors rs = [] ->
        write (S fuel) c raw w = notify fuel c 0 (commit c v w)) /\
     (validation_errors rs <> [] ->
        let line := [CVal (VStr "Validation errors:");
                     CArr (validation_errors rs)] in
        write (S fuel) c raw w = Some (Normal (console_error line w)) /\
        fully_rejected c w (Normal (console_error line w)))).
Proof.
  intros Hc Hp. split; [|split].
  - intros pre validator post rs1 w1 s1 Hvs Hpre Hs1.
    assert (Hstep : validationResults (run fuel) c (validators s) v w =
              match check (run fuel) (validator (value s1) v) w1 with
              | Some (Returns r w2) =>
                  match validationResults (run fuel) c post v w2 with
                  | Some (Returns rs2 w3) => Some (Returns (rs1 ++ r :: rs2) w3)
                  | other => other
                  end
              | Some (Throws e w2) => Some (Throws e w2)
              | None => None
              end).
    { rewrite Hvs, validationResults_app, Hpre. simpl. rewrite Hs1.
      destruct (check (run fuel) (validator (value s1) v) w1)
        as [[r w2|e w2]|]; [|done|done].
      by destruct (validationResults (run fuel) c post v w2) as [[rs2 w3|e w3]|]. }
    split.
    + intros e w2 Hch. rewrite Hch in Hstep. split; [done|].
      by eapply write_validator_throws.
    + intros r w2 Hch. by rewrite Hch in Hstep.
  - intros rs w1 Hval.
    split; [by eapply validationResults_length|].
    split; [apply validation_errors_elem|].
    destruct (evolves_cell w w1 c s) as [s1 Hs1]; [|done|].
    { exact (validationResults_evolves _ _ _ _ _ _ Hval). }
    split.
    + intros Hv. split; [by eapply write_validated|by eapply value_at_commit].
    + intros Hv. split; [by eapply write_validated_errors|].
      split; [done|apply console_error_rejected].
  - intros rs Ha.
    split; [by apply validationResults_answers|].
    split; [by eapply answers_length|].
    split; [intros i validator Hi; by eapply answers_lookup|].
    split.
    + intros Hv. eapply write_accepted; [done|done|]. by eapply answers_accepts.
    + intros Hv. split; [by eapply write_validation_errors|].
      apply console_error_rejected.
Qed.

Lemma validation_collects_all_witness :
  write 1 0 (VNum (-5)) checked_cell =
  Some (Normal (console_error
    [CVal (VStr "Validation errors:");
     CArr [VStr "Value must not be negative."; VStr "Value must increase."]]
    checked_cell)).
Proof.
  destruct (validation_collects_all 0 0 (VNum (-5)) checked_cell _ (VNum (-4))
              eq_refl eq_refl) as (_ & _ & H).
  destruct (H [VStr "Value must not be negative."; VStr "Value must increase.";
               VBool true]) as (_ & _ & _ & _ & Hw); [by repeat constructor|].
  apply Hw. discriminate.
Defined.

(** C7, as stated, fails: the cell holds 5 and [write(5)] is accepted, but
    the first subscribed observer throws, so the second subscribed observer
    is not re-executed by this write. *)
Lemma write_same_value_partial :
  exists w', write 5 0 (VNum 5) thrower_then_counter5 = Some (Thrown boom w') /\
    value_at 0 thrower_then_counter5 = Some (VNum 5) /\
    subscribed 1 0 thrower_then_counter5 /\
    executed_since thrower_then_counter5 w' = [0].
Proof.
  eexists. split; [vm_compute; reflexivity|]. split; [done|]. split; [|done].
  eexists. split; [reflexivity|]. simpl.
  apply list_elem_of_further, list_elem_of_here.
Qed.

(** C7, amended. There is no equality short-circuit: a write whose parsed
    value is the current value, and for which the validators return [true]
    at once, runs the same notification loop as any accepted write, from
    the first entry of the subscriptions; the first subscribed observer is
    executed, the next ones follow as long as those before them return, and
    when the loop completes without an observer throwing, every observer
    subscribed at that point has been executed.  In a world whose cells
    store allocated observers only and whose context stacks are empty (no
    effect is running and none has left a frame behind), when the observers
    do not call back into the cells, the write terminates with the
    subscribed observers executed in registration order, once each: all of
    them, or those up to the first one that throws. *)
Theorem write_same_value_notifies (fuel : nat) (c : CellId) (raw : val)
    (w : World) (s : Signal) :
  cells w !! c = Some s ->
  parse_all (parsers s) raw = Parsed (value s) ->
  accepts s (value s) ->
  commit c (value s) w = w /\
  write (S fuel) c raw w = notify fuel c 0 w /\
  (forall o, subscriptions s !! 0 = Some (Some o) ->
     write (S (S fuel)) c raw w =
     match execute fuel o w with
     | Some (Normal w') => notify fuel c 1 w'
     | other => other
     end) /\
  (forall w', write (S fuel) c raw w = Some (Normal w') ->
     forall o, subscribed o c w' -> o ∈ executed_since w w') /\
  (wf w = true -> clean w -> heap_passive w ->
     (exists fuel' out, write fuel' c raw w = Some out) /\
     (forall fuel' out, write fuel' c raw w = Some out ->
        notified_in_order c (value s) w s out)).
Proof.
  intros Hc Hp Hv.
  pose proof (commit_same_value c w s Hc) as Hsame.
  split; [done|]. split; [|split; [|split]].
  - by rewrite (write_accepted _ _ _ _ _ _ Hc Hp Hv), Hsame.
  - intros o Ho.
    by rewrite (write_accepted _ _ _ _ _ _ Hc Hp Hv), Hsame, notify_unfold, Hc, Ho.
  - intros w' Hw. by eapply write_normal_executes.
  - intros Hwf Hclean Hpassive. split.
    + destruct (write_passive_terminates c raw w s (value s))
        as (f & out & Hw & _); eauto.
    + intros fuel' out Hw. by eapply write_passive.
Qed.

Lemma write_same_value_notifies_witness :
  exists w', write 7 0 (VNum 5) counted_twice = Some (Normal w') /\
    journal w' = [1; 1; 1] /\ 0 ∈ executed_since counted_twice w'.
Proof.
  destruct (write_same_value_notifies 6 0 (VNum 5) counted_twice _
              eq_refl eq_refl (Forall_nil_2 _)) as (_ & _ & _ & H & _).
  eexists. split; [vm_compute; reflexivity|]. split; [reflexivity|].
  apply H; [vm_compute; reflexivity|].
  eexists. split; [reflexivity|]. apply list_elem_of_here.
Defined.

(** C8. [read()] is idempotent: any number of consecutive calls returns the
    same current value and leaves it unchanged; from the first call on the
    cell no longer changes, so the observer on top of the context stack is
    registered once, by at most one new entry and without duplicating a
    member; with an empty context stack the cell does not change at all. *)
Theorem read_idempotent (s : Signal) (k : nat) :
  (read (reads k s)).1 = value s /\
  value (reads k s) = value s /\
  context (reads k s) = context s /\
  reads (S k) s = (read s).2 /\
  (read (read s).2).2 = (read s).2 /\
  (forall o, last (context s) = Some o ->
     subscriptions (read s).2 = set_add o (subscriptions s) /\
     Some o ∈ subscriptions (read s).2 /\
     (Some o ∈ subscriptions s -> subscriptions (read s).2 = subscriptions s) /\
     (Some o ∉ subscriptions s ->
        subscriptions (read s).2 = subscriptions s ++ [Some o]) /\
     (NoDup (members (subscriptions s)) ->
        NoDup (members (subscriptions (reads (S k) s))))) /\
  (last (context s) = None -> reads k s = s).
Proof.
  assert (Hv : forall n, value (reads n s) = value s).
  { induction n as [|n IH]; [done|].
    change (reads (S n) s) with ((read (reads n s)).2).
    by rewrite read_keeps_value. }
  assert (Hc : forall n, context (reads n s) = context s).
  { induction n as [|n IH]; [done|].
    change (reads (S n) s) with ((read (reads n s)).2).
    by rewrite read_keeps_context. }
  split; [by rewrite read_value|]. split; [done|]. split; [done|].
  split; [apply reads_succ|]. split; [apply read_twice|]. split.
  - intros o Ho.
    assert (Hs : subscriptions (read s).2 = set_add o (subscriptions s)).
    { by rewrite read_subscriptions, Ho. }
    split; [done|]. rewrite Hs. split; [apply set_add_elem; by right|].
    split; [apply set_add_present|]. split; [apply set_add_absent|].
    intros Hnd. rewrite reads_succ. change (reads 1 s) with ((read s).2).
    rewrite Hs. by apply set_add_NoDup.
  - intros Hnone. induction k as [|k IH]; [done|].
    rewrite reads_succ. change (reads 1 s) with ((read s).2).
    unfold read. by rewrite Hnone.
Qed.



(** C10. A verdict counts as acceptance only when it is strictly [true]:
    whenever the validators return, anything they returned other than
    [true], truthy values such as 1, an object or the string "true"
    included, is collected as a rejection, and the write then neither
    commits nor notifies; the write goes on to the commit when every
    validator returns exactly [true]. *)
Theorem only_true_accepts (fuel : nat) (c : CellId) (raw : val)
    (w : World) (s : Signal) (v : val) :
  cells w !! c = Some s ->
  parse_all (parsers s) raw = Parsed v ->
  (forall rs w1 r,
     validationResults (run fuel) c (validators s) v w = Some (Returns rs w1) ->
     r ∈ rs -> r <> VBool true ->
     let line := [CVal (VStr "Validation errors:"); CArr (validation_errors rs)] in
     r ∈ validation_errors rs /\
     write (S fuel) c raw w = Some (Normal (console_error line w1)) /\
     fully_rejected c w1 (Normal (console_error line w1))) /\
  (forall rs w1,
     validationResults (run fuel) c (validators s) v w = Some (Returns rs w1) ->
     (forall r, r ∈ rs -> r = VBool true) ->
     write (S fuel) c raw w = notify fuel c 0 (commit c v w1)) /\
  (forall rs validator r,
     answers s v rs ->
     validator ∈ validators s -> validator (value s) v = Answer r ->
     r <> VBool true ->
     let line := [CVal (VStr "Validation errors:"); CArr (validation_errors rs)] in
     r ∈ validation_errors rs /\
     write (S fuel) c raw w = Some (Normal (console_error line w)) /\
     fully_rejected c w (Normal (console_error line w))) /\
  ((forall validator, validator ∈ validators s ->
      validator (value s) v = Answer (VBool true)) ->
     write (S fuel) c raw w = notify fuel c 0 (commit c v w)) /\
  (forall r, not_strictly_true r = false <-> r = VBool true) /\
  (truthy (VNum 1) = true /\ not_strictly_true (VNum 1) = true) /\
  (forall ref, truthy (VObj ref) = true /\ not_strictly_true (VObj ref) = true) /\
  (truthy (VStr "true") = true /\ not_strictly_true (VStr "true") = true).
Proof.
  intros Hc Hp. split; [|split; [|split; [|split; [|split; [|done]]]]].
  - intros rs w1 r Hval Hin Hne.
    split; [by apply validation_errors_elem|].
    split; [|apply console_error_rejected].
    eapply write_validated_errors; eauto using rejecting_result.
  - intros rs w1 Hval Hall. eapply write_validated; eauto.
    by apply validation_errors_nil.
  - intros rs validator r Ha Hin Hr Hne.
    assert (Hrs : r ∈ rs) by (by eapply answers_elem).
    split; [by apply validation_errors_elem|].
    split; [|apply console_error_rejected].
    eapply write_validation_errors; eauto using rejecting_result.
  - intros Hall. eapply write_accepted; eauto.
    unfold accepts. by apply Forall_forall.
  - intros r. destruct r as [| |[|]| | |]; split; done.
Qed.

Lemma only_true_accepts_witness :
  write 1 0 (VNum 5) truthy_cell =
  Some (Normal (console_error
    [CVal (VStr "Validation errors:"); CArr [VNum 1]] truthy_cell)).
Proof.
  destruct (only_true_accepts 0 0 (VNum 5) truthy_cell _ (VNum 5)
              eq_refl eq_refl) as (_ & _ & H & _).
  destruct (H [VNum 1] truthy_validator (VNum 1)) as (_ & Hw & _).
  - by repeat constructor.
  - apply list_elem_of_here.
  - reflexivity.
  - discriminate.
  - exact Hw.
Defined.

(** * The scenarios of the specification *)

(** Scenario B: the effect runs at [createEffect], at [write(5)] and again
    at the second, identical [write(5)]. *)
Example scenario_b :
  run 9 (CreateEffect 0 counting (fun _ => Write 0 (VNum 5) Done)) cell10
  = Some (Normal counted_twice) /\
  (journal <$> (world_of <$> write 7 0 (VNum 5) counted_twice)) = Some [1; 1; 1].
Proof. split; vm_compute; reflexivity. Qed.

(** Observers are notified in the order in which they were registered. *)
Example notification_order :
  run 12 (Subscribe 0 (Emit 1 Done) (fun _ =>
          Subscribe 0 (Emit 2 Done) (fun _ =>
          Subscribe 0 (Emit 3 Done) (fun _ =>
          Write 0 (VNum 5) Done)))) cell10
  = Some (Normal
      {| cells := [{| value := VNum 5; validators := []; parsers := [];
                      subscriptions := [Some 0; Some 1; Some 2];
                      context := [] |}];
         heap := [Subscription 0 (Emit 1 Done); Subscription 0 (Emit 2 Done);
                  Subscription 0 (Emit 3 Done)];
         console := []; journal := [1; 2; 3]; trace := [0; 1; 2] |}).
Proof. vm_compute. reflexivity. Qed.

(** An observer that is added while the loop runs is reached by the loop;
    one that is deleted before the loop reaches it is skipped. *)
Example live_iteration :
  (journal <$> (world_of <$>
     run 12 (Subscribe 0 (Subscribe 0 (Emit 2 Done) (fun _ => Done)) (fun _ =>
             Write 0 (VNum 5) Done)) cell10)) = Some [2] /\
  (journal <$> (world_of <$>
     run 12 (Subscribe 0 (Unsubscribe 1 Done) (fun _ =>
             Subscribe 0 (Emit 2 Done) (fun _ =>
             Write 0 (VNum 5) Done))) cell10)) = Some [].
Proof. split; vm_compute; reflexivity. Qed.

(** Scenario C: [subscribe] does not call [fn]; a write does; after the
    unsubscribe function has been called, a write no longer does, and a
    second call of the unsubscribe function is harmless. *)
Example scenario_c :
  (journal <$> (world_of <$>
     run 12 (Subscribe 0 (Emit 1 Done) (fun unsubscribe =>
             Write 0 (VNum 1) (Unsubscribe unsubscribe (
             Write 0 (VNum 2) (Unsubscribe unsubscribe (
             Write 0 (VNum 3) Done)))))) cell10)) = Some [1].
Proof. vm_compute. reflexivity. Qed.

(** A frame left behind by an effect that threw disturbs a later
    notification: [createEffect] of a throwing function is caught, a
    subscription that reads the cell is added, and [write(5)] runs it; its
    [read()] registers the failed effect, which is on top of the stack, the
    loop reaches the new entry and executes the effect, and the write
    throws, with a second frame left on the stack. *)
Example stale_frame_disturbs_notification :
  exists w',
    run 12 (TryCatch (CreateEffect 0 thrower (fun _ => Done)) (fun _ => Done)
              (Subscribe 0 counting (fun _ => Write 0 (VNum 5) Done))) cell10
    = Some (Thrown boom w') /\
    trace w' = [0; 1; 0] /\
    subscriptions_at 0 w' = Some [Some 1; Some 0] /\
    context_at 0 w' = Some [0; 0] /\
    value_at 0 w' = Some (VNum 5).
Proof. eexists. split; [vm_compute; reflexivity|]. repeat split. Qed.

(** * Further properties of the cell *)

(** ** Observers stay on the cell they were made on *)

Lemma homed_same w w' :
  cells w' = cells w -> heap w' = heap w -> homed w -> homed w'.
Proof.
  intros Hc Hh H c s Hs. rewrite Hc in Hs. destruct (H c s Hs) as [H1 H2].
  split; intros o Ho; rewrite Hh; auto.
Qed.

Lemma homed_alter_cell f c w :
  homed w ->
  (forall s, cells w !! c = Some s ->
     (forall o, Some o ∈ subscriptions (f s) ->
        Some o ∈ subscriptions s \/
        exists ob, heap w !! o = Some ob /\ home ob = c) /\
     (forall o, o ∈ context (f s) ->
        o ∈ context s \/ exists fn, heap w !! o = Some (Effect c fn))) ->
  homed (alter_cell f c w).
Proof.
  intros Hw Hf d s' Hd. rewrite cells_alter_cell in Hd.
  destruct (decide (c = d)) as [<-|Hne]; [|exact (Hw d s' Hd)].
  destruct (cells w !! c) as [s|] eqn:Hc; [|done].
  simpl in Hd. injection Hd as <-.
  destruct (Hw c s Hc) as [H1 H2]. destruct (Hf s eq_refl) as [F1 F2].
  split; intros o Ho; simpl.
  - destruct (F1 o Ho) as [?|?]; auto.
  - destruct (F2 o Ho) as [?|?]; auto.
Qed.

Lemma homed_alloc ob w : homed w -> homed (alloc ob w).
Proof.
  intros H c s Hs. destruct (H c s Hs) as [H1 H2]. split; intros o Ho; simpl.
  - destruct (H1 o Ho) as (ob' & Hob & Hhome). exists ob'.
    split; [by apply lookup_app_l_Some|done].
  - destruct (H2 o Ho) as (fn & Hfn). exists fn. by apply lookup_app_l_Some.
Qed.

Lemma homed_all fuel :
  (forall p w out, homed w -> run fuel p w = Some out -> homed (world_of out)) /\
  (forall c v w out, homed w -> write fuel c v w = Some out ->
     homed (world_of out)) /\
  (forall c i w out, homed w -> notify fuel c i w = Some out ->
     homed (world_of out)) /\
  (forall o w out, invocable o w -> homed w -> execute fuel o w = Some out ->
     homed (world_of out)) /\
  (forall c fn w out, homed w -> createEffect fuel c fn w = Some out ->
     homed (world_of out)).
Proof.
  destruct (invariant_all (fun _ => False) homed) with (fuel := fuel)
    as (Hrun & Hwrite & Hnotify & Hexecute & Hcreate).
  - intros x w. by apply homed_same.
  - intros c s w Hw Hc. apply homed_alter_cell; [done|]. intros s' Hs'.
    assert (s' = s) as -> by congruence.
    rewrite read_subscriptions, read_keeps_context. split; [|by left].
    intros o Ho. destruct (last (context s)) as [o'|] eqn:Hl; [|by left].
    apply set_add_elem in Ho as [Ho| ->]; [by left|]. right.
    destruct (Hw c s Hc) as [_ Hctx].
    destruct (Hctx o' (last_Some_elem_of _ _ Hl)) as (fn & Hfn).
    by exists (Effect c fn).
  - intros l w. by apply homed_same.
  - intros c v w _ Hw. apply homed_alter_cell; [done|]. intros s _.
    split; intros o Ho; by left.
  - intros o w Hw _. eapply homed_same; [..|exact Hw]; done.
  - intros c o fn w Hw Ho. apply homed_alter_cell; [done|]. intros s _. simpl.
    split; [by left|]. intros o' Ho'.
    apply elem_of_app in Ho' as [Ho'|Ho']; [by left|]. right.
    apply list_elem_of_singleton in Ho' as ->. by exists fn.
  - intros c w Hw. apply homed_alter_cell; [done|]. intros s _. simpl.
    split; [by left|]. intros o Ho. left. by apply removelast_subset.
  - intros c fn w. apply homed_alloc.
  - intros c fn w Hw _. unfold subscribe.
    apply homed_alter_cell; [by apply homed_alloc|]. intros s _. simpl.
    split; [|by left]. intros o Ho.
    apply set_add_elem in Ho as [Ho| ->]; [by left|]. right.
    exists (Subscription c fn). split; [|done].
    unfold fresh. by rewrite lookup_app_r, Nat.sub_diag.
  - intros h c fn w Hw Hh. unfold unsubscribe. rewrite Hh.
    apply homed_alter_cell; [done|]. intros s _. simpl. split; [|by left].
    intros o Ho. apply set_delete_elem in Ho as [Ho _]. by left.
  - assert (forall w, homed w -> homed w /\ code_avoids (fun _ => False) w) as I
      by (intros w Hw; exact (conj Hw (code_avoids_nothing w))).
    split; [|split; [|split; [|split]]].
    + intros p w out Hw Hr.
      exact (proj1 (Hrun p w out (avoids_nothing p) (I w Hw) Hr)).
    + intros c v w out Hw Hr.
      exact (proj1 (Hwrite c v w out (fun F => F) (I w Hw) Hr)).
    + intros c i w out Hw Hr. exact (proj1 (Hnotify c i w out (I w Hw) Hr)).
    + intros o w out Ho Hw Hr.
      exact (proj1 (Hexecute o w out Ho (I w Hw) Hr)).
    + intros c fn w out Hw Hr.
      exact (proj1 (Hcreate c fn w out (avoids_nothing fn) (I w Hw) Hr)).
Qed.

Lemma pristine_spec s : pristine s = true <-> subscriptions s = [] /\ context s = [].
Proof.
  unfold pristine. destruct (subscriptions s), (context s); split;
    try done; by intros [? ?].
Qed.

Lemma pristine_homed w : forallb pristine (cells w) = true -> homed w.
Proof.
  intros H c s Hc. rewrite forallb_forall in H.
  assert (pristine s = true) as Hs.
  { apply H, list_elem_of_In. by eapply list_elem_of_lookup_2. }
  apply pristine_spec in Hs as [-> ->].
  split; intros o Ho; by apply elem_of_nil in Ho.
Qed.

(** ** No observer is registered twice *)

Lemma set_delete_NoDup o (es : list (option nat)) :
  NoDup (members es) -> NoDup (members (set_delete o es)).
Proof.
  induction es as [|[x|] es IH]; simpl; [done| |done].
  rewrite NoDup_cons. intros [Hx Hnd].
  destruct (Nat.eqb x o) eqn:Hxo; simpl; [by apply IH|].
  apply NoDup_cons. split; [|by apply IH].
  rewrite elem_of_members, set_delete_elem. intros [Hin _].
  by apply Hx, elem_of_members.
Qed.

Lemma distinct_same w w' : cells w' = cells w -> distinct w -> distinct w'.
Proof. intros Hc H c s Hs. rewrite Hc in Hs. by eapply H. Qed.

Lemma distinct_alter_cell f c w :
  distinct w ->
  (forall s, cells w !! c = Some s -> NoDup (members (subscriptions s)) ->
     NoDup (members (subscriptions (f s)))) ->
  distinct (alter_cell f c w).
Proof.
  intros Hw Hf d s' Hd. rewrite cells_alter_cell in Hd.
  destruct (decide (c = d)) as [<-|Hne]; [|exact (Hw d s' Hd)].
  destruct (cells w !! c) as [s|] eqn:Hc; [|done].
  simpl in Hd. injection Hd as <-. apply Hf; [done|]. by eapply Hw.
Qed.

Lemma distinct_all fuel :
  (forall p w out, distinct w -> run fuel p w = Some out ->
     distinct (world_of out)) /\
  (forall c v w out, distinct w -> write fuel c v w = Some out ->
     distinct (world_of out)) /\
  (forall c i w out, distinct w -> notify fuel c i w = Some out ->
     distinct (world_of out)) /\
  (forall o w out, invocable o w -> distinct w -> execute fuel o w = Some out ->
     distinct (world_of out)) /\
  (forall c fn w out, distinct w -> createEffect fuel c fn w = Some out ->
     distinct (world_of out)).
Proof.
  destruct (invariant_all (fun _ => False) distinct) with (fuel := fuel)
    as (Hrun & Hwrite & Hnotify & Hexecute & Hcreate).
  - intros x w. by apply distinct_same.
  - intros c s w Hw Hc. apply distinct_alter_cell; [done|]. intros s' Hs' Hnd.
    rewrite read_subscriptions. assert (s' = s) as -> by congruence.
    destruct (last (context s)); [by apply set_add_NoDup|done].
  - intros l w. by apply distinct_same.
  - intros c v w _ Hw. apply distinct_alter_cell; [done|]. by intros s _.
  - intros o w Hw _. by eapply distinct_same; [|exact Hw].
  - intros c o fn w Hw _. apply distinct_alter_cell; [done|]. by intros s _.
  - intros c w Hw. apply distinct_alter_cell; [done|]. by intros s _.
  - intros c fn w. by apply distinct_same.
  - intros c fn w Hw _. unfold subscribe.
    apply distinct_alter_cell; [by eapply distinct_same; [|exact Hw]|].
    intros s _ Hnd. simpl. by apply set_add_NoDup.
  - intros h c fn w Hw Hh. unfold unsubscribe. rewrite Hh.
    apply distinct_alter_cell; [done|]. intros s _ Hnd. simpl.
    by apply set_delete_NoDup.
  - assert (forall w, distinct w ->
              distinct w /\ code_avoids (fun _ => False) w) as I
      by (intros w Hw; exact (conj Hw (code_avoids_nothing w))).
    split; [|split; [|split; [|split]]].
    + intros p w out Hw Hr.
      exact (proj1 (Hrun p w out (avoids_nothing p) (I w Hw) Hr)).
    + intros c v w out Hw Hr.
      exact (proj1 (Hwrite c v w out (fun F => F) (I w Hw) Hr)).
    + intros c i w out Hw Hr. exact (proj1 (Hnotify c i w out (I w Hw) Hr)).
    + intros o w out Ho Hw Hr.
      exact (proj1 (Hexecute o w out Ho (I w Hw) Hr)).
    + intros c fn w out Hw Hr.
      exact (proj1 (Hcreate c fn w out (avoids_nothing fn) (I w Hw) Hr)).
Qed.

Lemma pristine_distinct w : forallb pristine (cells w) = true -> distinct w.
Proof.
  intros H c s Hc. rewrite forallb_forall in H.
  assert (pristine s = true) as Hs.
  { apply H, list_elem_of_In. by eapply list_elem_of_lookup_2. }
  apply pristine_spec in Hs as [-> _]. apply NoDup_nil_2.
Qed.

(** X1. An observer is only ever registered with the cell it was made on.
    In a world in which every subscription entry names an observer made on
    that cell ([createEffect] or [subscribe] called on it) and every context
    frame one of the cell's own effects, which is so when the cells are
    fresh from their constructor, this is still so after any client code has
    run, whether it returned or threw: an effect is never subscribed to a
    cell other than the one it was created on, whatever cells its function
    reads. *)
Theorem observers_stay_home (fuel : nat) (p : Prog) (w : World) (out : Outcome) :
  homed w ->
  run fuel p w = Some out ->
  homed (world_of out) /\
  (forall o c fn d, heap (world_of out) !! o = Some (Effect c fn) ->
     subscribed o d (world_of out) -> d = c) /\
  (forall o c fn d, heap (world_of out) !! o = Some (Subscription c fn) ->
     subscribed o d (world_of out) -> d = c).
Proof.
  intros Hw Hr.
  assert (homed (world_of out)) as Hout
    by exact (proj1 (homed_all fuel) p w out Hw Hr).
  split; [done|].
  split; intros o c fn d Ho (s & Hs & Hin);
    destruct (Hout d s Hs) as [H1 _];
    destruct (H1 o Hin) as (ob & Hob & Hhome);
    rewrite Ho in Hob; injection Hob as <-; done.
Qed.

Lemma observers_stay_home_witness :
  exists out,
    run 8 effect_and_subscription two_cells = Some out /\
    homed (world_of out).
Proof.
  eexists. split; [vm_compute; reflexivity|].
  refine (proj1 (observers_stay_home 8 effect_and_subscription two_cells _ _ _)).
  - by apply pristine_homed.
  - vm_compute; reflexivity.
Defined.

(** X2. The subscriptions of a cell never hold an observer twice.  Starting
    from cells whose subscription sets have no duplicate member, which is so
    when they are fresh from their constructor, no client code, however
    often its effects read their cell or are executed again, makes an
    observer a member of a subscription set a second time. *)
Theorem subscriptions_stay_distinct (fuel : nat) (p : Prog) (w : World)
    (out : Outcome) :
  distinct w ->
  run fuel p w = Some out ->
  distinct (world_of out).
Proof. intros Hw Hr. exact (proj1 (distinct_all fuel) p w out Hw Hr). Qed.

Lemma subscriptions_stay_distinct_witness :
  exists w', run 20 effect_run_thrice cell10 = Some (Normal w') /\
    trace w' = [0; 0; 0] /\
    subscriptions_at 0 w' = Some [Some 0] /\
    distinct w'.
Proof.
  eexists. split; [vm_compute; reflexivity|].
  split; [reflexivity|]. split; [reflexivity|].
  refine (subscriptions_stay_distinct 20 effect_run_thrice cell10 (Normal _) _ _).
  - by apply pristine_distinct.
  - vm_compute; reflexivity.
Defined.

(** ** Each observer is executed once *)




(** ** An effect that reads its cell *)

Lemma write_evolves fuel c v w out :
  write fuel c v w = Some out -> evolves w (world_of out).
Proof.
  intros H. destruct (evolves_all fuel w) as (_ & Hw & _).
  eapply Hw; [apply evolves_refl|done].
Qed.




(** ** The frame left by an effect that throws *)

Lemma read_keeps_pipeline s :
  parsers (read s).2 = parsers s /\ validators (read s).2 = validators s.
Proof. unfold read. by destruct (last (context s)). Qed.

Lemma accepts_read s v : accepts s v -> accepts (read s).2 v.
Proof.
  unfold accepts. destruct (read_keeps_pipeline s) as [_ ->].
  by rewrite read_keeps_value.
Qed.

(** X5. The frame that a throwing effect leaves on the context stack makes
    the next [read()] of the cell, made outside any effect, subscribe that
    effect.  When [createEffect(fn)] throws on a cell with an empty stack,
    for an [fn] that does not call back into the cells' mutators, the stack
    holds the new effect, which was never handed to the caller; a [read()]
    of the cell then returns the value and registers the effect, and an
    accepted write made after that read, one that the parse stages accept
    and for which the validators return [true] at once, has executed it
    when it returns. *)
Theorem failed_effect_registered_by_read (fuel : nat) (c : CellId) (fn : Prog)
    (w : World) (s : Signal) (e : val) (w1 : World) :
  cells w !! c = Some s ->
  context s = [] ->
  passive fn ->
  createEffect fuel c fn w = Some (Thrown e w1) ->
  exists s1,
    cells w1 !! c = Some s1 /\
    context s1 = [fresh w] /\
    value s1 = value s /\
    (forall n k, run (S n) (Read c k) w1 =
       run n (k (value s)) (alter_cell (fun _ => (read s1).2) c w1)) /\
    subscribed (fresh w) c (alter_cell (fun _ => (read s1).2) c w1) /\
    (forall n raw v w3,
       parse_all (parsers s1) raw = Parsed v ->
       accepts s1 v ->
       write n c raw (alter_cell (fun _ => (read s1).2) c w1) = Some (Normal w3) ->
       fresh w ∈ executed_since (alter_cell (fun _ => (read s1).2) c w1) w3).
Proof.
  intros Hc Hctx Hp Hce.
  set (o := fresh w) in *. set (wa := alloc (Effect c fn) w).
  assert (Hheap : heap wa !! o = Some (Effect c fn)).
  { unfold wa, o, fresh. simpl. by apply list_lookup_middle. }
  assert (Hrun : exists m, run m fn (push_context c o (mark o wa))
                           = Some (Thrown e w1)).
  { destruct fuel as [|[|m]]; [done|done|]. exists m.
    change (execute (S m) o wa = Some (Thrown e w1)) in Hce.
    rewrite execute_unfold, Hheap in Hce.
    destruct (run m fn (push_context c o (mark o wa))) as [[w'|e' w']|]; done. }
  destruct Hrun as (m & Hrun).
  destruct (passive_run fn Hp (push_context c o (mark o wa)))
    as (m' & out' & Hrun' & Hq).
  assert (out' = Thrown e w1) as ->.
  { pose proof (run_fuel_le m (m `max` m') _ _ _ Hrun ltac:(lia)) as H1.
    pose proof (run_fuel_le m' (m `max` m') _ _ _ Hrun' ltac:(lia)) as H2.
    congruence. }
  cbn [world_of] in Hq. destruct Hq as (Hh & _ & _ & _ & Hcells).
  destruct (Hcells c (with_context (fun ctx => ctx ++ [o]) s))
    as (s1 & Hs1 & Hval & _ & _ & Hctx1 & _).
  { unfold push_context. by apply cells_alter_cell_eq. }
  simpl in Hval, Hctx1. rewrite Hctx in Hctx1. simpl in Hctx1.
  exists s1. split; [done|]. split; [done|]. split; [done|].
  set (w2 := alter_cell (fun _ => (read s1).2) c w1).
  assert (Hs2 : cells w2 !! c = Some (read s1).2).
  { unfold w2. by rewrite (cells_alter_cell_eq _ _ _ s1). }
  assert (Hsub : subscribed o c w2).
  { exists (read s1).2. split; [done|].
    rewrite read_subscriptions, Hctx1. simpl. apply set_add_elem. by right. }
  split; [|split; [done|]].
  - intros n k. rewrite run_Read, Hs1.
    pose proof (read_value s1) as Hv. destruct (read s1) as [v s'].
    simpl in *. subst v. by rewrite Hval.
  - intros n raw v w3 Hparse Hv Hw. destruct n as [|n]; [done|].
    eapply (write_normal_executes n c raw w2 (read s1).2 v w3); try done.
    + by destruct (read_keeps_pipeline s1) as [-> _].
    + by apply accepts_read.
    + eapply (effect_stays_subscribed w2 w3 o c fn c);
        [|exact (write_evolves _ _ _ _ _ Hw)|done].
      unfold w2. simpl. rewrite Hh. exact Hheap.
Qed.

Lemma failed_effect_registered_by_read_witness :
  createEffect 3 0 thrower cell10 = Some (Thrown boom failed_effect) /\
  exists s1, cells failed_effect !! 0 = Some s1 /\
    context s1 = [0] /\
    subscribed 0 0 (alter_cell (fun _ => (read s1).2) 0 failed_effect) /\
    forall w3,
      write 5 0 (VNum 5) (alter_cell (fun _ => (read s1).2) 0 failed_effect)
        = Some (Normal w3) ->
      0 ∈ executed_since (alter_cell (fun _ => (read s1).2) 0 failed_effect) w3.
Proof.
  split; [vm_compute; reflexivity|].
  destruct (failed_effect_registered_by_read 3 0 thrower cell10
              (new_Signal (VNum 10) [] []) boom failed_effect
              eq_refl eq_refl I ltac:(vm_compute; reflexivity))
    as (s1 & Hs1 & Hctx & _ & _ & Hsub & Hw).
  exists s1. split; [exact Hs1|]. split; [exact Hctx|]. split; [exact Hsub|].
  intros w3 H3. apply (Hw 5 (VNum 5) (VNum 5) w3); [| |exact H3].
  - injection Hs1 as <-. reflexivity.
  - injection Hs1 as <-. apply Forall_nil_2.
Defined.

(** ** The same function subscribed twice *)

Lemma heap_passive_alloc ob w :
  heap_passive w -> passive (body ob) -> heap_passive (alloc ob w).
Proof.
  intros Hw Hob o ob' Hl. simpl in Hl.
  apply lookup_app_Some in Hl as [Hl|[_ Hl]]; [by eapply Hw|].
  apply list_lookup_singleton_Some in Hl as [_ <-]. done.
Qed.

(** X6. Subscribing the same function twice makes two independent
    observers.  In a world whose cells store allocated observers only, the
    two calls of [subscribe] return different unsubscribe functions and
    append two entries to the subscriptions; calling the first unsubscribe
    function empties the first entry only and leaves the second observer
    subscribed.  While both are subscribed, in a world whose context stacks
    are empty (no effect is running and none has left a frame behind) and
    whose observers, the function included, do not call back into the
    cells, a write that the parse stages accept and for which the
    validators return [true] at once terminates, and when it returns it has
    executed, after the observers that were there before, the function
    twice, once for each. *)
Theorem same_function_subscribed_twice (w : World) (c : CellId) (fn : Prog)
    (s : Signal) :
  wf w = true ->
  cells w !! c = Some s ->
  let h1 := fresh w in
  let w1 := subscribe c fn w in
  let h2 := fresh w1 in
  let w2 := subscribe c fn w1 in
  h1 <> h2 /\
  heap w2 !! h1 = Some (Subscription c fn) /\
  heap w2 !! h2 = Some (Subscription c fn) /\
  subscriptions_at c w2 = Some (subscriptions s ++ [Some h1; Some h2]) /\
  subscriptions_at c (unsubscribe h1 w2)
    = Some (subscriptions s ++ [None; Some h2]) /\
  subscribed h2 c (unsubscribe h1 w2) /\
  (clean w -> heap_passive w -> passive fn ->
   forall raw v,
     parse_all (parsers s) raw = Parsed v -> accepts s v ->
     exists fuel out, write fuel c raw w2 = Some out /\
       forall w', out = Normal w' ->
         executed_since w2 w' = members (subscriptions s) ++ [h1; h2]).
Proof.
  intros Hwf Hc. cbv zeta.
  set (h1 := fresh w). set (w1 := subscribe c fn w).
  set (h2 := fresh w1). set (w2 := subscribe c fn w1).
  destruct (wf_cell w c s Hwf Hc) as [Hsubs _].
  assert (Hh2 : h2 = S h1).
  { unfold h2, h1, fresh, w1, subscribe. simpl. rewrite length_app. simpl. lia. }
  assert (Hfresh1 : Some h1 ∉ subscriptions s).
  { intros H. apply Hsubs in H. unfold h1, fresh in H. lia. }
  assert (Hfresh2 : Some h2 ∉ subscriptions s).
  { intros H. apply Hsubs in H. rewrite Hh2 in H. unfold h1, fresh in H. lia. }
  assert (Hc1 : cells w1 !! c = Some (with_subscriptions (set_add h1) s)).
  { unfold w1, subscribe. by apply cells_alter_cell_eq. }
  assert (Hc2 : cells w2 !! c
                = Some (with_subscriptions (set_add h2)
                          (with_subscriptions (set_add h1) s))).
  { unfold w2, subscribe. by apply cells_alter_cell_eq. }
  assert (Hsubs2 : set_add h2 (set_add h1 (subscriptions s))
                   = subscriptions s ++ [Some h1; Some h2]).
  { rewrite (set_add_absent h1) by done. rewrite set_add_absent.
    - by rewrite <- app_assoc.
    - rewrite elem_of_app, list_elem_of_singleton.
      intros [H|H]; [done|]. injection H as H. lia. }
  assert (Hheap1 : heap w2 !! h1 = Some (Subscription c fn)).
  { unfold w2, subscribe. simpl. apply lookup_app_l_Some. apply heap_subscribe. }
  assert (Hheap2 : heap w2 !! h2 = Some (Subscription c fn)).
  { apply heap_subscribe. }
  assert (Hc3 : cells (unsubscribe h1 w2) !! c
                = Some (with_subscriptions (set_delete h1)
                          (with_subscriptions (set_add h2)
                             (with_subscriptions (set_add h1) s)))).
  { unfold unsubscribe. rewrite Hheap1. by apply cells_alter_cell_eq. }
  assert (Hsubs3 : set_delete h1 (subscriptions s ++ [Some h1; Some h2])
                   = subscriptions s ++ [None; Some h2]).
  { unfold set_delete. rewrite fmap_app.
    fold (set_delete h1 (subscriptions s)). rewrite set_delete_absent by done.
    simpl. rewrite Nat.eqb_refl.
    destruct (Nat.eqb h2 h1) eqn:E; [|done]. apply Nat.eqb_eq in E. lia. }
  split; [lia|]. split; [done|]. split; [done|]. split.
  { unfold subscriptions_at. rewrite Hc2. simpl. by rewrite Hsubs2. }
  split.
  { unfold subscriptions_at. rewrite Hc3. simpl. by rewrite Hsubs2, Hsubs3. }
  split.
  { eexists. split; [exact Hc3|]. simpl. rewrite Hsubs2, Hsubs3.
    apply elem_of_app. right. apply list_elem_of_further, list_elem_of_here. }
  intros Hclean Hpassive Hfn raw v Hparse Hv.
  assert (Hrun : run 3 (Subscribe c fn (fun _ => Subscribe c fn (fun _ => Done))) w
                 = Some (Normal w2)).
  { rewrite run_Subscribe, Hc. rewrite run_Subscribe. fold w1. by rewrite Hc1. }
  assert (Hwf2 : wf w2 = true) by exact (wf_preserved 3 _ _ _ Hwf Hrun).
  assert (Hclean2 : clean w2).
  { intros d sd Hd. destruct (decide (c = d)) as [<-|Hne].
    - rewrite Hc2 in Hd. injection Hd as <-. simpl. by eapply Hclean.
    - unfold w2, subscribe in Hd. rewrite cells_alter_cell_ne in Hd by done.
      change (cells w1 !! d = Some sd) in Hd. unfold w1, subscribe in Hd.
      rewrite cells_alter_cell_ne in Hd by done. exact (Hclean d sd Hd). }
  assert (Hpassive2 : heap_passive w2).
  { unfold w2, subscribe. intros o ob Ho. simpl in Ho.
    apply lookup_app_Some in Ho as [Ho|[_ Ho]].
    - apply lookup_app_Some in Ho as [Ho|[_ Ho]]; [by eapply Hpassive|].
      by apply list_lookup_singleton_Some in Ho as [_ <-].
    - by apply list_lookup_singleton_Some in Ho as [_ <-]. }
  destruct (write_passive_terminates c raw w2 _ v Hc2 Hparse Hv Hwf2 Hclean2
              Hpassive2) as (fuel & out & Hw & _ & _ & Hex).
  exists fuel, out. split; [done|]. intros w' ->. rewrite Hex. simpl.
  rewrite Hsubs2, members_app. done.
Qed.

Lemma same_function_subscribed_twice_witness :
  subscriptions_at 0 (subscribe 0 (Emit 1 Done) counter_subscribed)
    = Some [Some 0; Some 1] /\
  subscriptions_at 0 (unsubscribe 0 (subscribe 0 (Emit 1 Done) counter_subscribed))
    = Some [None; Some 1] /\
  subscribed 1 0 (unsubscribe 0 (subscribe 0 (Emit 1 Done) counter_subscribed)).
Proof.
  destruct (same_function_subscribed_twice cell10 0 (Emit 1 Done)
              (new_Signal (VNum 10) [] []) eq_refl eq_refl)
    as (_ & _ & _ & H1 & H2 & H3 & _).
  split; [exact H1|]. split; [exact H2|exact H3].
Defined.

(** ** Unsubscribing while the cell notifies *)

Lemma dormant_all fuel h w0 :
  let Q w := dormant h w /\ trace w0 `prefix_of` trace w /\
             h ∉ executed_since w0 w in
  (forall p w out, Q w -> run fuel p w = Some out -> Q (world_of out)) /\
  (forall c i w out, Q w -> notify fuel c i w = Some out -> Q (world_of out)).
Proof.
  cbv zeta.
  destruct (invariant_all (fun _ => False)
    (fun w => dormant h w /\ trace w0 `prefix_of` trace w /\
              h ∉ executed_since w0 w)) with (fuel := fuel)
    as (Hrun & _ & Hnotify & _).
  - intros x w (Hd & Ht & He). split; [by eapply dormant_same|done].
  - intros c s w (Hd & Ht & He) Hc. split; [|done].
    apply dormant_alter_cell; [done|]. intros s' Hs' Hsub Hctx.
    assert (s' = s) as -> by congruence.
    rewrite read_subscriptions, read_keeps_context. split; [|done].
    destruct (last (context s)) as [o|] eqn:Hl; [|done].
    rewrite set_add_elem. intros [H| <-]; [done|].
    apply Hctx. by eapply last_Some_elem_of.
  - intros l w (Hd & Ht & He). split; [by eapply dormant_same|done].
  - intros c v w _ (Hd & Ht & He). split; [|done].
    apply dormant_alter_cell; [done|]. by intros s _ Hsub Hctx.
  - intros o w (Hd & Ht & He) Hinv.
    pose proof (dormant_not_invocable _ _ _ Hd Hinv) as Hne.
    split; [by eapply dormant_same|]. split.
    + simpl. etrans; [exact Ht|]. by apply prefix_app_r.
    + destruct Ht as [k Hk]. unfold executed_since in *. simpl.
      rewrite Hk in *. rewrite <- app_assoc. rewrite drop_app_length in *.
      rewrite not_elem_of_app. split; [done|].
      rewrite list_elem_of_singleton. congruence.
  - intros c o fn w (Hd & Ht & He) Ho. split; [|done].
    apply dormant_alter_cell; [done|]. intros s _ Hsub Hctx. simpl.
    split; [done|]. rewrite not_elem_of_app, list_elem_of_singleton.
    split; [done|]. intros ->. destruct Hd as [(c' & fn' & Hh) _]. congruence.
  - intros c w (Hd & Ht & He). split; [|done].
    apply dormant_alter_cell; [done|]. intros s _ Hsub Hctx. simpl.
    split; [done|]. intros H. by apply Hctx, removelast_subset.
  - intros c fn w (Hd & Ht & He). split; [by apply dormant_alloc|done].
  - intros c fn w (Hd & Ht & He) _. split; [|done]. unfold subscribe.
    apply dormant_alter_cell; [by apply dormant_alloc|].
    intros s _ Hsub Hctx. simpl. split; [|done].
    rewrite set_add_elem. intros [H|H]; [done|].
    destruct Hd as [(c' & fn' & Hh) _]. apply lookup_lt_Some in Hh.
    unfold fresh in H. lia.
  - intros h' c fn w (Hd & Ht & He) Hh'.
    unfold unsubscribe. rewrite Hh'. split; [|done].
    apply dormant_alter_cell; [done|]. intros s _ Hsub Hctx. simpl.
    split; [|done]. rewrite set_delete_elem. by intros [H _].
  - split.
    + intros p w out HQ Hr.
      exact (proj1 (Hrun p w out (avoids_nothing p)
                      (conj HQ (code_avoids_nothing w)) Hr)).
    + intros c i w out HQ Hr.
      exact (proj1 (Hnotify c i w out (conj HQ (code_avoids_nothing w)) Hr)).
Qed.

(** X7. The notification loop does not execute an observer that an
    earlier observer of the same loop has unsubscribed.  When the observer
    at an entry of the subscriptions returns and leaves a [subscribe]
    observer unsubscribed and on no context stack, the loop goes on from
    the next entry in the world that observer left, and nothing it does
    from there executes the unsubscribed observer, even though it was
    subscribed when the write began. *)
Theorem unsubscribed_during_notification (fuel : nat) (c : CellId) (i : nat)
    (w : World) (s : Signal) (a : ObsId) (w1 : World) (h : ObsId)
    (out : Outcome) :
  cells w !! c = Some s ->
  subscriptions s !! i = Some (Some a) ->
  execute fuel a w = Some (Normal w1) ->
  dormant h w1 ->
  notify (S fuel) c i w = Some out ->
  notify fuel c (S i) w1 = Some out /\
  (h ∉ executed_since w1 (world_of out)) /\
  dormant h (world_of out).
Proof.
  intros Hc Hi Ha Hd Hn. rewrite notify_unfold, Hc, Hi, Ha in Hn.
  split; [done|].
  destruct (dormant_all fuel h w1) as [_ Hnotify]. cbv zeta in Hnotify.
  destruct (Hnotify c (S i) w1 out) as (Hd' & _ & He); [|done|done].
  split; [done|]. split; [done|].
  unfold executed_since. rewrite drop_all. apply not_elem_of_nil.
Qed.

Lemma unsubscribed_during_notification_witness :
  exists w', write 6 0 (VNum 5) unsubscribing_first = Some (Normal w') /\
    subscribed 1 0 unsubscribing_first /\
    executed_since unsubscribing_first w' = [0] /\
    (1 ∉ executed_since
           (unsubscribe 1 (mark 0 (commit 0 (VNum 5) unsubscribing_first))) w').
Proof.
  eexists. split; [vm_compute; reflexivity|].
  split; [eexists; split; [reflexivity|]; simpl;
          apply list_elem_of_further, list_elem_of_here|].
  split; [reflexivity|].
  refine (proj1 (proj2 (unsubscribed_during_notification 4 0 0
                (commit 0 (VNum 5) unsubscribing_first)
                {| value := VNum 5; validators := []; parsers := [];
                   subscriptions := [Some 0; Some 1]; context := [] |}
                0 (unsubscribe 1 (mark 0 (commit 0 (VNum 5) unsubscribing_first)))
                1 (Normal _) eq_refl eq_refl _ _ _))).
  - vm_compute; reflexivity.
  - split; [by exists 0, (Emit 1 Done)|].
    intros c s Hc. destruct c as [|c]; [|done]. injection Hc as <-. simpl.
    split.
    + intros H. apply list_elem_of_In in H. simpl in H.
      destruct H as [H|[H|[]]]; discriminate H.
    + apply not_elem_of_nil.
  - vm_compute; reflexivity.
Defined.

(** * The advice toolkit *)

Import AOPToolkit.

(** X8. Advice that runs before or after a function cannot change what the
    function receives or what the caller gets.  When a function wrapped by
    [before], [after] or [afterReturning] returns, what it returns is what
    the target returned, and the target was called with the receiver and
    the arguments of the caller, whatever the advice returned: after the
    advice for [before], before it for the two others, the advice of
    [afterReturning] being given the result in front of the arguments. *)
Theorem advice_cannot_change_result {State : Type}
    (targetFunction advice : JsFunction State) (this : val) (args : list val)
    (st st' : State) (r : val) :
  (before targetFunction advice this args st = Some (Returned r st') ->
     exists a st1, advice this args st = Some (Returned a st1) /\
       targetFunction this args st1 = Some (Returned r st')) /\
  (after targetFunction advice this args st = Some (Returned r st') ->
     exists a st1, targetFunction this args st = Some (Returned r st1) /\
       advice this args st1 = Some (Returned a st')) /\
  (afterReturning targetFunction advice this args st = Some (Returned r st') ->
     exists a st1, targetFunction this args st = Some (Returned r st1) /\
       advice this (r :: args) st1 = Some (Returned a st')).
Proof.
  unfold before, after, afterReturning.
  split; [|split]; intros H; repeat case_match; simplify_eq; eauto.
Qed.

(** X9. A throw ends the wrapped call at once.  When the advice of [before]
    throws, the wrapped function throws the same error in the state the
    advice left, whatever the target is: the target is not called.  When
    the target throws, the functions made by [after] and [afterReturning]
    throw the same error in the state the target left, whatever the advice
    is: the advice is not called, so it is no [finally].  When the target
    returns and the advice of [after] or [afterReturning] throws, the
    wrapped function throws that error and the result is lost. *)
Theorem throw_ends_wrapped_call {State : Type}
    (targetFunction advice : JsFunction State) (this : val) (args : list val)
    (st : State) :
  (forall e st1, advice this args st = Some (Raised e st1) ->
     forall target, before target advice this args st = Some (Raised e st1)) /\
  (forall e st1, targetFunction this args st = Some (Raised e st1) ->
     forall adv,
       after targetFunction adv this args st = Some (Raised e st1) /\
       afterReturning targetFunction adv this args st = Some (Raised e st1)) /\
  (forall r st1 e st2, targetFunction this args st = Some (Returned r st1) ->
     (advice this args st1 = Some (Raised e st2) ->
        after targetFunction advice this args st = Some (Raised e st2)) /\
     (advice this (r :: args) st1 = Some (Raised e st2) ->
        afterReturning targetFunction advice this args st = Some (Raised e st2))).
Proof.
  unfold before, after, afterReturning. split; [|split].
  - intros e st1 H target. by rewrite H.
  - intros e st1 H adv. by rewrite H.
  - intros r st1 e st2 H. rewrite H. split; intros H'; by rewrite H'.
Qed.

(** X10. [afterThrowing] never swallows an error.  The wrapped function
    returns exactly when the target returns, with the same result and in the
    same state, the advice not being called.  When the target throws, the
    advice is called with the error in front of the arguments; when the
    advice returns, the wrapped function throws the error of the target,
    and when the advice throws, it throws the error of the advice. *)
Theorem afterThrowing_rethrows {State : Type}
    (targetFunction advice : JsFunction State) (this : val) (args : list val)
    (st : State) :
  (forall r st', afterThrowing targetFunction advice this args st
                   = Some (Returned r st') <->
                 targetFunction this args st = Some (Returned r st')) /\
  (forall e st1, targetFunction this args st = Some (Raised e st1) ->
     (forall a st2, advice this (e :: args) st1 = Some (Returned a st2) ->
        afterThrowing targetFunction advice this args st = Some (Raised e st2)) /\
     (forall e2 st2, advice this (e :: args) st1 = Some (Raised e2 st2) ->
        afterThrowing targetFunction advice this args st
          = Some (Raised e2 st2))) /\
  (afterThrowing targetFunction advice this args st = None <->
     targetFunction this args st = None \/
     exists e st1, targetFunction this args st = Some (Raised e st1) /\
       advice this (e :: args) st1 = None).
Proof.
  unfold afterThrowing. split; [|split].
  - intros r st'. split; intros H; repeat case_match; simplify_eq; eauto.
  - intros e st1 H. rewrite H. split; intros ? ? H'; by rewrite H'.
  - split.
    + intros H. repeat case_match; simplify_eq; eauto.
    + intros [H|(e & st1 & H & H')]; rewrite H; [done|]. by rewrite H'.
Qed.

(** X11. How the wrappers compose.  Advice added by [before] runs
    outermost first, and a stack of two is the single [before] advice that
    runs them in that order; advice added by [after] runs innermost first,
    and a stack of two is the single [after] advice that runs the inner
    one and then the outer one; a [before] advice and an [after] advice
    can be added in either order.  The order matters for [afterThrowing]:
    put around a function made by [before], its advice is called with an
    error thrown by the [before] advice; put inside, it is not. *)
Theorem wrappers_compose {State : Type}
    (f a b : JsFunction State) (this : val) (args : list val) (st : State) :
  before (before f a) b this args st = before f (before a b) this args st /\
  after (after f a) b this args st = after f (before b a) this args st /\
  after (before f a) b this args st = before (after f b) a this args st /\
  (forall e st1, a this args st = Some (Raised e st1) ->
     afterThrowing (before f a) b this args st =
       match b this (e :: args) st1 with
       | Some (Returned _ st2) => Some (Raised e st2)
       | other => other
       end /\
     before (afterThrowing f b) a this args st = Some (Raised e st1)).
Proof.
  unfold before, after, afterThrowing.
  split; [|split; [|split]].
  - by repeat case_match.
  - repeat case_match; by simplify_eq.
  - repeat case_match; by simplify_eq.
  - intros e st1 H. by rewrite H.
Qed.

(** * Parse stages *)

Lemma drop_white_space_clean l : starts_white (drop_white_space l) = false.
Proof.
  induction l as [|a l IH]; [done|]. simpl.
  destruct (is_white_space a) eqn:E; [done|]. simpl. done.
Qed.

Lemma drop_white_space_fixed l :
  starts_white l = false -> drop_white_space l = l.
Proof. destruct l as [|a l]; [done|]. simpl. by intros ->. Qed.

Lemma drop_white_space_split l :
  exists pre, l = pre ++ drop_white_space l /\ forallb is_white_space pre = true.
Proof.
  induction l as [|a l (pre & IH & Hpre)]; [by exists []|]. simpl.
  destruct (is_white_space a) eqn:E.
  - exists (a :: pre). split; [by rewrite IH at 1|]. simpl. by rewrite E, Hpre.
  - by exists [].
Qed.

Lemma trim_units_clean_end m :
  starts_white m = false ->
  starts_white (rev (drop_white_space (rev m))) = false.
Proof.
  intros Hm. destruct (drop_white_space_split (rev m)) as (pre & Hsplit & _).
  apply (f_equal (@rev _)) in Hsplit.
  rewrite rev_involutive, rev_app_distr in Hsplit.
  destruct (rev (drop_white_space (rev m))) as [|x xs]; [done|].
  rewrite Hsplit in Hm. done.
Qed.

Lemma trim_units_idem l : trim_units (trim_units l) = trim_units l.
Proof.
  unfold trim_units.
  rewrite (drop_white_space_fixed (rev (drop_white_space (rev (drop_white_space l))))).
  - rewrite rev_involutive.
    by rewrite (drop_white_space_fixed _ (drop_white_space_clean _)).
  - apply trim_units_clean_end, drop_white_space_clean.
Qed.

Lemma forallb_rev {A} (f : A -> bool) l :
  forallb f l = true -> forallb f (rev l) = true.
Proof.
  rewrite !forallb_forall. intros H x Hx. apply H. by apply in_rev.
Qed.

Lemma trim_units_split l :
  exists pre post, l = pre ++ trim_units l ++ post /\
    forallb is_white_space pre = true /\ forallb is_white_space post = true.
Proof.
  destruct (drop_white_space_split l) as (pre & Hl & Hpre).
  destruct (drop_white_space_split (rev (drop_white_space l)))
    as (post & Hm & Hpost).
  exists pre, (rev post). split; [|split; [done|by apply forallb_rev]].
  apply (f_equal (@rev _)) in Hm.
  rewrite rev_involutive, rev_app_distr in Hm.
  unfold trim_units. by rewrite <- Hm.
Qed.

Lemma trim_idem s : trim (trim s) = trim s.
Proof.
  unfold trim. by rewrite list_ascii_of_string_of_list_ascii, trim_units_idem.
Qed.

Lemma trim_not_padded s : padded (trim s) = false.
Proof.
  unfold padded, trim. rewrite list_ascii_of_string_of_list_ascii.
  apply orb_false_iff. split.
  - apply trim_units_clean_end, drop_white_space_clean.
  - unfold trim_units. rewrite rev_involutive. apply drop_white_space_clean.
Qed.

(** X12. [trimParser] removes white space from the two ends of a string
    and nothing else.  The code units of the input are those of the result
    between a run of white space in front and one behind, and the result
    neither begins nor ends with white space; a result of the stage is left
    as it is when it is parsed again; an input that is not a string is
    refused with "Input must be a string". *)
Theorem trimParser_strips_the_ends (input : val) :
  (forall s, input = VStr s ->
     trimParser input = Parsed (VStr (trim s)) /\
     padded (trim s) = false /\
     exists pre post,
       list_ascii_of_string s = pre ++ list_ascii_of_string (trim s) ++ post /\
       forallb is_white_space pre = true /\
       forallb is_white_space post = true) /\
  (forall v, trimParser input = Parsed v -> trimParser v = Parsed v) /\
  ((forall s, input <> VStr s) ->
     trimParser input = ParseError "Input must be a string").
Proof.
  split; [|split].
  - intros s ->. split; [done|]. split; [apply trim_not_padded|].
    unfold trim. rewrite list_ascii_of_string_of_list_ascii.
    apply trim_units_split.
  - intros v H. destruct input; try done. simpl in H. injection H as <-.
    simpl. by rewrite trim_idem.
  - intros H. destruct input; try done. by destruct (H s).
Qed.

Lemma lower_case_unit_idem a :
  lower_case_unit (lower_case_unit a) = lower_case_unit a.
Proof. by destruct a as [[] [] [] [] [] [] [] []]. Qed.

Lemma white_space_lower_case a :
  is_white_space a = true -> lower_case_unit a = a.
Proof. by destruct a as [[] [] [] [] [] [] [] []]. Qed.

Lemma toLowerCase_idem s : toLowerCase (toLowerCase s) = toLowerCase s.
Proof.
  unfold toLowerCase. rewrite list_ascii_of_string_of_list_ascii.
  f_equal. rewrite <- list_fmap_compose. apply list_fmap_ext.
  intros i a _. apply lower_case_unit_idem.
Qed.

Lemma starts_white_lower l :
  starts_white (lower_case_unit <$> l) = false -> starts_white l = false.
Proof.
  destruct l as [|a l]; [done|]. intros H.
  change (is_white_space (lower_case_unit a) = false) in H.
  change (is_white_space a = false).
  destruct (is_white_space a) eqn:E; [|done].
  rewrite (white_space_lower_case a E) in H. congruence.
Qed.

Lemma rev_fmap {A B} (f : A -> B) l : rev (f <$> l) = f <$> rev l.
Proof.
  induction l as [|a l IH]; [done|].
  change (rev (f <$> l) ++ [f a] = f <$> (rev l ++ [a])).
  by rewrite IH, fmap_app.
Qed.

Lemma toLowerCase_not_padded s : padded (toLowerCase s) = false -> padded s = false.
Proof.
  unfold padded, toLowerCase. rewrite list_ascii_of_string_of_list_ascii.
  rewrite !orb_false_iff. intros [H1 H2]. split.
  - by apply starts_white_lower.
  - apply starts_white_lower. by rewrite <- rev_fmap.
Qed.

Lemma bool_text_not_padded b : padded (bool_text b) = false.
Proof. by destruct b. Qed.

Lemma booleanParser_string s :
  booleanParser (VStr s) =
  if (toLowerCase s =? "true")%string then Parsed (VBool true)
  else if (toLowerCase s =? "false")%string then Parsed (VBool false)
  else ParseError "Invalid boolean".
Proof. done. Qed.

Lemma booleanParser_accepts_shape s r :
  booleanParser (VStr s) = Parsed r -> exists b, r = VBool b.
Proof.
  rewrite booleanParser_string. intros Hr. repeat case_match; simplify_eq; eauto.
Qed.

Lemma booleanParser_accepts s b :
  booleanParser (VStr s) = Parsed (VBool b) <-> toLowerCase s = bool_text b.
Proof.
  rewrite booleanParser_string.
  destruct (String.eqb_spec (toLowerCase s) "true") as [Ht|Ht].
  - rewrite Ht. destruct b; split; intros H; by simplify_eq.
  - destruct (String.eqb_spec (toLowerCase s) "false") as [Hf|Hf].
    + rewrite Hf. destruct b; split; intros H; by simplify_eq.
    + split; [done|]. intros H. destruct b; simpl in H; congruence.
Qed.

(** X13. [booleanParser] accepts the strings that read "true" or "false"
    once their letters are lower-cased, and nothing else.  What it returns
    is the boolean that the text names; an accepted string has no white
    space at either end, so a padded text is refused unless it is trimmed
    first; the case of the letters is irrelevant; and every input that is
    not a string is refused, the booleans included, so that the stage
    refuses its own results. *)
Theorem booleanParser_accepts_texts (input : val) :
  (forall r, booleanParser input = Parsed r ->
     exists s b, input = VStr s /\ r = VBool b /\
       toLowerCase s = bool_text b /\ padded s = false) /\
  (forall s b, toLowerCase s = bool_text b ->
     booleanParser (VStr s) = Parsed (VBool b)) /\
  (forall s, booleanParser (VStr (toLowerCase s)) = booleanParser (VStr s)) /\
  (forall r, booleanParser input = Parsed r ->
     booleanParser r = ParseError "Invalid input type for boolean parsing") /\
  ((forall s, input <> VStr s) ->
     booleanParser input = ParseError "Invalid input type for boolean parsing").
Proof.
  assert (Hshape : forall r, booleanParser input = Parsed r ->
            exists s b, input = VStr s /\ r = VBool b /\
              toLowerCase s = bool_text b).
  { intros r H. destruct input as [| | | |s|]; try done.
    rewrite booleanParser_string in H.
    destruct (String.eqb_spec (toLowerCase s) "true") as [Ht|Ht].
    - injection H as <-. by exists s, true.
    - destruct (String.eqb_spec (toLowerCase s) "false") as [Hf|Hf]; [|done].
      injection H as <-. by exists s, false. }
  split; [|split; [|split; [|split]]].
  - intros r H. destruct (Hshape r H) as (s & b & -> & -> & Hlow).
    exists s, b. split; [done|]. split; [done|]. split; [done|].
    apply toLowerCase_not_padded. rewrite Hlow. apply bool_text_not_padded.
  - intros s b. apply booleanParser_accepts.
  - intros s. by rewrite !booleanParser_string, toLowerCase_idem.
  - intros r H. by destruct (Hshape r H) as (s & b & -> & -> & _).
  - intros H. destruct input; try done. by destruct (H s).
Qed.

(** ** The two stages in a cell *)

Lemma parse_trim_boolean raw :
  parse_all [trimParser; booleanParser] raw =
  match raw with
  | VStr t => booleanParser (VStr (trim t))
  | _ => ParseError "Input must be a string"
  end.
Proof.
  destruct raw; try done. unfold parse_all, trimParser.
  by destruct (booleanParser (VStr (trim s))).
Qed.

(** X14. A cell built with the stages [trimParser, booleanParser] holds
    booleans and takes texts.  Whatever its pipeline lets through is a
    boolean; a text that reads "true" or "false" once trimmed and
    lower-cased goes on to validation as that boolean, and to the commit
    when the validators return [true] at once; any other string is
    rejected with "Invalid boolean" and any other input with "Input must be
    a string", the cell being left alone.  So a boolean is rejected too:
    once the cell holds one, writing back what [read()] returns is
    rejected. *)
Theorem boolean_cell_takes_texts (fuel : nat) (c : CellId) (w : World)
    (s : Signal) :
  cells w !! c = Some s ->
  parsers s = [trimParser; booleanParser] ->
  (forall raw v, parse_all (parsers s) raw = Parsed v -> exists b, v = VBool b) /\
  (forall t b, toLowerCase (trim t) = bool_text b ->
     parse_all (parsers s) (VStr t) = Parsed (VBool b) /\
     (accepts s (VBool b) ->
      write (S fuel) c (VStr t) w = notify fuel c 0 (commit c (VBool b) w))) /\
  (forall t, toLowerCase (trim t) <> "true"%string ->
     toLowerCase (trim t) <> "false"%string ->
     write (S fuel) c (VStr t) w =
     Some (Normal (console_error [CVal (VStr "Invalid boolean")] w))) /\
  (forall raw, (forall t, raw <> VStr t) ->
     write (S fuel) c raw w =
     Some (Normal (console_error [CVal (VStr "Input must be a string")] w))) /\
  (forall b, value s = VBool b ->
     write (S fuel) c (read s).1 w =
     Some (Normal (console_error [CVal (VStr "Input must be a string")] w))).
Proof.
  intros Hc Hps.
  assert (Hother : forall raw, (forall t, raw <> VStr t) ->
            write (S fuel) c raw w =
            Some (Normal (console_error [CVal (VStr "Input must be a string")] w))).
  { intros raw Hraw. apply (write_parse_error _ _ _ _ s); [done|].
    rewrite Hps, parse_trim_boolean. destruct raw; try done. by destruct (Hraw s0). }
  split; [|split; [|split; [|split]]].
  - intros raw v. rewrite Hps, parse_trim_boolean. intros H.
    destruct raw as [| | | |t|]; try done.
    destruct (booleanParser_accepts_shape _ _ H) as (b & ->). by exists b.
  - intros t b Hlow.
    assert (Hparse : parse_all (parsers s) (VStr t) = Parsed (VBool b)).
    { rewrite Hps, parse_trim_boolean. by apply booleanParser_accepts. }
    split; [done|]. intros Hv. by apply (write_accepted _ _ _ _ s).
  - intros t Ht Hf. apply (write_parse_error _ _ _ _ s); [done|].
    rewrite Hps, parse_trim_boolean, booleanParser_string.
    destruct (String.eqb_spec (toLowerCase (trim t)) "true"); [done|].
    by destruct (String.eqb_spec (toLowerCase (trim t)) "false").
  - done.
  - intros b Hb. apply Hother. rewrite read_value, Hb. done.
Qed.

Lemma boolean_cell_takes_texts_witness :
  write 2 0 (VStr "  TRUE ") boolean_cell
    = Some (Normal (commit 0 (VBool true) boolean_cell)) /\
  write 1 0 (VBool true) (commit 0 (VBool true) boolean_cell)
    = Some (Normal (console_error [CVal (VStr "Input must be a string")]
                      (commit 0 (VBool true) boolean_cell))).
Proof.
  split; [vm_compute; reflexivity|].
  destruct (boolean_cell_takes_texts 0 0 (commit 0 (VBool true) boolean_cell)
              (new_Signal (VBool true) [] [trimParser; booleanParser])
              eq_refl eq_refl)
    as (_ & _ & _ & _ & H).
  exact (H true eq_refl).
Defined.
